(** * The operator node of a data-availability network: node/node.go

    A shallow embedding of [node.go]: the store/validate/sign pipeline of
    [ProcessBatch], the per-blob validation fan-out of [ValidateBatch], the
    time budget of the expiration sweeper [expireLoop], the socket
    reconciliation of [updateSocketAddress], [checkRegisteredNodeIpOnChain]
    and [checkCurrentNodeIp], the start-up in [Start], and the construction
    of the node in [NewNode] and [buildSdkClients].

    Collaborators that [node.go] reaches through interfaces or through other
    files of the package (chain state, validator, key pair, store,
    transactor, public-IP provider) are fields of the records that stand for
    the [Node] struct, so every theorem holds for all of their behaviours. *)

From Stdlib Require Import ZArith Lia SpecFloat QArith Qminmax Qround.
From stdpp Require Import base gmap strings list.

(** ** Go errors

    An [error] value is nil or non-nil: [option error].  [ErrBatchAlreadyExist]
    is the sentinel of the store, compared with [==] in [ProcessBatch];
    [ErrWrap] is [fmt.Errorf("<msg>: %w", err)], which is never [==] to the
    error it wraps. *)
Inductive error : Type :=
| ErrBatchAlreadyExist
| ErrDeadlineExceeded
| ErrOpaque (msg : string)
| ErrWrap (msg : string) (cause : error).

#[global] Instance error_eq_dec : EqDecision error.
Proof. solve_decision. Defined.

(** [errors.Is(err, target)]: [err] or one of the errors it wraps is
    [target]. *)
Fixpoint errors_Is (err target : error) : bool :=
  if decide (err = target) then true
  else match err with
       | ErrWrap _ cause => errors_Is cause target
       | _ => false
       end.

(** ** The result channel of the validation fan-out

    [ValidateBatch] makes [out := make(chan error, len(blobs))], submits one
    job per blob to a worker pool of [NumBatchValidators] workers, and then
    receives up to [len(blobs)] results.  The threads are interleaved by a
    schedule: a list of actions, each taken by the main goroutine or by one
    of the running jobs. *)
Module Fanout.

(** What a job sends on [out]: nil or the validator's error. *)
Abbreviation result := (option error).

Record state : Type := {
  cap : nat;                     (* capacity of [out]: len(blobs) *)
  total : nat;                   (* len(blobs), bound of both loops *)
  workers : nat;                 (* size of the worker pool *)
  unsubmitted : list result;     (* blobs the submit loop has not reached *)
  pending : list result;         (* submitted jobs that have not reported *)
  buf : list result;             (* contents of [out], oldest first *)
  got : list result;             (* results received so far *)
  ret : option result            (* [Some r]: ValidateBatch returned r *)
}.

Inductive action : Type :=
| Main              (* the goroutine running ValidateBatch takes a step *)
| Report (j : nat). (* the j-th unfinished job sends its result *)

Definition init (w : nat) (results : list result) : state :=
  {| cap := length results; total := length results; workers := w;
     unsubmitted := results; pending := []; buf := []; got := [];
     ret := None |}.

(** The pool runs at most [max 1 workers] jobs at a time and starts them in
    submission order, so a job that reports is among the first
    [max 1 workers] unfinished ones. *)
Definition running (st : state) (j : nat) : bool :=
  (j <? Nat.max 1 (workers st)) && (j <? length (pending st)).

Definition step (a : action) (st : state) : option state :=
  match a with
  | Main =>
      match ret st with
      | Some _ => None                                  (* already returned *)
      | None =>
          match unsubmitted st with
          | r :: us =>                                  (* pool.Submit *)
              Some {| cap := cap st; total := total st; workers := workers st;
                      unsubmitted := us; pending := pending st ++ [r];
                      buf := buf st; got := got st; ret := None |}
          | [] =>
              if length (got st) <? total st then
                match buf st with
                | [] => None                            (* <-out blocks *)
                | r :: b =>                             (* err := <-out *)
                    Some {| cap := cap st; total := total st;
                            workers := workers st;
                            unsubmitted := []; pending := pending st;
                            buf := b; got := got st ++ [r];
                            ret := match r with
                                   | Some e => Some (Some e)
                                   | None => None
                                   end |}
                end
              else                                      (* return nil *)
                Some {| cap := cap st; total := total st;
                        workers := workers st;
                        unsubmitted := []; pending := pending st;
                        buf := buf st; got := got st; ret := Some None |}
          end
      end
  | Report j =>
      if running st j then
        match pending st !! j with
        | None => None
        | Some r =>
            if length (buf st) <? cap st then           (* out <- err *)
              Some {| cap := cap st; total := total st; workers := workers st;
                      unsubmitted := unsubmitted st;
                      pending := delete j (pending st);
                      buf := buf st ++ [r]; got := got st; ret := ret st |}
            else None                                   (* the send blocks *)
        end
      else None
  end.

Fixpoint run (sched : list action) (st : state) : option state :=
  match sched with
  | [] => Some st
  | a :: sched' =>
      match step a st with
      | Some st' => run sched' st'
      | None => None
      end
  end.

(** The receive loop on its own, over the results in the order in which
    they arrive on [out]. *)
Fixpoint collect (out : list result) : result :=
  match out with
  | [] => None
  | Some e :: _ => Some e
  | None :: out' => collect out'
  end.

(** How many results the receive loop takes from [out] before returning. *)
Fixpoint collected (out : list result) : nat :=
  match out with
  | [] => 0
  | Some _ :: _ => 1
  | None :: out' => S (collected out')
  end.

Definition measure (st : state) : nat :=
  3 * length (unsubmitted st) + 2 * length (pending st) + length (buf st)
  + match ret st with Some _ => 0 | None => 1 end.

(** The results in an order in which they can still arrive. *)
Definition arrival (st : state) : list result :=
  got st ++ buf st ++ pending st ++ unsubmitted st.

Definition collector_ok (st : state) : Prop :=
  match ret st with
  | None => Forall (eq None) (got st)
  | Some None => Forall (eq None) (got st) /\ length (got st) = total st
  | Some (Some e) => exists g, got st = g ++ [Some e] /\ Forall (eq None) g
  end.

(** What holds of every state that a schedule reaches from [init]. *)
Record inv (results : list result) (st : state) : Prop := {
  inv_cap : cap st = length results;
  inv_total : total st = length results;
  inv_arrival : arrival st ≡ₚ results;
  inv_collector : collector_ok st
}.

(** The receive loop starts only after the submit loop has ended. *)
Definition submitted_first (st : state) : Prop :=
  unsubmitted st = [] \/ (got st = [] /\ ret st = None).

(** [ValidateBatch] has returned and every job has sent its result. *)
Definition settled (st : state) : Prop :=
  ret st <> None /\ pending st = [] /\ unsubmitted st = [].

End Fanout.

(** The order in which the jobs' results arrive on [out] is decided by the
    scheduler.  A schedule gives, for each job, how many of the jobs
    submitted after it report before it does; every list of numbers is a
    schedule and every order of arrival is the image of one
    ([arrival_order_perm], [arrival_order_complete]). *)
Fixpoint insert_at {A : Type} (k : nat) (x : A) (l : list A) : list A :=
  match k, l with
  | S k', y :: l' => y :: insert_at k' x l'
  | _, _ => x :: l
  end.

Fixpoint arrival_order {A : Type} (sched : list nat) (jobs : list A) : list A :=
  match jobs with
  | [] => []
  | j :: js => insert_at (hd 0 sched) j (arrival_order (tl sched) js)
  end.

(** Go's [int] on a 64-bit platform. *)
Definition wrap_int (z : Z) : Z := ((z + 2 ^ 63) mod 2 ^ 64 - 2 ^ 63)%Z.
Definition int_add (a b : Z) : Z := wrap_int (a + b).

(** ** The batch pipeline: ProcessBatch and ValidateBatch *)
Module Batch.

(** Package [core] and the store, as far as [node.go] uses them: the types
    that pass through [ProcessBatch] and the three methods it calls on
    them.  [DB] is what the store holds at one moment. *)
Record Core : Type := {
  BatchHeader : Type;
  BlobMessage : Type;
  RawBlob : Type;
  OperatorState : Type;
  Signature : Type;
  Hash : Type;
  Key : Type;
  DB : Type;
  GetBatchHeaderHash : BatchHeader -> Hash + error;
  ReferenceBlockNumber : BatchHeader -> N;
  EncodedSizeAllQuorums : BlobMessage -> Z
}.

(** The fields of the [Node] struct that the pipeline reads.  A method that
    returns [(v, err)] in Go returns [inl v] for a nil error and [inr err]
    otherwise; [StoreBatch] keeps both components, since [ProcessBatch]
    inspects both.  [SignMessage] returns a pointer to a struct it has just
    built, which is never nil.  A worker pool made for fewer than one worker
    has one, so [NumBatchValidators] is read as [max 1 NumBatchValidators]. *)
Record Node (T : Core) : Type := {
  ID : N;
  NumBatchValidators : nat;
  GetOperatorStateByOperator : N -> N -> OperatorState T + error;
  ValidateBlob : BlobMessage T -> OperatorState T -> option error;
  SignMessage : Hash T -> Signature T;
  StoreBatch : DB T -> BatchHeader T -> list (BlobMessage T) ->
               list (RawBlob T) -> DB T * (option (list (Key T)) * option error);
  DeleteKeys : DB T -> list (Key T) -> DB T * bool;
  HasKey : DB T -> Key T -> bool;
  HasBatch : DB T -> Hash T -> bool
}.

Arguments ID {T} _.
Arguments NumBatchValidators {T} _.
Arguments GetOperatorStateByOperator {T} _ _ _.
Arguments ValidateBlob {T} _ _ _.
Arguments SignMessage {T} _ _.
Arguments StoreBatch {T} _ _ _ _ _.
Arguments DeleteKeys {T} _ _ _.
Arguments HasKey {T} _ _ _.
Arguments HasBatch {T} _ _ _.

(** What a call does besides returning: calls to collaborators, metrics and
    log lines, in the order in which they happen. *)
Inductive event (T : Core) : Type :=
| EvAcceptBatches (stage : string) (size : Z)
| EvObserveLatency (stage : string)
| EvLog (level msg : string)
| EvStoreBatch (keys : option (list (Key T))) (err : option error)
| EvDeleteKeys (keys : list (Key T)) (ok : bool)
| EvGetOperatorState (blk : N)
| EvSubmit (blob : BlobMessage T)
| EvValidateBlob (blob : BlobMessage T) (err : option error)
| EvReceive (err : option error)
| EvSignMessage (h : Hash T).

Arguments EvAcceptBatches {T} _ _.
Arguments EvObserveLatency {T} _.
Arguments EvLog {T} _ _.
Arguments EvStoreBatch {T} _ _.
Arguments EvDeleteKeys {T} _ _.
Arguments EvGetOperatorState {T} _.
Arguments EvSubmit {T} _.
Arguments EvValidateBlob {T} _ _.
Arguments EvReceive {T} _.
Arguments EvSignMessage {T} _.

(** A computation reads and writes the store and leaves a trace. *)
Definition M (T : Core) (A : Type) : Type := DB T -> A * DB T * list (event T).

Definition ret {T : Core} {A : Type} (a : A) : M T A := fun db => (a, db, []).

Definition bind {T : Core} {A B : Type} (m : M T A) (k : A -> M T B) : M T B :=
  fun db =>
    let '(a, db1, t1) := m db in
    let '(b, db2, t2) := k a db1 in
    (b, db2, t1 ++ t2).

Definition emit {T : Core} (e : event T) : M T unit := fun db => (tt, db, [e]).

Local Notation "x <- m ;; k" := (bind m (fun x => k))
  (at level 100, m at next level, k at level 200, right associativity).
Local Notation "m ;;; k" := (bind m (fun _ => k))
  (at level 100, k at level 200, right associativity).

Fixpoint forEach {T : Core} {A : Type} (l : list A) (f : A -> M T unit) : M T unit :=
  match l with
  | [] => ret tt
  | a :: l' => f a ;;; forEach l' f
  end.

Definition result_of {T : Core} {A : Type} (r : A * DB T * list (event T)) : A :=
  fst (fst r).
Definition db_of {T : Core} {A : Type} (r : A * DB T * list (event T)) : DB T :=
  snd (fst r).
Definition trace_of {T : Core} {A : Type} (r : A * DB T * list (event T)) :
  list (event T) := snd r.

(** [n.Store.StoreBatch(ctx, header, blobs, rawBlobs)] *)
Definition callStoreBatch {T : Core} (n : Node T) (header : BatchHeader T)
    (blobs : list (BlobMessage T)) (rawBlobs : list (RawBlob T)) :
    M T (option (list (Key T)) * option error) :=
  fun db =>
    let '(db', (keys, err)) := StoreBatch n db header blobs rawBlobs in
    ((keys, err), db', [EvStoreBatch keys err]).

(** [n.Store.DeleteKeys(ctx, keys)] *)
Definition callDeleteKeys {T : Core} (n : Node T) (keys : list (Key T)) : M T bool :=
  fun db =>
    let '(db', ok) := DeleteKeys n db keys in
    (ok, db', [EvDeleteKeys keys ok]).

(** [validateBlob]: the job of one blob; what it sends on [out]. *)
Definition validateBlob {T : Core} (n : Node T) (blob : BlobMessage T)
    (operatorState : OperatorState T) : option error :=
  match ValidateBlob n blob operatorState with
  | Some err => Some err
  | None => None
  end.

(** The receive loop of [ValidateBatch]. *)
Fixpoint receiveLoop {T : Core} (out : list (option error)) : M T (option error) :=
  match out with
  | [] => ret None
  | err :: out' =>
      emit (EvReceive err) ;;;
      match err with
      | Some e => ret (Some e)
      | None => receiveLoop out'
      end
  end.

(** [ValidateBatch].  The jobs run concurrently; [sched] fixes the order in
    which they report.  The trace lists every job before the first receive:
    [out] has room for all results, so this is one of the interleavings, and
    the value returned is the same in all interleavings with the same order of
    arrival ([Fanout.step] has the others). *)
Definition ValidateBatch {T : Core} (n : Node T) (header : BatchHeader T)
    (blobs : list (BlobMessage T)) (sched : list nat) : M T (option error) :=
  emit (EvGetOperatorState (ReferenceBlockNumber T header)) ;;;
  match GetOperatorStateByOperator n (ReferenceBlockNumber T header) (ID n) with
  | inr err => ret (Some err)
  | inl operatorState =>
      forEach blobs (fun blob => emit (EvSubmit blob)) ;;;
      let arrival := arrival_order sched blobs in
      forEach arrival (fun blob =>
        emit (EvValidateBlob blob (validateBlob n blob operatorState))) ;;;
      receiveLoop (map (fun blob => validateBlob n blob operatorState) arrival)
  end.

(** The local type [storeResult] of [ProcessBatch]. *)
Record storeResult (T : Core) : Type := {
  err : option error;
  keys : option (list (Key T))
}.
Arguments Build_storeResult {T} _ _.
Arguments err {T} _.
Arguments keys {T} _.

(** The loop that adds up [batchSize], the size reported to the metrics. *)
Definition batchSize {T : Core} (blobs : list (BlobMessage T)) : Z :=
  fold_left (fun acc blob => int_add acc (EncodedSizeAllQuorums T blob)) blobs 0%Z.

(** The goroutine that stores the batch, up to its send on [storeChan]. *)
Definition storeGoroutine {T : Core} (n : Node T) (header : BatchHeader T)
    (blobs : list (BlobMessage T)) (rawBlobs : list (RawBlob T)) (batchSize : Z) :
    M T (storeResult T) :=
  r <- callStoreBatch n header blobs rawBlobs ;;
  match snd r with
  | Some e =>
      if decide (e = ErrBatchAlreadyExist)
      then ret {| err := None; keys := None |}
      else ret {| err := Some (ErrWrap "failed to store batch" e); keys := None |}
  | None =>
      emit (EvAcceptBatches "stored" batchSize) ;;;
      emit (EvObserveLatency "stored") ;;;
      emit (EvLog "debug" "Store batch took") ;;;
      ret {| err := None; keys := fst r |}
  end.

(** [ProcessBatch].  The storing goroutine makes one call to the store and
    hands its result over [storeChan], which the main goroutine reads exactly
    once on each path after the goroutine is started; validation reads
    neither the store nor that result.  The goroutine is therefore run here
    before validation starts. *)
Definition ProcessBatch {T : Core} (n : Node T) (header : BatchHeader T)
    (blobs : list (BlobMessage T)) (rawBlobs : list (RawBlob T))
    (sched : list nat) : M T (option (Signature T) * option error) :=
  let batchSize := Batch.batchSize blobs in
  emit (EvAcceptBatches "received" batchSize) ;;;
  match GetBatchHeaderHash T header with
  | inr err => ret (None, Some err)
  | inl batchHeaderHash =>
      result <- storeGoroutine n header blobs rawBlobs batchSize ;;
      err <- ValidateBatch n header blobs sched ;;
      match err with
      | Some e =>
          match keys result with
          | Some ks =>
              ok <- callDeleteKeys n ks ;;
              if ok then ret tt
              else emit (EvLog "error"
                     "Failed to delete the invalid batch that should be rolled back")
          | None => ret tt
          end ;;;
          ret (None, Some (ErrWrap "failed to validate batch" e))
      | None =>
          emit (EvAcceptBatches "validated" batchSize) ;;;
          emit (EvObserveLatency "validated") ;;;
          emit (EvLog "debug" "Validate batch took") ;;;
          match Batch.err result with
          | Some _ => ret (None, err)
          | None =>
              emit (EvSignMessage batchHeaderHash) ;;;
              emit (EvLog "trace" "Signed batch header hash") ;;;
              emit (EvAcceptBatches "signed" batchSize) ;;;
              emit (EvObserveLatency "signed") ;;;
              emit (EvLog "debug" "Sign batch took") ;;;
              emit (EvLog "info" "StoreChunks succeeded") ;;;
              emit (EvLog "debug" "Exiting process batch") ;;;
              ret (Some (SignMessage n batchHeaderHash), None)
          end
      end
  end.

(** *** Notions of the specification *)

(** What the storing goroutine sends on [storeChan] when the store has
    returned [(ks, se)], and the events it leaves behind. *)
Definition sent_on_storeChan {T : Core} (ks : option (list (Key T)))
    (se : option error) : storeResult T :=
  match se with
  | Some e =>
      if decide (e = ErrBatchAlreadyExist)
      then {| err := None; keys := None |}
      else {| err := Some (ErrWrap "failed to store batch" e); keys := None |}
  | None => {| err := None; keys := ks |}
  end.

Definition storing_events {T : Core} (ks : option (list (Key T)))
    (se : option error) (size : Z) : list (event T) :=
  EvStoreBatch ks se
  :: match se with
     | Some _ => []
     | None => [EvAcceptBatches "stored" size; EvObserveLatency "stored";
                EvLog "debug" "Store batch took"]
     end.

Definition signing_events {T : Core} (h : Hash T) (size : Z) : list (event T) :=
  [EvSignMessage h; EvLog "trace" "Signed batch header hash";
   EvAcceptBatches "signed" size; EvObserveLatency "signed";
   EvLog "debug" "Sign batch took"; EvLog "info" "StoreChunks succeeded";
   EvLog "debug" "Exiting process batch"].

Definition validated_events {T : Core} (size : Z) : list (event T) :=
  [EvAcceptBatches "validated" size; EvObserveLatency "validated";
   EvLog "debug" "Validate batch took"].

(** The events that [ValidateBatch] leaves. *)
Definition validation_event {T : Core} (e : event T) : bool :=
  match e with
  | EvGetOperatorState _ | EvSubmit _ | EvValidateBlob _ _ | EvReceive _ => true
  | _ => false
  end.

(** The log line of a rollback that failed. *)
Definition rollback_failed {T : Core} : event T :=
  EvLog "error" "Failed to delete the invalid batch that should be rolled back".

(** Storage succeeded: the goroutine's call to the store returned without an
    error, or with the already-exists sentinel. *)
Definition storage_succeeded {T : Core} (tr : list (event T)) : Prop :=
  exists ks e, (EvStoreBatch ks e ∈ tr) /\ (e = None \/ e = Some ErrBatchAlreadyExist).

(** A fresh write: the store returned the keys it wrote and no error. *)
Definition fresh_write {T : Core} (n : Node T) (db : DB T) (header : BatchHeader T)
    (blobs : list (BlobMessage T)) (rawBlobs : list (RawBlob T))
    (db' : DB T) (ks : list (Key T)) : Prop :=
  StoreBatch n db header blobs rawBlobs = (db', (Some ks, None)).

(** The operator state of the header's reference block was fetched. *)
Definition fetched {T : Core} (n : Node T) (header : BatchHeader T)
    (os : OperatorState T) : Prop :=
  GetOperatorStateByOperator n (ReferenceBlockNumber T header) (ID n) = inl os.

(** Every blob passes validation: the validator accepts it against the
    operator state fetched for the batch. *)
Definition every_blob_passes {T : Core} (n : Node T) (header : BatchHeader T)
    (blobs : list (BlobMessage T)) : Prop :=
  forall blob, blob ∈ blobs ->
    exists os, fetched n header os /\ ValidateBlob n blob os = None.

(** No key was handed to [DeleteKeys]. *)
Definition nothing_deleted {T : Core} (tr : list (event T)) : Prop :=
  forall ks ok, EvDeleteKeys ks ok ∉ tr.

(** The validator was never called and no job was submitted to the pool. *)
Definition no_validation_job {T : Core} (tr : list (event T)) : Prop :=
  forall blob, (EvSubmit blob ∉ tr) /\ (forall r, EvValidateBlob blob r ∉ tr).

(** The gating of the signature, in the words of the specification: a
    signature is returned if and only if storage succeeded and every blob
    passed validation. *)
Definition stated_signature_gating {T : Core} (n : Node T) (header : BatchHeader T)
    (blobs : list (BlobMessage T)) (rawBlobs : list (RawBlob T))
    (sched : list nat) (db : DB T) : Prop :=
  fst (result_of (ProcessBatch n header blobs rawBlobs sched db)) <> None
  <-> storage_succeeded (trace_of (ProcessBatch n header blobs rawBlobs sched db))
      /\ every_blob_passes n header blobs.

(** [ValidateBatch] in the words of the specification: nil if and only if
    every blob passes validation. *)
Definition stated_validation {T : Core} (n : Node T) (header : BatchHeader T)
    (blobs : list (BlobMessage T)) (sched : list nat) (db : DB T) : Prop :=
  result_of (ValidateBatch n header blobs sched db) = None
  <-> every_blob_passes n header blobs.

(** The batch without blobs, as it is stated: validation succeeds without a
    job or a call to the validator, and a signature over the header hash is
    returned if storage succeeds. *)
Definition stated_empty_batch {T : Core} (n : Node T) (header : BatchHeader T)
    (rawBlobs : list (RawBlob T)) (sched : list nat) (db : DB T) : Prop :=
  result_of (ValidateBatch n header [] sched db) = None
  /\ no_validation_job (trace_of (ProcessBatch n header [] rawBlobs sched db))
  /\ (storage_succeeded (trace_of (ProcessBatch n header [] rawBlobs sched db)) ->
      exists h, GetBatchHeaderHash T header = inl h
                /\ result_of (ProcessBatch n header [] rawBlobs sched db)
                   = (Some (SignMessage n h), None)).

(** Modelled from the spec: the methods of the store ([StoreBatch],
    [DeleteKeys] and the lookups, in store.go) are not among the sources; this
    is the contract of [StoreBatch] for a batch that is there already, as
    section 4.3 of the specification gives it: a batch whose header hash is
    present is reported with [ErrBatchAlreadyExist], without keys, and the
    store is left as it was. *)
Definition reports_existing {T : Core} (n : Node T) : Prop :=
  forall db header h blobs rawBlobs,
    GetBatchHeaderHash T header = inl h ->
    HasBatch n db h = true ->
    StoreBatch n db header blobs rawBlobs = (db, (None, Some ErrBatchAlreadyExist)).

(** Modelled from the spec: the contract of [DeleteKeys] (store.go, not among
    the sources), a bulk delete that reports whether it succeeded: after a
    successful delete none of the keys is retrievable. *)
Definition delete_removes {T : Core} (n : Node T) : Prop :=
  forall db ks db',
    DeleteKeys n db ks = (db', true) ->
    forall k, k ∈ ks -> HasKey n db' k = false.

(** *** A store in memory and a node around it

    Modelled from the spec: a store that holds a set of keys.  A batch with
    header hash [h] and [b] blobs occupies the key [(h, 0)] for its header and
    the keys [(h, 2i+1)], [(h, 2i+2)] for the header and the chunks of blob
    [i]; they are written as one unit.  The two flags make the underlying
    database fail. *)
Definition memCore : Core :=
  {| BatchHeader := N; BlobMessage := N; RawBlob := N; OperatorState := unit;
     Signature := N; Hash := N; Key := N * nat; DB := gset (N * nat);
     GetBatchHeaderHash := fun header =>
       if (header =? 0)%N then inr (ErrOpaque "malformed header") else inl header;
     ReferenceBlockNumber := fun header => header;
     EncodedSizeAllQuorums := fun blob => Z.of_N blob |}.

Definition memKeys (h : N) (blobs : list N) : list (N * nat) :=
  (h, 0) :: flat_map (fun i => [(h, 2 * i + 1); (h, 2 * i + 2)]) (seq 0 (length blobs)).

Definition memStoreBatch (fails : bool) (db : gset (N * nat)) (header : N)
    (blobs rawBlobs : list N) :
    gset (N * nat) * (option (list (N * nat)) * option error) :=
  if fails then (db, (None, Some (ErrOpaque "leveldb: write failed")))
  else if decide ((header, 0) ∈ db) then (db, (None, Some ErrBatchAlreadyExist))
  else (list_to_set (memKeys header blobs) ∪ db, (Some (memKeys header blobs), None)).

Definition memDeleteKeys (fails : bool) (db : gset (N * nat)) (ks : list (N * nat)) :
    gset (N * nat) * bool :=
  if fails then (db, false) else (db ∖ list_to_set ks, true).

(** [chainUp]: the chain client answers; [invalid]: the blobs the validator
    rejects. *)
Definition memNode (chainUp : bool) (invalid : N -> bool)
    (storeFails deleteFails : bool) : Node memCore :=
  @Build_Node memCore
    7%N
    2
    (fun _ _ => if chainUp then inl tt else inr (ErrOpaque "rpc: connection refused"))
    (fun blob _ => if invalid blob then Some (ErrOpaque "invalid chunk") else None)
    (fun h => h)
    (memStoreBatch storeFails)
    (memDeleteKeys deleteFails)
    (fun db k => bool_decide (k ∈ (db : gset (N * nat))))
    (fun db h => bool_decide ((h, 0) ∈ (db : gset (N * nat)))).

(** The node [n] with a pool of [w] validators. *)
Definition withValidators {T : Core} (w : nat) (n : Node T) : Node T :=
  {| ID := ID n; NumBatchValidators := w;
     GetOperatorStateByOperator := GetOperatorStateByOperator n;
     ValidateBlob := ValidateBlob n; SignMessage := SignMessage n;
     StoreBatch := StoreBatch n; DeleteKeys := DeleteKeys n;
     HasKey := HasKey n; HasBatch := HasBatch n |}.

(** The sum of the encoded sizes of the blobs, in the integers. *)
Definition totalEncodedSize {T : Core} (blobs : list (BlobMessage T)) : Z :=
  foldr Z.add 0%Z (map (EncodedSizeAllQuorums T) blobs).

End Batch.

(** ** Go's package [time], as far as the loops of the node use it

    [time.NewTimer(d)] sends the current time on its channel once, [d] after
    it was made; [time.NewTicker(d)] sends on its channel after every period
    [d].  Time is counted in periods [d] since the channel was made:
    [fires c k] says whether a value arrives at the end of period [k]. *)
Module Clock.

Inductive source : Type := NewTimer | NewTicker.

Definition fires (c : source) (k : nat) : bool :=
  match c with
  | NewTimer => k =? 1
  | NewTicker => 1 <=? k
  end.

End Clock.

(** ** The socket reconciler: Start, updateSocketAddress and the two watchers *)
Module Socket.

Record Config : Type := {
  Hostname : string;
  DispersalPort : string;
  RetrievalPort : string;
  PubIPCheckInterval : Z;          (* a time.Duration *)
  RegisterNodeAtStart : bool;
  EnableMetrics : bool;
  EnableNodeApi : bool
}.

(** The fields of [Node] that the reconciler reads.  [W] is the state of the
    world outside the node: the chain behind the transactor and the public-IP
    provider, whose answers may change from call to call. *)
Record Node (W : Type) : Type := {
  NodeConfig : Config;
  MakeOperatorSocket : string -> string -> string -> string;
  UpdateOperatorSocket : W -> string -> W * option error;
  PublicIPAddress : W -> W * (string + error);
  RegisterOperator : W -> string -> W * option error
}.
Arguments NodeConfig {W} _.
Arguments MakeOperatorSocket {W} _ _ _ _.
Arguments UpdateOperatorSocket {W} _ _ _.
Arguments PublicIPAddress {W} _ _.
Arguments RegisterOperator {W} _ _ _.

Inductive event : Type :=
| EvLock
| EvUnlock
| EvSetCurrentSocket (socket : string)
| EvUpdateOperatorSocket (socket : string) (err : option error)
| EvPublicIPAddress (r : string + error)
| EvRegisterOperator (socket : string) (err : option error)
| EvLog (level msg : string)
| EvRecordSocketAddressChange
| EvMetricsStart
| EvNodeApiStart
| EvGo (f : string).

(** The mutable part of [Node]: [CurrentSocket], the mutex [mu] (true while
    some goroutine holds it), the world and the trace so far. *)
Record state (W : Type) : Type := {
  CurrentSocket : string;
  mu : bool;
  world : W;
  trace : list event
}.
Arguments Build_state {W} _ _ _ _.
Arguments CurrentSocket {W} _.
Arguments mu {W} _.
Arguments world {W} _.
Arguments trace {W} _.

(** A computation of one goroutine; [None] when it can go no further: [Lock]
    on a held mutex waits, [Unlock] of a free one is a fatal error. *)
Definition M (W A : Type) : Type := state W -> option (A * state W).

Definition ret {W A : Type} (a : A) : M W A := fun st => Some (a, st).

Definition bind {W A B : Type} (m : M W A) (k : A -> M W B) : M W B :=
  fun st =>
    match m st with
    | Some (a, st') => k a st'
    | None => None
    end.

Local Notation "x <- m ;; k" := (bind m (fun x => k))
  (at level 100, m at next level, k at level 200, right associativity).
Local Notation "m ;;; k" := (bind m (fun _ => k))
  (at level 100, k at level 200, right associativity).

Definition emit {W : Type} (e : event) : M W unit :=
  fun st => Some (tt, {| CurrentSocket := CurrentSocket st; mu := mu st;
                         world := world st; trace := trace st ++ [e] |}).

Definition Lock {W : Type} : M W unit :=
  fun st =>
    if mu st then None
    else Some (tt, {| CurrentSocket := CurrentSocket st; mu := true;
                      world := world st; trace := trace st ++ [EvLock] |}).

Definition Unlock {W : Type} : M W unit :=
  fun st =>
    if mu st
    then Some (tt, {| CurrentSocket := CurrentSocket st; mu := false;
                      world := world st; trace := trace st ++ [EvUnlock] |})
    else None.

(** [n.CurrentSocket] *)
Definition readCurrentSocket {W : Type} : M W string :=
  fun st => Some (CurrentSocket st, st).

(** [n.CurrentSocket = socket] *)
Definition writeCurrentSocket {W : Type} (socket : string) : M W unit :=
  fun st => Some (tt, {| CurrentSocket := socket; mu := mu st; world := world st;
                         trace := trace st ++ [EvSetCurrentSocket socket] |}).

Definition callUpdateOperatorSocket {W : Type} (n : Node W) (socket : string) :
    M W (option error) :=
  fun st =>
    let '(w, err) := UpdateOperatorSocket n (world st) socket in
    Some (err, {| CurrentSocket := CurrentSocket st; mu := mu st; world := w;
                  trace := trace st ++ [EvUpdateOperatorSocket socket err] |}).

Definition callPublicIPAddress {W : Type} (n : Node W) : M W (string + error) :=
  fun st =>
    let '(w, r) := PublicIPAddress n (world st) in
    Some (r, {| CurrentSocket := CurrentSocket st; mu := mu st; world := w;
                trace := trace st ++ [EvPublicIPAddress r] |}).

Definition callRegisterOperator {W : Type} (n : Node W) (socket : string) :
    M W (option error) :=
  fun st =>
    let '(w, err) := RegisterOperator n (world st) socket in
    Some (err, {| CurrentSocket := CurrentSocket st; mu := mu st; world := w;
                  trace := trace st ++ [EvRegisterOperator socket err] |}).

Definition when {W : Type} (b : bool) (m : M W unit) : M W unit :=
  if b then m else ret tt.

(** [updateSocketAddress]; the deferred [Unlock] runs on each return. *)
Definition updateSocketAddress {W : Type} (n : Node W) (newSocketAddr : string) :
    M W unit :=
  Lock ;;;
  cur <- readCurrentSocket ;;
  if String.eqb newSocketAddr cur then Unlock
  else
    err <- callUpdateOperatorSocket n newSocketAddr ;;
    match err with
    | Some _ =>
        emit (EvLog "error" "failed to update operator's socket") ;;;
        Unlock
    | None =>
        emit (EvLog "info" "Socket update") ;;;
        emit EvRecordSocketAddressChange ;;;
        writeCurrentSocket newSocketAddr ;;;
        Unlock
    end.

(** The body of [case socket := <-socketChan] in
    [checkRegisteredNodeIpOnChain]. *)
Definition onSocketEvent {W : Type} (socket : string) : M W unit :=
  Lock ;;;
  cur <- readCurrentSocket ;;
  when (negb (String.eqb socket cur))
    (emit (EvLog "info"
       "Detected socket registered onchain which is different than the socket kept at the DA Node") ;;;
     writeCurrentSocket socket) ;;;
  Unlock.

Fixpoint forEach {W A : Type} (l : list A) (f : A -> M W unit) : M W unit :=
  match l with
  | [] => ret tt
  | a :: l' => f a ;;; forEach l' f
  end.

(** [checkRegisteredNodeIpOnChain]: [watch] is what
    [WatchOperatorSocketUpdate] returns, an error or the channel; the channel
    stands for the sockets it delivers before [ctx] is cancelled. *)
Definition checkRegisteredNodeIpOnChain {W : Type} (watch : list string + error) :
    M W unit :=
  match watch with
  | inr _ => ret tt
  | inl socketChan => forEach socketChan onSocketEvent
  end.

(** [socketAddress] *)
Definition socketAddress {W : Type} (n : Node W) : M W (string + error) :=
  r <- callPublicIPAddress n ;;
  match r with
  | inr err =>
      ret (inr (ErrWrap "failed to get public ip address from IP provider" err))
  | inl ip =>
      ret (inl (MakeOperatorSocket n ip (DispersalPort (NodeConfig n))
                                        (RetrievalPort (NodeConfig n))))
  end.

(** The body of [case <-t.C] in [checkCurrentNodeIp]. *)
Definition onTimer {W : Type} (n : Node W) : M W unit :=
  r <- socketAddress n ;;
  match r with
  | inr _ => emit (EvLog "error" "failed to get socket address")
  | inl newSocketAddr => updateSocketAddress n newSocketAddr
  end.

(** [for { select { case <-ctx.Done(): return; case <-C: body } }] over a
    channel [C] of package [time]: [periods] periods go by before [ctx] is
    cancelled, and [k] is the period that comes next. *)
Fixpoint selectLoop {W : Type} (c : Clock.source) (body : M W unit)
    (k periods : nat) : M W unit :=
  match periods with
  | 0 => ret tt
  | S periods' =>
      when (Clock.fires c k) body ;;;
      selectLoop c body (S k) periods'
  end.

(** [checkCurrentNodeIp]: the channel is that of
    [time.NewTimer(n.Config.PubIPCheckInterval)]. *)
Definition checkCurrentNodeIp {W : Type} (n : Node W) (periods : nat) : M W unit :=
  selectLoop Clock.NewTimer (onTimer n) 1 periods.

(** [Start]: the servers of the metrics and of the node API, and the
    goroutines, are events of the trace. *)
Definition Start {W : Type} (n : Node W) : M W (option error) :=
  let cfg := NodeConfig n in
  when (EnableMetrics cfg)
    (emit EvMetricsStart ;;; emit (EvLog "info" "Enabled metrics")) ;;;
  when (EnableNodeApi cfg)
    (emit EvNodeApiStart ;;; emit (EvLog "info" "Enabled node api")) ;;;
  emit (EvGo "expireLoop") ;;;
  let socket :=
    MakeOperatorSocket n (Hostname cfg) (DispersalPort cfg) (RetrievalPort cfg) in
  emit (EvLog "info" "Registering node with socket") ;;;
  err <- (if RegisterNodeAtStart cfg then
            emit (EvLog "debug"
              "Registering node on chain with the following parameters:") ;;;
            let socket :=
              MakeOperatorSocket n (Hostname cfg) (DispersalPort cfg)
                                 (RetrievalPort cfg) in
            callRegisterOperator n socket
          else ret None) ;;
  match err with
  | Some e => ret (Some (ErrWrap "failed to register the operator" e))
  | None =>
      writeCurrentSocket socket ;;;
      when (0 <? PubIPCheckInterval cfg)%Z
        (emit (EvGo "checkRegisteredNodeIpOnChain") ;;;
         emit (EvGo "checkCurrentNodeIp")) ;;;
      ret None
  end.

(** *** Notions of the specification *)

(** Every write of [CurrentSocket] in a trace happens between a [Lock] and
    the [Unlock] that follows it; [held] is whether the goroutine holds the
    mutex where the trace begins. *)
Fixpoint writes_under_lock (held : bool) (tr : list event) : bool :=
  match tr with
  | [] => true
  | EvLock :: tr' => writes_under_lock true tr'
  | EvUnlock :: tr' => writes_under_lock false tr'
  | EvSetCurrentSocket _ :: tr' => held && writes_under_lock held tr'
  | _ :: tr' => writes_under_lock held tr'
  end.

(** Whether the goroutine holds the mutex at the end of a trace. *)
Fixpoint held_after (held : bool) (tr : list event) : bool :=
  match tr with
  | [] => held
  | EvLock :: tr' => held_after true tr'
  | EvUnlock :: tr' => held_after false tr'
  | _ :: tr' => held_after held tr'
  end.

(** The events that a computation adds to the trace. *)
Definition new_events {W A : Type} (m : M W A) (st : state W) : list event :=
  match m st with
  | Some (_, st') => drop (length (trace st)) (trace st')
  | None => []
  end.

(** A computation keeps the lock discipline: started with the mutex free it
    returns, it has released the mutex when it does, and each of its writes
    of [CurrentSocket] is made under the mutex. *)
Definition disciplined {W : Type} (m : M W unit) : Prop :=
  forall st, mu st = false ->
    exists st' evs,
      m st = Some (tt, st')
      /\ mu st' = false
      /\ trace st' = trace st ++ evs
      /\ writes_under_lock false evs = true
      /\ held_after false evs = false.

Definition is_watcher (e : event) : bool :=
  match e with
  | EvGo f => String.eqb f "checkRegisteredNodeIpOnChain"
              || String.eqb f "checkCurrentNodeIp"
  | _ => false
  end.

Definition is_write (e : event) : bool :=
  match e with EvSetCurrentSocket _ => true | _ => false end.

(** No write of [CurrentSocket] in a trace comes after the start of a
    watcher. *)
Fixpoint writes_before_watchers (tr : list event) : bool :=
  match tr with
  | [] => true
  | e :: tr' =>
      if is_watcher e then forallb (fun e' => negb (is_write e')) tr'
      else writes_before_watchers tr'
  end.

(** The lock discipline as it is stated, for the three writers: startup
    registration, the on-chain watch and the update path of the poll. *)
Definition stated_lock_discipline {W : Type} (n : Node W) (st : state W)
    (socket newSocketAddr : string) : Prop :=
  writes_under_lock false (new_events (Start n) st) = true
  /\ writes_under_lock false (new_events (onSocketEvent socket) st) = true
  /\ writes_under_lock false (new_events (updateSocketAddress n newSocketAddr) st)
     = true.

Definition is_query (e : event) : bool :=
  match e with EvPublicIPAddress _ => true | _ => false end.

Definition is_update (e : event) : bool :=
  match e with EvUpdateOperatorSocket _ _ => true | _ => false end.

(** How often the public-IP provider was asked, and how often the on-chain
    update was attempted. *)
Definition queries (tr : list event) : nat := length (filter is_query tr).
Definition updates (tr : list event) : nat := length (filter is_update tr).

(** A world for examples: the public IP is fixed, and the transactor fails
    as long as the counter is positive. *)
Definition flakyNode (ip : string) : Node nat :=
  {| NodeConfig := {| Hostname := "node.example"; DispersalPort := "32005";
                      RetrievalPort := "32004"; PubIPCheckInterval := 10;
                      RegisterNodeAtStart := false; EnableMetrics := false;
                      EnableNodeApi := false |};
     MakeOperatorSocket := fun host d r => host +:+ ":" +:+ d +:+ ";" +:+ r;
     UpdateOperatorSocket := fun w _ =>
       match w with
       | 0 => (0, None)
       | S w' => (w', Some (ErrOpaque "transaction reverted"))
       end;
     PublicIPAddress := fun w => (w, inl ip);
     RegisterOperator := fun w _ => (w, None) |}.

Definition fresh (w : nat) (socket : string) : state nat :=
  {| CurrentSocket := socket; mu := false; world := w; trace := [] |}.

(** Whether the goroutine [f] is started in a trace. *)
Definition starts (f : string) (tr : list event) : bool :=
  existsb (fun e => match e with EvGo g => String.eqb g f | _ => false end) tr.

(** The socket that [Start] builds from the configuration. *)
Definition configuredSocket {W : Type} (n : Node W) : string :=
  MakeOperatorSocket n (Hostname (NodeConfig n)) (DispersalPort (NodeConfig n))
                     (RetrievalPort (NodeConfig n)).

(** The events in which the node reaches out: a call to the transactor
    (registration or socket update) or to the public-IP provider. *)
Definition is_call (e : event) : bool :=
  match e with
  | EvUpdateOperatorSocket _ _ | EvRegisterOperator _ _ | EvPublicIPAddress _ => true
  | _ => false
  end.

(** A node that registers at start, with a transactor that refuses. *)
Definition refusedNode : Node nat :=
  {| NodeConfig := {| Hostname := "node.example"; DispersalPort := "32005";
                      RetrievalPort := "32004"; PubIPCheckInterval := 10;
                      RegisterNodeAtStart := true; EnableMetrics := true;
                      EnableNodeApi := false |};
     MakeOperatorSocket := fun host d r => host +:+ ":" +:+ d +:+ ";" +:+ r;
     UpdateOperatorSocket := fun w _ => (w, None);
     PublicIPAddress := fun w => (w, inr (ErrOpaque "no route to host"));
     RegisterOperator := fun w _ => (S w, Some (ErrOpaque "churner unavailable")) |}.

End Socket.

(** ** The expiration sweeper: expireLoop and its time budget *)
Module GC.

Local Open Scope Z_scope.

(** [float64] values are IEEE 754 binary64 numbers: [spec_float] with 53
    bits of precision and exponents below 1024.  A finite [S754_finite s m e]
    is [(-1)^s * m * 2^e]. *)
Definition prec : Z := 53.
Definition emax : Z := 1024.

(** [float64(x)] for an unsigned integer [x]: the nearest float, ties to
    even. *)
Definition float64_of_uint64 (x : Z) : spec_float :=
  binary_normalize prec emax x 0 false.

(** [float64 * float64] *)
Definition float64_mul (x y : spec_float) : spec_float := SFmul prec emax x y.

(** The constant [gcPercentageTime = 0.1] where it is used as a [float64]:
    the float nearest to one tenth, [0x1.999999999999ap-4]. *)
Definition gcPercentageTime : spec_float :=
  S754_finite false 7205759403792794 (-56).

(** The constant [1.0]. *)
Definition float64_one : spec_float := S754_finite false 4503599627370496 (-52).

(** [math.Max] *)
Definition math_Max (x y : spec_float) : spec_float :=
  match x, y with
  | S754_infinity false, _ => S754_infinity false
  | _, S754_infinity false => S754_infinity false
  | S754_nan, _ => S754_nan
  | _, S754_nan => S754_nan
  | S754_zero sx, S754_zero _ => if sx then y else x
  | _, _ => if SFltb y x then x else y
  end.

(** [uint64(f)] for a float: the fraction is dropped.  Go leaves the result
    open when the value does not fit; negative values, infinities and NaN
    give 0 here, larger values wrap. *)
Definition uint64_of_float64 (f : spec_float) : Z :=
  match f with
  | S754_finite false m e =>
      (if 0 <=? e then Z.pos m * 2 ^ e else Z.pos m / 2 ^ (- e)) mod 2 ^ 64
  | _ => 0
  end.

(** [timeLimitSec] of [expireLoop], for a poll interval of
    [ExpirationPollIntervalSec] seconds. *)
Definition timeLimitSec (ExpirationPollIntervalSec : Z) : Z :=
  uint64_of_float64
    (math_Max (float64_mul (float64_of_uint64 ExpirationPollIntervalSec)
                           gcPercentageTime)
              float64_one).

(** The fields of [Node] that the sweeper reads; [Now] is the Unix time at
    each tick. *)
Record Node (DB : Type) : Type := {
  ExpirationPollIntervalSec : Z;
  DeleteExpiredEntries : DB -> Z -> Z -> DB * (Z * option error);
  Now : nat -> Z
}.
Arguments ExpirationPollIntervalSec {DB} _.
Arguments DeleteExpiredEntries {DB} _ _ _ _.
Arguments Now {DB} _ _.

Inductive event : Type :=
| EvDeleteExpiredEntries (now timeLimitSec : Z) (deleted : Z) (err : option error)
| EvLog (level msg : string).

(** One pass through the body of the loop of [expireLoop], at tick [k]. *)
Definition sweep {DB : Type} (n : Node DB) (k : nat) (db : DB) : DB * list event :=
  let timeLimitSec := timeLimitSec (ExpirationPollIntervalSec n) in
  let '(db', (numBatchesDeleted, err)) :=
    DeleteExpiredEntries n db (Now n k) timeLimitSec in
  (db',
   EvDeleteExpiredEntries (Now n k) timeLimitSec numBatchesDeleted err
   :: EvLog "info" "GC cycle deleted"
   :: match err with
      | None => []
      | Some e =>
          if errors_Is e ErrDeadlineExceeded
          then [EvLog "error" "GC cycle ContextDeadlineExceeded"]
          else [EvLog "error" "GC cycle had failed to delete some expired entries"]
      end).

(** The loop of [expireLoop] over the channel of the ticker: [periods] ticks
    go by while the node runs, [k] is the one that comes next. *)
Fixpoint expireLoopFrom {DB : Type} (n : Node DB) (k periods : nat) (db : DB) :
    DB * list event :=
  match periods with
  | O => (db, [])
  | S periods' =>
      let '(db1, t1) :=
        if Clock.fires Clock.NewTicker k then sweep n k db else (db, []) in
      let '(db2, t2) := expireLoopFrom n (S k) periods' db1 in
      (db2, t1 ++ t2)
  end.

(** [time.Second], in nanoseconds. *)
Definition time_Second : Z := 1000000000.

(** [time.Duration(x) * time.Second] for an unsigned integer [x]: a
    [time.Duration] is an [int64], so the conversion and the product both
    wrap. *)
Definition tickerPeriod (ExpirationPollIntervalSec : Z) : Z :=
  wrap_int (wrap_int ExpirationPollIntervalSec * time_Second).

(** [expireLoop].  [time.NewTicker] panics when the period is not positive:
    the loop is never entered and no sweep is made ([None]).  Otherwise the
    loop runs over the ticks of the ticker. *)
Definition expireLoop {DB : Type} (n : Node DB) (periods : nat) (db : DB) :
    option (DB * list event) :=
  if 0 <? tickerPeriod (ExpirationPollIntervalSec n)
  then Some (expireLoopFrom n 1 periods db)
  else None.

(** The budgets handed to [DeleteExpiredEntries] in a trace. *)
Definition budgets (tr : list event) : list Z :=
  omap (fun e => match e with
                 | EvDeleteExpiredEntries _ limit _ _ => Some limit
                 | _ => None
                 end) tr.

(** [rec] is what [k] shifts to the right leave of [M]: the mantissa is the
    quotient, and the round bit is set only if the remainder is at least one
    half. *)
Definition shifted (M : Z) (k : Z) (rec : shr_record) : Prop :=
  0 <= shr_m rec
  /\ 2 ^ k * shr_m rec <= M < 2 ^ k * (shr_m rec + 1)
  /\ (shr_r rec = true -> 2 ^ k <= 2 * (M - 2 ^ k * shr_m rec)).

(** The budget in the words of the specification: [max(0.1 * P, 1)]
    seconds, as a rational number. *)
Definition stated_budget (P : Z) : Prop :=
  (inject_Z (timeLimitSec P) == Qmax ((1 # 10) * inject_Z P) 1)%Q.

(** A node for examples, whose store has nothing to delete. *)
Definition idleNode (P : Z) : Node unit :=
  {| ExpirationPollIntervalSec := P;
     DeleteExpiredEntries := fun db _ _ => (db, (0, None));
     Now := fun k => 1700000000 + P * Z.of_nat k |}.

(** The times at which [DeleteExpiredEntries] is called in a trace. *)
Definition sweeps (tr : list event) : list Z :=
  omap (fun e => match e with
                 | EvDeleteExpiredEntries now _ _ _ => Some now
                 | _ => None
                 end) tr.

(** The store after the sweeps at the ticks [ks], each made on the store as
    the sweep before left it. *)
Definition swept {DB : Type} (n : Node DB) (ks : list nat) (db : DB) : DB :=
  foldl (fun db k =>
           fst (DeleteExpiredEntries n db (Now n k)
                  (timeLimitSec (ExpirationPollIntervalSec n))))
        db ks.

(** How many sweeps of a trace returned an error, and how many error lines
    the trace has. *)
Definition failures (tr : list event) : nat :=
  length (List.filter (fun e => match e with
                                | EvDeleteExpiredEntries _ _ _ (Some _) => true
                                | _ => false
                                end) tr).

Definition error_logs (tr : list event) : nat :=
  length (List.filter (fun e => match e with
                                | EvLog level _ => String.eqb level "error"
                                | _ => false
                                end) tr).

(** A node whose store fails on every sweep. *)
Definition failingNode (P : Z) : Node nat :=
  {| ExpirationPollIntervalSec := P;
     DeleteExpiredEntries := fun db _ _ =>
       (S db, (0, Some (ErrWrap "iterate" ErrDeadlineExceeded)));
     Now := fun k => 1700000000 + P * Z.of_nat k |}.

End GC.

(** ** Construction of the node: NewNode and buildSdkClients *)
Module Setup.

(** [geth.EthClientConfig], the two fields that [node.go] reads. *)
Record EthClientConfig : Type := {
  RPCURL : string;
  PrivateKeyString : string
}.

(** [constructor.Config] of the SDK, as [buildSdkClients] fills it. *)
Record SdkConfig : Type := {
  EcdsaPrivateKeyString : string;
  EthHttpUrl : string;
  EthWsUrl : string;
  BlsRegistryCoordinatorAddr : string;
  BlsOperatorStateRetrieverAddr : string;
  AvsName : string;
  PromMetricsIpPortAddress : string
}.

(** The packages that [NewNode] draws on.  A call that can fail takes the
    state of the world (the chain, the file system) and returns the new
    state with [inl v] for a nil error and [inr err] otherwise; constructors
    that return no error are functions.  [MustRegister] returns [None] when
    it panics.  [GetBlockStaleMeasure] and [GetStoreDurationBlocks] return a
    [uint32]. *)
Record Pkg : Type := {
  World : Type;
  core_OperatorID : Type;
  core_KeyPair : Type;
  common_EthClient : Type;
  core_Transactor : Type;
  gethcommon_Address : Type;
  constructor_Clients : Type;
  economic_Collector : Type;
  rpccalls_Collector : Type;
  node_Metrics : Type;
  core_ChainState : Type;
  nodeapi_NodeApi : Type;
  encoding_EncoderConfig : Type;
  encoding_Encoder : Type;
  core_ChunkValidator : Type;
  node_Store : Type;
  indexer_OperatorSocketsFilterer : Type;
  pubip_Provider : Type;
  AppName : string;
  SemVer : string;
  geth_NewClient : World -> EthClientConfig -> World * (common_EthClient + error);
  eth_NewTransactor : World -> common_EthClient -> string -> string ->
                      World * (core_Transactor + error);
  RegistryCoordinator : World -> core_Transactor ->
                        World * (gethcommon_Address + error);
  Hex : gethcommon_Address -> string;
  constructor_BuildClients : World -> SdkConfig ->
                             World * (constructor_Clients + error);
  economic_NewCollector : constructor_Clients -> common_EthClient ->
                          economic_Collector;
  MustRegister : World -> constructor_Clients -> economic_Collector ->
                 option World;
  NewMetrics : constructor_Clients -> string -> node_Metrics;
  rpccalls_NewCollector : constructor_Clients -> rpccalls_Collector;
  core_MakeKeyPairFromString : string -> core_KeyPair + error;
  GetOperatorID : core_KeyPair -> core_OperatorID;
  os_MkdirAll : World -> string -> World * option error;
  geth_NewInstrumentedEthClient : World -> EthClientConfig -> rpccalls_Collector ->
                                  World * (common_EthClient + error);
  eth_NewChainState : core_Transactor -> common_EthClient -> core_ChainState;
  nodeapi_NewNodeApi : string -> nodeapi_NodeApi;
  encoding_NewEncoder : World -> encoding_EncoderConfig ->
                        World * (encoding_Encoder + error);
  core_NewChunkValidator : encoding_Encoder -> core_ChainState ->
                           core_OperatorID -> core_ChunkValidator;
  GetBlockStaleMeasure : World -> core_Transactor -> World * (Z + error);
  GetStoreDurationBlocks : World -> core_Transactor -> World * (Z + error);
  NewLevelDBStore : World -> string -> node_Metrics -> Z -> Z ->
                    World * (node_Store + error);
  gethcommon_HexToAddress : string -> gethcommon_Address;
  indexer_NewOperatorSocketsFilterer : World -> gethcommon_Address ->
                                       common_EthClient ->
                                       World * (indexer_OperatorSocketsFilterer + error)
}.

(** The fields of [Config] that [NewNode] and [buildSdkClients] read or
    write.  The two overrides are integers; [uint32(...)] reduces them. *)
Record Config (P : Pkg) : Type := {
  MetricsPort : string;
  PrivateBls : string;
  ID : core_OperatorID P;
  DbPath : string;
  EthClientConfig_ : EthClientConfig;
  BLSOperatorStateRetrieverAddr : string;
  EigenDAServiceManagerAddr : string;
  NodeApiPort : string;
  EncoderConfig : encoding_EncoderConfig P;
  EnableTestMode : bool;
  OverrideBlockStaleMeasure : Z;
  OverrideStoreDurationBlocks : Z
}.
Arguments MetricsPort {P} _.
Arguments PrivateBls {P} _.
Arguments ID {P} _.
Arguments DbPath {P} _.
Arguments EthClientConfig_ {P} _.
Arguments BLSOperatorStateRetrieverAddr {P} _.
Arguments EigenDAServiceManagerAddr {P} _.
Arguments NodeApiPort {P} _.
Arguments EncoderConfig {P} _.
Arguments EnableTestMode {P} _.
Arguments OverrideBlockStaleMeasure {P} _.
Arguments OverrideStoreDurationBlocks {P} _.

(** [config.ID = id] *)
Definition withID {P : Pkg} (id : core_OperatorID P) (config : Config P) : Config P :=
  {| MetricsPort := MetricsPort config; PrivateBls := PrivateBls config; ID := id;
     DbPath := DbPath config; EthClientConfig_ := EthClientConfig_ config;
     BLSOperatorStateRetrieverAddr := BLSOperatorStateRetrieverAddr config;
     EigenDAServiceManagerAddr := EigenDAServiceManagerAddr config;
     NodeApiPort := NodeApiPort config; EncoderConfig := EncoderConfig config;
     EnableTestMode := EnableTestMode config;
     OverrideBlockStaleMeasure := OverrideBlockStaleMeasure config;
     OverrideStoreDurationBlocks := OverrideStoreDurationBlocks config |}.

(** The [Node] struct as [NewNode] fills it; [Config] is the struct that the
    pointer [config] leads to when [NewNode] returns, [CurrentSocket] has
    its zero value. *)
Record Node (P : Pkg) : Type := {
  NodeConfig : Config P;
  KeyPair : core_KeyPair P;
  Metrics : node_Metrics P;
  NodeApi : nodeapi_NodeApi P;
  Store : node_Store P;
  ChainState : core_ChainState P;
  Transactor : core_Transactor P;
  Validator : core_ChunkValidator P;
  PubIPProvider : pubip_Provider P;
  OperatorSocketsFilterer : indexer_OperatorSocketsFilterer P;
  CurrentSocket : string
}.
Arguments NodeConfig {P} _.
Arguments KeyPair {P} _.
Arguments Metrics {P} _.
Arguments NodeApi {P} _.
Arguments Store {P} _.
Arguments ChainState {P} _.
Arguments Transactor {P} _.
Arguments Validator {P} _.
Arguments PubIPProvider {P} _.
Arguments OperatorSocketsFilterer {P} _.
Arguments CurrentSocket {P} _.

(** The calls that leave the process, in the order in which they are made,
    each with what it returned. *)
Inductive call : Type :=
| CallNewClient (err : option error)
| CallNewTransactor (err : option error)
| CallRegistryCoordinator (err : option error)
| CallBuildClients (sdkConfig : SdkConfig) (err : option error)
| CallMustRegister (panicked : bool)
| CallMkdirAll (path : string) (err : option error)
| CallNewInstrumentedEthClient (err : option error)
| CallNewEncoder (err : option error)
| CallGetBlockStaleMeasure (r : Z + error)
| CallGetStoreDurationBlocks (r : Z + error)
| CallNewLevelDBStore (path : string) (blockStaleMeasure storeDurationBlocks : Z)
                      (err : option error)
| CallNewOperatorSocketsFilterer (err : option error).

(** What [NewNode] works on: the world, the [Config] struct behind the
    pointer [config], and the calls made so far. *)
Record heap (P : Pkg) : Type := {
  world : World P;
  config : Config P;
  calls : list call
}.
Arguments Build_heap {P} _ _ _.
Arguments world {P} _.
Arguments config {P} _.
Arguments calls {P} _.

(** How a function ends: it returns a value with a nil error, it returns a
    non-nil error, or it panics. *)
Inductive outcome (A : Type) : Type :=
| Returned (a : A)
| Failed (err : error)
| Panicked.
Arguments Returned {A} _.
Arguments Failed {A} _.
Arguments Panicked {A}.

Definition M (P : Pkg) (A : Type) : Type := heap P -> heap P * outcome A.

Definition ret {P : Pkg} {A : Type} (a : A) : M P A := fun h => (h, Returned a).

(** [x, err := m; if err != nil { return nil, err }] followed by [k x]. *)
Definition bind {P : Pkg} {A B : Type} (m : M P A) (k : A -> M P B) : M P B :=
  fun h =>
    match m h with
    | (h', Returned a) => k a h'
    | (h', Failed e) => (h', Failed e)
    | (h', Panicked) => (h', Panicked)
    end.

Local Notation "x <- m ;; k" := (bind m (fun x => k))
  (at level 100, m at next level, k at level 200, right associativity).
Local Notation "m ;;; k" := (bind m (fun _ => k))
  (at level 100, k at level 200, right associativity).

(** [if err != nil { return nil, fmt.Errorf("<msg>: %w", err) }] *)
Definition wrapped {P : Pkg} {A : Type} (msg : string) (m : M P A) : M P A :=
  fun h =>
    match m h with
    | (h', Failed e) => (h', Failed (ErrWrap msg e))
    | r => r
    end.

(** A call of a function that returns [(v, err)]. *)
Definition extern {P : Pkg} {A : Type} (f : World P -> World P * (A + error))
    (log : option error -> call) : M P A :=
  fun h =>
    let '(w, r) := f (world h) in
    match r with
    | inl a => ({| world := w; config := config h;
                   calls := calls h ++ [log None] |}, Returned a)
    | inr e => ({| world := w; config := config h;
                   calls := calls h ++ [log (Some e)] |}, Failed e)
    end.

(** A call of a function that returns [err] alone. *)
Definition extern_ {P : Pkg} (f : World P -> World P * option error)
    (log : option error -> call) : M P unit :=
  extern (fun w => let '(w', err) := f w in
                   (w', match err with None => inl tt | Some e => inr e end))
         log.

(** A call of a function that returns a number. *)
Definition externZ {P : Pkg} (f : World P -> World P * (Z + error))
    (log : Z + error -> call) : M P Z :=
  fun h =>
    let '(w, r) := f (world h) in
    ({| world := w; config := config h; calls := calls h ++ [log r] |},
     match r with inl z => Returned z | inr e => Failed e end).

(** [*config] *)
Definition readConfig {P : Pkg} : M P (Config P) := fun h => (h, Returned (config h)).

(** [config.ID = id] *)
Definition writeID {P : Pkg} (id : core_OperatorID P) : M P unit :=
  fun h => ({| world := world h; config := withID id (config h);
               calls := calls h |}, Returned tt).

Definition callMustRegister {P : Pkg} (clients : constructor_Clients P)
    (c : economic_Collector P) : M P unit :=
  fun h =>
    match MustRegister P (world h) clients c with
    | Some w => ({| world := w; config := config h;
                    calls := calls h ++ [CallMustRegister false] |}, Returned tt)
    | None => ({| world := world h; config := config h;
                  calls := calls h ++ [CallMustRegister true] |}, Panicked)
    end.

(** A function that returns [(v, err)] without leaving the process. *)
Definition pure {P : Pkg} {A : Type} (r : A + error) : M P A :=
  fun h => (h, match r with inl a => Returned a | inr e => Failed e end).

(** [uint32(x)] for an integer [x]. *)
Definition uint32 (x : Z) : Z := (x mod 2 ^ 32)%Z.

(** [buildSdkClients] *)
Definition buildSdkClients {P : Pkg} : M P (constructor_Clients P) :=
  config <- readConfig ;;
  client <- wrapped "cannot create chain.Client"
              (extern (fun w => geth_NewClient P w (EthClientConfig_ config))
                      CallNewClient) ;;
  tx <- extern (fun w => eth_NewTransactor P w client
                           (BLSOperatorStateRetrieverAddr config)
                           (EigenDAServiceManagerAddr config))
               CallNewTransactor ;;
  registryCoordinatorAddr <-
    extern (fun w => RegistryCoordinator P w tx) CallRegistryCoordinator ;;
  let sdkConfig :=
    {| EcdsaPrivateKeyString := PrivateKeyString (EthClientConfig_ config);
       EthHttpUrl := RPCURL (EthClientConfig_ config);
       EthWsUrl := RPCURL (EthClientConfig_ config);
       BlsRegistryCoordinatorAddr := Hex P registryCoordinatorAddr;
       BlsOperatorStateRetrieverAddr := BLSOperatorStateRetrieverAddr config;
       AvsName := AppName P;
       PromMetricsIpPortAddress := ":" +:+ MetricsPort config |} in
  sdkClients <- extern (fun w => constructor_BuildClients P w sdkConfig)
                       (CallBuildClients sdkConfig) ;;
  let economicMetricsCollector := economic_NewCollector P sdkClients client in
  callMustRegister sdkClients economicMetricsCollector ;;;
  ret sdkClients.

(** [NewNode] *)
Definition NewNode {P : Pkg} (pubIPProvider : pubip_Provider P) : M P (Node P) :=
  sdkClients <- buildSdkClients ;;
  config <- readConfig ;;
  let metrics := NewMetrics P sdkClients (":" +:+ MetricsPort config) in
  let rpcCallsCollector := rpccalls_NewCollector P sdkClients in
  keyPair <- pure (core_MakeKeyPairFromString P (PrivateBls config)) ;;
  writeID (GetOperatorID P keyPair) ;;;
  config <- readConfig ;;
  wrapped ("could not create db directory at " +:+ DbPath config)
    (extern_ (fun w => os_MkdirAll P w (DbPath config))
             (CallMkdirAll (DbPath config))) ;;;
  client <- wrapped "cannot create chain.Client"
              (extern (fun w => geth_NewInstrumentedEthClient P w
                                  (EthClientConfig_ config) rpcCallsCollector)
                      CallNewInstrumentedEthClient) ;;
  tx <- extern (fun w => eth_NewTransactor P w client
                           (BLSOperatorStateRetrieverAddr config)
                           (EigenDAServiceManagerAddr config))
               CallNewTransactor ;;
  let cst := eth_NewChainState P tx client in
  let nodeApi := nodeapi_NewNodeApi P ("localhost:" +:+ NodeApiPort config) in
  enc <- extern (fun w => encoding_NewEncoder P w (EncoderConfig config))
                CallNewEncoder ;;
  let validator := core_NewChunkValidator P enc cst (ID config) in
  blockStaleMeasure <-
    (if EnableTestMode config && (0 <? OverrideBlockStaleMeasure config)%Z
     then ret (uint32 (OverrideBlockStaleMeasure config))
     else wrapped "failed to get BLOCK_STALE_MEASURE"
            (externZ (fun w => GetBlockStaleMeasure P w tx)
                     CallGetBlockStaleMeasure)) ;;
  storeDurationBlocks <-
    (if EnableTestMode config && (0 <? OverrideStoreDurationBlocks config)%Z
     then ret (uint32 (OverrideStoreDurationBlocks config))
     else wrapped "failed to get STORE_DURATION_BLOCKS"
            (externZ (fun w => GetStoreDurationBlocks P w tx)
                     CallGetStoreDurationBlocks)) ;;
  store <- wrapped "failed to create new store"
             (extern (fun w => NewLevelDBStore P w (DbPath config +:+ "/chunk")
                                 metrics blockStaleMeasure storeDurationBlocks)
                     (CallNewLevelDBStore (DbPath config +:+ "/chunk")
                        blockStaleMeasure storeDurationBlocks)) ;;
  let eigenDAServiceManagerAddr :=
    gethcommon_HexToAddress P (EigenDAServiceManagerAddr config) in
  socketsFilterer <-
    wrapped "failed to create new operator sockets filterer"
      (extern (fun w => indexer_NewOperatorSocketsFilterer P w
                          eigenDAServiceManagerAddr client)
              CallNewOperatorSocketsFilterer) ;;
  config <- readConfig ;;
  ret {| NodeConfig := config; KeyPair := keyPair; Metrics := metrics;
         NodeApi := nodeApi; Store := store; ChainState := cst;
         Transactor := tx; Validator := validator;
         PubIPProvider := pubIPProvider;
         OperatorSocketsFilterer := socketsFilterer; CurrentSocket := "" |}.

(** *** Notions *)

Definition is_stale_read (c : call) : bool :=
  match c with CallGetBlockStaleMeasure _ => true | _ => false end.

Definition is_duration_read (c : call) : bool :=
  match c with CallGetStoreDurationBlocks _ => true | _ => false end.

(** How [NewNode] settles one of the two retention parameters: the override
    reduced to a [uint32] in test mode when it is positive, without a read
    of the chain, and the value read from the chain otherwise. *)
Definition settled_by {P : Pkg} (cfg : Config P) (override : Z)
    (is_read : call -> bool) (read : Z + error -> call) (cs : list call)
    (v : Z) : Prop :=
  if EnableTestMode cfg && (0 <? override)%Z
  then v = (override mod 2 ^ 32)%Z /\ forallb (fun c => negb (is_read c)) cs = true
  else read (inl v) ∈ cs.

Definition is_mkdir (c : call) : bool :=
  match c with CallMkdirAll _ _ => true | _ => false end.

Definition is_register (c : call) : bool :=
  match c with CallMustRegister _ => true | _ => false end.

(** The error that a call returned, if it returned one. *)
Definition failure_of (c : call) : option error :=
  match c with
  | CallNewClient err | CallNewTransactor err | CallRegistryCoordinator err
  | CallBuildClients _ err | CallMkdirAll _ err | CallNewInstrumentedEthClient err
  | CallNewEncoder err | CallNewLevelDBStore _ _ _ err
  | CallNewOperatorSocketsFilterer err => err
  | CallGetBlockStaleMeasure r | CallGetStoreDurationBlocks r =>
      match r with inl _ => None | inr e => Some e end
  | CallMustRegister _ => None
  end.

(** [e] is the error of the call [c], as it is or wrapped once. *)
Definition caused_by (e : error) (c : call) : Prop :=
  exists e0, failure_of c = Some e0 /\ (e = e0 \/ exists msg, e = ErrWrap msg e0).

(** *** A world for examples

    The world counts the calls that reach the chain; the chain reports a
    stale measure of 300 blocks and a store duration of 7200 blocks. *)
Definition testPkg : Pkg :=
  {| World := nat;
     core_OperatorID := string; core_KeyPair := string; common_EthClient := unit;
     core_Transactor := unit; gethcommon_Address := string;
     constructor_Clients := unit; economic_Collector := unit;
     rpccalls_Collector := unit; node_Metrics := unit; core_ChainState := unit;
     nodeapi_NodeApi := string; encoding_EncoderConfig := unit;
     encoding_Encoder := unit; core_ChunkValidator := string;
     node_Store := Z * Z; indexer_OperatorSocketsFilterer := unit;
     pubip_Provider := unit;
     AppName := "da-node"; SemVer := "0.0.0";
     geth_NewClient := fun w _ => (w, inl tt);
     eth_NewTransactor := fun w _ _ _ => (w, inl tt);
     RegistryCoordinator := fun w _ => (S w, inl "0xc0");
     Hex := fun a => a;
     constructor_BuildClients := fun w _ => (w, inl tt);
     economic_NewCollector := fun _ _ => tt;
     MustRegister := fun w _ _ => Some w;
     NewMetrics := fun _ _ => tt;
     rpccalls_NewCollector := fun _ => tt;
     core_MakeKeyPairFromString := fun s =>
       if String.eqb s "" then inr (ErrOpaque "empty key") else inl s;
     GetOperatorID := fun kp => "id-of-" +:+ kp;
     os_MkdirAll := fun w _ => (w, None);
     geth_NewInstrumentedEthClient := fun w _ _ => (w, inl tt);
     eth_NewChainState := fun _ _ => tt;
     nodeapi_NewNodeApi := fun addr => addr;
     encoding_NewEncoder := fun w _ => (w, inl tt);
     core_NewChunkValidator := fun _ _ id => id;
     GetBlockStaleMeasure := fun w _ => (S w, inl 300%Z);
     GetStoreDurationBlocks := fun w _ => (S w, inl 7200%Z);
     NewLevelDBStore := fun w path _ stale dur =>
       if String.eqb path "/chunk" then (w, inr (ErrOpaque "no path"))
       else (w, inl (stale, dur));
     gethcommon_HexToAddress := fun s => s;
     indexer_NewOperatorSocketsFilterer := fun w _ _ => (w, inl tt) |}.

Definition testConfig (testMode : bool) (staleOverride durationOverride : Z) :
    Config testPkg :=
  @Build_Config testPkg
    "9100" "bls-key" "unset" "/data"
    {| RPCURL := "http://rpc"; PrivateKeyString := "ecdsa-key" |}
    "0xaa" "0xbb" "9091" tt testMode staleOverride durationOverride.

Definition start (cfg : Config testPkg) : heap testPkg :=
  @Build_heap testPkg 0 cfg [].

End Setup.

(** * Properties *)

(** ** The result channel never blocks a job, and the collector returns *)
Module FanoutFacts.
Import Fanout.

Lemma inv_init w results : inv results (init w results).
Proof.
  split; simpl; try done.
  unfold collector_ok; simpl. constructor.
Qed.

Lemma inv_lengths results st :
  inv results st ->
  length (got st) + length (buf st) + length (pending st)
  + length (unsubmitted st) = total st.
Proof.
  intros [_ Ht Ha _]. apply Permutation_length in Ha.
  unfold arrival in Ha. rewrite !length_app in Ha. lia.
Qed.

Lemma inv_step results a st st' :
  inv results st -> step a st = Some st' -> inv results st'.
Proof.
  intros Hinv Hstep. pose proof (inv_lengths _ _ Hinv) as Hlen.
  destruct Hinv as [Hc Ht Ha Hk]. unfold arrival in Ha. unfold collector_ok in Hk.
  destruct a as [|j]; simpl in Hstep.
  - destruct (ret st) as [r|] eqn:Hret; [done|].
    destruct (unsubmitted st) as [|r us] eqn:Hus.
    + destruct (length (got st) <? total st) eqn:Hlt.
      * destruct (buf st) as [|r b] eqn:Hbuf; [done|].
        injection Hstep as <-. split; simpl; [done|done| |].
        -- unfold arrival; simpl. rewrite <- Ha, <- !app_assoc. done.
        -- unfold collector_ok; simpl. destruct r as [e|].
           ++ exists (got st). done.
           ++ apply Forall_app. split; [done|]. by constructor.
      * injection Hstep as <-. split; simpl; [done|done| |].
        -- unfold arrival; simpl. done.
        -- unfold collector_ok; simpl. split; [done|].
           apply Nat.ltb_ge in Hlt. simpl in Hlen. lia.
    + injection Hstep as <-. split; simpl; [done|done| |].
      * unfold arrival; simpl. rewrite <- Ha, <- !app_assoc. done.
      * unfold collector_ok; simpl. done.
  - destruct (running st j); [|done].
    destruct (pending st !! j) as [r|] eqn:Hj; [|done].
    destruct (length (buf st) <? cap st); [|done].
    injection Hstep as <-. split; simpl; [done|done| |].
    + unfold arrival; simpl. rewrite <- Ha.
      apply Permutation_app_head. rewrite <- app_assoc.
      apply Permutation_app_head. simpl.
      apply (Permutation_app_tail (unsubmitted st) (l := r :: delete j (pending st))).
      symmetry. by apply delete_Permutation.
    + unfold collector_ok; simpl. done.
Qed.

Lemma inv_run results sched : forall st st',
  inv results st -> run sched st = Some st' -> inv results st'.
Proof.
  induction sched as [|a sched IH]; simpl; intros st st' Hinv Hrun.
  - by injection Hrun as <-.
  - destruct (step a st) as [st1|] eqn:Hstep; [|done].
    eapply IH; [|done]. eapply inv_step; done.
Qed.

(** A job that is running can always send: [out] is not full. *)
Lemma report_enabled results st j :
  inv results st -> running st j = true -> is_Some (step (Report j) st).
Proof.
  intros Hinv Hrun. pose proof (inv_lengths _ _ Hinv) as Hlen.
  destruct Hinv as [Hc Ht _ _]. simpl. rewrite Hrun.
  unfold running in Hrun. apply andb_true_iff in Hrun as [_ Hj].
  apply Nat.ltb_lt in Hj.
  destruct (lookup_lt_is_Some_2 (pending st) j Hj) as [r ->].
  assert ((length (buf st) <? cap st) = true) as ->; [|done].
  apply Nat.ltb_lt. lia.
Qed.

Lemma collect_None out : collect out = None <-> Forall (eq None) out.
Proof.
  induction out as [|[e|] out IH]; simpl.
  - split; [constructor|done].
  - split; [done|]. intros H. by inversion H.
  - rewrite IH. split; [by constructor|]. intros H. by inversion H.
Qed.

Lemma collect_nones g out : Forall (eq None) g -> collect (g ++ out) = collect out.
Proof.
  induction 1 as [|x g <- _ IH]; simpl; done.
Qed.

(** What [ValidateBatch] returns is what the receive loop finds in the order
    of arrival. *)
Lemma returned_collect results st r :
  inv results st -> ret st = Some r -> r = collect (arrival st).
Proof.
  intros Hinv Hret. pose proof (inv_lengths _ _ Hinv) as Hlen.
  destruct Hinv as [_ _ _ Hk]. unfold collector_ok in Hk. rewrite Hret in Hk.
  unfold arrival. destruct r as [e|].
  - destruct Hk as (g & -> & Hg). rewrite <- app_assoc.
    by rewrite collect_nones.
  - destruct Hk as [Hg Hn]. symmetry. apply collect_None.
    assert ((length (buf st) = 0) /\ (length (pending st) = 0)
            /\ (length (unsubmitted st) = 0)) as (Hb & Hp & Hu) by lia.
    apply nil_length_inv in Hb, Hp, Hu. rewrite Hb, Hp, Hu, !app_nil_r. done.
Qed.

Lemma returned_nil_iff results st r :
  inv results st -> ret st = Some r ->
  (r = None <-> Forall (eq None) results).
Proof.
  intros Hinv Hret. rewrite (returned_collect _ _ _ Hinv Hret), collect_None.
  by rewrite (inv_arrival _ _ Hinv).
Qed.

(** Until [ValidateBatch] has returned, some goroutine can take a step. *)
Lemma progress results st :
  inv results st -> ret st = None -> exists a, is_Some (step a st).
Proof.
  intros Hinv Hret. pose proof (inv_lengths _ _ Hinv) as Hlen.
  destruct (unsubmitted st) as [|r us] eqn:Hus.
  - destruct (length (got st) <? total st) eqn:Hlt.
    + destruct (buf st) as [|r b] eqn:Hbuf.
      * exists (Report 0). eapply report_enabled; [done|].
        apply Nat.ltb_lt in Hlt. simpl in Hlen.
        unfold running. apply andb_true_iff. split; apply Nat.ltb_lt; lia.
      * exists Main. simpl. rewrite Hret, Hus, Hlt, Hbuf. done.
    + exists Main. simpl. rewrite Hret, Hus, Hlt. done.
  - exists Main. simpl. rewrite Hret, Hus. done.
Qed.

Lemma step_measure a st st' : step a st = Some st' -> measure st' < measure st.
Proof.
  unfold measure. destruct a as [|j]; simpl; intros Hstep.
  - destruct (ret st) as [r|] eqn:Hret; [done|].
    destruct (unsubmitted st) as [|r us] eqn:Hus.
    + destruct (length (got st) <? total st) eqn:Hlt.
      * destruct (buf st) as [|r b] eqn:Hbuf; [done|].
        injection Hstep as <-. simpl. destruct r; lia.
      * injection Hstep as <-. simpl. lia.
    + injection Hstep as <-. simpl. rewrite length_app. simpl. lia.
  - destruct (running st j); [|done].
    destruct (pending st !! j) as [r|] eqn:Hj; [|done].
    destruct (length (buf st) <? cap st); [|done].
    injection Hstep as <-. simpl. rewrite length_app. simpl.
    pose proof (length_delete (pending st) j (mk_is_Some _ _ Hj)).
    apply lookup_lt_Some in Hj. lia.
Qed.

(** No schedule is longer than three steps per blob and one more. *)
Lemma run_bounded sched : forall st st',
  run sched st = Some st' -> length sched + measure st' <= measure st.
Proof.
  induction sched as [|a sched IH]; simpl; intros st st' Hrun.
  - injection Hrun as <-. lia.
  - destruct (step a st) as [st1|] eqn:Hstep; [|done].
    apply IH in Hrun. apply step_measure in Hstep. lia.
Qed.

Lemma submitted_first_step a st st' :
  submitted_first st -> step a st = Some st' -> submitted_first st'.
Proof.
  unfold submitted_first. intros H Hstep. destruct a as [|j]; simpl in Hstep.
  - destruct (ret st) as [r|] eqn:Hret; [done|].
    destruct (unsubmitted st) as [|r us] eqn:Hus.
    + destruct (length (got st) <? total st).
      * destruct (buf st) as [|r b]; [done|]. injection Hstep as <-. by left.
      * injection Hstep as <-. by left.
    + injection Hstep as <-. simpl. destruct H as [|[Hg _]]; [done|]. by right.
  - destruct (running st j); [|done].
    destruct (pending st !! j) as [r|]; [|done].
    destruct (length (buf st) <? cap st); [|done].
    by injection Hstep as <-.
Qed.

Lemma submitted_first_run sched : forall st st',
  submitted_first st -> run sched st = Some st' -> submitted_first st'.
Proof.
  induction sched as [|a sched IH]; simpl; intros st st' H Hrun.
  - by injection Hrun as <-.
  - destruct (step a st) as [st1|] eqn:Hstep; [|done].
    eapply IH; [|done]. eapply submitted_first_step; done.
Qed.

Lemma run_app s1 : forall s2 st st1,
  run s1 st = Some st1 -> run (s1 ++ s2) st = run s2 st1.
Proof.
  induction s1 as [|a s1 IH]; simpl; intros s2 st st1 H.
  - by injection H as <-.
  - destruct (step a st) as [st'|]; [|done]. by apply IH.
Qed.

Lemma drain results k : forall st,
  measure st <= k -> inv results st -> submitted_first st ->
  exists acts st', run acts st = Some st' /\ settled st'.
Proof.
  induction k as [|k IH]; intros st Hk Hinv Hsub.
  - exists [], st. split; [done|]. unfold measure in Hk.
    destruct (ret st) eqn:Hret; [|lia].
    assert (length (pending st) = 0 /\ length (unsubmitted st) = 0) as [Hp Hu]
      by lia.
    apply nil_length_inv in Hp, Hu. unfold settled. by rewrite Hret.
  - assert ((exists a st1, step a st = Some st1) \/ settled st) as [(a & st1 & Hstep)|Hs].
    { destruct (ret st) as [r|] eqn:Hret.
      - destruct (pending st) as [|p ps] eqn:Hp.
        + right. unfold settled. rewrite Hret, Hp. split; [done|]. split; [done|].
          destruct Hsub as [|[_ H]]; [done|congruence].
        + left. destruct (report_enabled results st 0 Hinv) as [st1 H1].
          { unfold running. rewrite Hp. simpl.
            apply andb_true_iff. split; [|done]. apply Nat.ltb_lt. lia. }
          by exists (Report 0), st1.
      - left. destruct (progress results st Hinv Hret) as [a [st1 H1]].
        by exists a, st1. }
    + pose proof (step_measure _ _ _ Hstep) as Hm.
      destruct (IH st1) as (acts & st' & Hrun & Hset).
      * lia.
      * by eapply inv_step.
      * by eapply submitted_first_step.
      * exists (a :: acts), st'. simpl. by rewrite Hstep.
    + by exists [], st.
Qed.

(** X7.  Whatever the interleaving so far, the fan-out can run on to a state in
    which [ValidateBatch] has returned and every job has sent its result:
    no job stays blocked on [out], also after an early return, and the
    results not received are left in the buffer of [out]. *)
Theorem no_job_stays_blocked w results acts st :
  run acts (init w results) = Some st ->
  exists acts' st',
    run (acts ++ acts') (init w results) = Some st'
    /\ settled st'
    /\ got st' ++ buf st' ≡ₚ results.
Proof.
  intros Hrun.
  pose proof (inv_run _ _ _ _ (inv_init w results) Hrun) as Hinv.
  assert (submitted_first st) as Hsub.
  { eapply submitted_first_run; [|done]. right. done. }
  destruct (drain results (measure st) st (le_n _) Hinv Hsub)
    as (acts' & st' & Hrun' & Hset).
  exists acts', st'. split; [by rewrite (run_app _ _ _ _ Hrun)|].
  split; [done|].
  assert (inv results st') as Hinv' by (by eapply inv_run).
  destruct Hset as (_ & Hp & Hu).
  rewrite <- (inv_arrival _ _ Hinv'). unfold arrival.
  by rewrite Hp, Hu, !app_nil_r.
Qed.

Lemma in_order_step a st st' :
  workers st <= 1 -> step a st = Some st' ->
  workers st' <= 1 /\ arrival st' = arrival st.
Proof.
  unfold arrival. intros Hw Hstep. destruct a as [|j]; simpl in Hstep.
  - destruct (ret st) as [r|] eqn:Hret; [done|].
    destruct (unsubmitted st) as [|r us] eqn:Hus.
    + destruct (length (got st) <? total st).
      * destruct (buf st) as [|r b]; [done|]. injection Hstep as <-. simpl.
        split; [done|]. by rewrite <- !app_assoc.
      * by injection Hstep as <-.
    + injection Hstep as <-. simpl. split; [done|]. by rewrite <- !app_assoc.
  - destruct (running st j) eqn:Hrun; [|done].
    destruct (pending st !! j) as [r|] eqn:Hj; [|done].
    destruct (length (buf st) <? cap st); [|done].
    injection Hstep as <-. simpl. split; [done|].
    unfold running in Hrun. apply andb_true_iff in Hrun as [Hj0 _].
    apply Nat.ltb_lt in Hj0. assert (j = 0) as -> by lia.
    destruct (pending st) as [|p ps]; [done|]. injection Hj as ->.
    simpl. by rewrite <- !app_assoc.
Qed.

Lemma in_order_run sched : forall st st',
  workers st <= 1 -> run sched st = Some st' -> arrival st' = arrival st.
Proof.
  induction sched as [|a sched IH]; simpl; intros st st' Hw Hrun.
  - by injection Hrun as <-.
  - destruct (step a st) as [st1|] eqn:Hstep; [|done].
    destruct (in_order_step _ _ _ Hw Hstep) as [Hw1 <-]. by apply IH.
Qed.

(** X7, witness: the collector has returned the error of the second of
    three jobs while the two others are still running. *)
Lemma no_job_stays_blocked_witness :
  exists acts' st',
    run ([Main; Main; Main; Report 1; Main] ++ acts')
        (init 2 [None; Some ErrDeadlineExceeded; None]) = Some st'
    /\ settled st'
    /\ got st' ++ buf st' ≡ₚ [None; Some ErrDeadlineExceeded; None].
Proof.
  eapply (no_job_stays_blocked 2 [None; Some ErrDeadlineExceeded; None]
            [Main; Main; Main; Report 1; Main]).
  vm_compute. reflexivity.
Defined.

End FanoutFacts.

(** ** Schedules and the receive loop *)

Lemma insert_at_perm {A : Type} (k : nat) (x : A) (l : list A) :
  insert_at k x l ≡ₚ x :: l.
Proof.
  revert k. induction l as [|y l IH]; intros [|k]; simpl; try done.
  rewrite IH. apply perm_swap.
Qed.

Lemma arrival_order_perm {A : Type} (sched : list nat) (jobs : list A) :
  arrival_order sched jobs ≡ₚ jobs.
Proof.
  revert sched. induction jobs as [|j js IH]; intros sched; simpl; [done|].
  rewrite insert_at_perm. by rewrite IH.
Qed.

Lemma insert_at_middle {A : Type} (x : A) (l1 l2 : list A) :
  insert_at (length l1) x (l1 ++ l2) = l1 ++ x :: l2.
Proof.
  induction l1 as [|y l1 IH]; simpl.
  - by destruct l2.
  - by rewrite IH.
Qed.

Lemma arrival_order_complete {A : Type} (jobs l : list A) :
  l ≡ₚ jobs -> exists sched, arrival_order sched jobs = l.
Proof.
  revert l. induction jobs as [|j js IH]; intros l Hl.
  - apply Permutation_nil_r in Hl as ->. by exists [].
  - assert (j ∈ l) as Hj by (rewrite Hl; left).
    apply list_elem_of_split in Hj as (l1 & l2 & ->).
    symmetry in Hl. apply Permutation_cons_app_inv in Hl.
    symmetry in Hl. destruct (IH _ Hl) as [sched Hs].
    exists (length l1 :: sched). simpl. rewrite Hs. apply insert_at_middle.
Qed.

Lemma collected_le out : Fanout.collected out <= length out.
Proof. induction out as [|[e|] out IH]; simpl; lia. Qed.

(** The results received before the receive loop returns an error are all
    nil, and the error is the last one received. *)
Lemma collect_Some out e :
  Fanout.collect out = Some e ->
  exists k, take (Fanout.collected out) out = replicate k None ++ [Some e].
Proof.
  induction out as [|[e'|] out IH]; simpl; intros H; [done| |].
  - injection H as ->. by exists 0.
  - destruct (IH H) as [k Hk]. exists (S k). simpl. by rewrite Hk.
Qed.

Lemma collect_all out :
  Fanout.collect out = None -> Fanout.collected out = length out.
Proof.
  induction out as [|[e'|] out IH]; simpl; intros H; [done|done|].
  by rewrite IH.
Qed.

(** ** The batch pipeline *)
Module BatchFacts.
Import Batch.

Lemma forEach_emit {T : Core} {A : Type} (l : list A) (f : A -> event T) (db : DB T) :
  forEach l (fun a => emit (f a)) db = (tt, db, map f l).
Proof.
  induction l as [|a l IH]; simpl; [done|].
  unfold bind. simpl. by rewrite IH.
Qed.

Lemma receiveLoop_eq {T : Core} (out : list (option error)) (db : DB T) :
  receiveLoop out db
  = (Fanout.collect out, db, map EvReceive (take (Fanout.collected out) out)).
Proof.
  induction out as [|[e|] out IH]; simpl; try done.
  unfold bind. simpl. by rewrite IH.
Qed.

Lemma validateBlob_eq {T : Core} (n : Node T) blob os :
  validateBlob n blob os = ValidateBlob n blob os.
Proof. unfold validateBlob. by destruct (ValidateBlob n blob os). Qed.

(** The results of the jobs in the order of arrival that [sched] fixes. *)
Lemma ValidateBatch_fetched {T : Core} (n : Node T) header blobs sched db os :
  fetched n header os ->
  ValidateBatch n header blobs sched db
  = (Fanout.collect (map (fun blob => validateBlob n blob os) (arrival_order sched blobs)),
     db,
     EvGetOperatorState (ReferenceBlockNumber T header)
     :: map EvSubmit blobs
     ++ map (fun blob => EvValidateBlob blob (validateBlob n blob os))
            (arrival_order sched blobs)
     ++ map EvReceive
          (take (Fanout.collected
                   (map (fun blob => validateBlob n blob os) (arrival_order sched blobs)))
                (map (fun blob => validateBlob n blob os) (arrival_order sched blobs)))).
Proof.
  unfold fetched, ValidateBatch. intros ->. unfold bind at 1. simpl.
  unfold bind at 1. rewrite forEach_emit.
  unfold bind at 1. rewrite forEach_emit.
  by rewrite receiveLoop_eq.
Qed.

Lemma ValidateBatch_not_fetched {T : Core} (n : Node T) header blobs sched db e :
  GetOperatorStateByOperator n (ReferenceBlockNumber T header) (ID n) = inr e ->
  ValidateBatch n header blobs sched db
  = (Some e, db, [EvGetOperatorState (ReferenceBlockNumber T header)]).
Proof. unfold ValidateBatch. intros ->. done. Qed.

Lemma ValidateBatch_db {T : Core} (n : Node T) header blobs sched db :
  db_of (ValidateBatch n header blobs sched db) = db.
Proof.
  destruct (GetOperatorStateByOperator n (ReferenceBlockNumber T header) (ID n))
    as [os|e] eqn:H.
  - by rewrite (ValidateBatch_fetched _ _ _ _ _ os H).
  - by rewrite (ValidateBatch_not_fetched _ _ _ _ _ e H).
Qed.

Lemma ValidateBatch_pure {T : Core} (n : Node T) header blobs sched db db' :
  result_of (ValidateBatch n header blobs sched db)
  = result_of (ValidateBatch n header blobs sched db')
  /\ trace_of (ValidateBatch n header blobs sched db)
  = trace_of (ValidateBatch n header blobs sched db').
Proof.
  destruct (GetOperatorStateByOperator n (ReferenceBlockNumber T header) (ID n))
    as [os|e] eqn:H.
  - by rewrite !(ValidateBatch_fetched _ _ _ _ _ os H).
  - by rewrite !(ValidateBatch_not_fetched _ _ _ _ _ e H).
Qed.

Lemma passes_fetched {T : Core} (n : Node T) header blobs os :
  fetched n header os ->
  (every_blob_passes n header blobs
   <-> Forall (fun blob => ValidateBlob n blob os = None) blobs).
Proof.
  intros Hos. rewrite Forall_forall. unfold every_blob_passes. split.
  - intros H blob Hb. destruct (H blob Hb) as (os' & Hos' & Hv).
    unfold fetched in *. congruence.
  - intros H blob Hb. exists os. auto.
Qed.

Lemma ValidateBatch_nil_iff {T : Core} (n : Node T) header blobs sched db :
  result_of (ValidateBatch n header blobs sched db) = None
  <-> (exists os, fetched n header os) /\ every_blob_passes n header blobs.
Proof.
  destruct (GetOperatorStateByOperator n (ReferenceBlockNumber T header) (ID n))
    as [os|e] eqn:H.
  - rewrite (ValidateBatch_fetched _ _ _ _ _ os H). unfold result_of; simpl.
    rewrite FanoutFacts.collect_None, (passes_fetched _ _ _ _ H).
    rewrite Forall_map, (arrival_order_perm sched blobs).
    split.
    + intros Hall. split; [by exists os|].
      eapply Forall_impl; [exact Hall|]. simpl. intros blob Hb.
      by rewrite <- validateBlob_eq.
    + intros [_ Hall]. eapply Forall_impl; [exact Hall|]. simpl. intros blob Hb.
      by rewrite validateBlob_eq.
  - rewrite (ValidateBatch_not_fetched _ _ _ _ _ e H). unfold result_of; simpl.
    split; [done|]. intros [[os Hos] _]. unfold fetched in Hos. congruence.
Qed.

Lemma storeGoroutine_eq {T : Core} (n : Node T) header blobs rawBlobs size db :
  storeGoroutine n header blobs rawBlobs size db
  = (sent_on_storeChan (fst (snd (StoreBatch n db header blobs rawBlobs)))
                       (snd (snd (StoreBatch n db header blobs rawBlobs))),
     fst (StoreBatch n db header blobs rawBlobs),
     storing_events (fst (snd (StoreBatch n db header blobs rawBlobs)))
                    (snd (snd (StoreBatch n db header blobs rawBlobs))) size).
Proof.
  unfold storeGoroutine, callStoreBatch, bind, sent_on_storeChan, storing_events.
  destruct (StoreBatch n db header blobs rawBlobs) as [db1 [ks [e|]]]; simpl.
  - by destruct (decide (e = ErrBatchAlreadyExist)).
  - done.
Qed.

Lemma ProcessBatch_bad_header {T : Core} (n : Node T) header blobs rawBlobs sched db e :
  GetBatchHeaderHash T header = inr e ->
  ProcessBatch n header blobs rawBlobs sched db
  = ((None, Some e), db, [EvAcceptBatches "received" (batchSize blobs)]).
Proof. unfold ProcessBatch. intros ->. done. Qed.

Ltac pb_start Hh Hs :=
  unfold ProcessBatch; rewrite Hh; unfold bind at 1; simpl;
  unfold bind at 1; rewrite storeGoroutine_eq, Hs; simpl;
  unfold bind at 1.

Lemma ProcessBatch_invalid {T : Core} (n : Node T) header blobs rawBlobs sched db
    h db1 ks se e :
  GetBatchHeaderHash T header = inl h ->
  StoreBatch n db header blobs rawBlobs = (db1, (ks, se)) ->
  result_of (ValidateBatch n header blobs sched db1) = Some e ->
  ProcessBatch n header blobs rawBlobs sched db
  = match keys (sent_on_storeChan ks se) with
    | Some ks' =>
        ((None, Some (ErrWrap "failed to validate batch" e)),
         fst (DeleteKeys n db1 ks'),
         EvAcceptBatches "received" (batchSize blobs)
         :: storing_events ks se (batchSize blobs)
         ++ trace_of (ValidateBatch n header blobs sched db1)
         ++ EvDeleteKeys ks' (snd (DeleteKeys n db1 ks'))
         :: (if snd (DeleteKeys n db1 ks') then [] else [rollback_failed]))
    | None =>
        ((None, Some (ErrWrap "failed to validate batch" e)), db1,
         EvAcceptBatches "received" (batchSize blobs)
         :: storing_events ks se (batchSize blobs)
         ++ trace_of (ValidateBatch n header blobs sched db1))
    end.
Proof.
  intros Hh Hs Hv. pose proof (ValidateBatch_db n header blobs sched db1) as Hdb.
  pb_start Hh Hs.
  destruct (ValidateBatch n header blobs sched db1) as [[rv dbv] tv].
  unfold result_of, db_of, trace_of in *; simpl in *. subst rv dbv.
  destruct (keys (sent_on_storeChan ks se)) as [ks'|]; simpl.
  - unfold bind, callDeleteKeys. 
    destruct (DeleteKeys n db1 ks') as [db2 [|]]; simpl;
      by rewrite ?app_nil_r.
  - unfold bind. simpl. by rewrite ?app_nil_r.
Qed.

Lemma ProcessBatch_valid {T : Core} (n : Node T) header blobs rawBlobs sched db
    h db1 ks se :
  GetBatchHeaderHash T header = inl h ->
  StoreBatch n db header blobs rawBlobs = (db1, (ks, se)) ->
  result_of (ValidateBatch n header blobs sched db1) = None ->
  ProcessBatch n header blobs rawBlobs sched db
  = match err (sent_on_storeChan ks se) with
    | Some _ =>
        ((None, None), db1,
         EvAcceptBatches "received" (batchSize blobs)
         :: storing_events ks se (batchSize blobs)
         ++ trace_of (ValidateBatch n header blobs sched db1)
         ++ validated_events (batchSize blobs))
    | None =>
        ((Some (SignMessage n h), None), db1,
         EvAcceptBatches "received" (batchSize blobs)
         :: storing_events ks se (batchSize blobs)
         ++ trace_of (ValidateBatch n header blobs sched db1)
         ++ validated_events (batchSize blobs)
         ++ signing_events h (batchSize blobs))
    end.
Proof.
  intros Hh Hs Hv. pose proof (ValidateBatch_db n header blobs sched db1) as Hdb.
  pb_start Hh Hs.
  destruct (ValidateBatch n header blobs sched db1) as [[rv dbv] tv].
  unfold result_of, db_of, trace_of in *; simpl in *. subst rv dbv.
  destruct (err (sent_on_storeChan ks se)) as [e'|]; simpl; done.
Qed.

Lemma ValidateBatch_events {T : Core} (n : Node T) header blobs sched db :
  Forall (fun e => validation_event e = true)
         (trace_of (ValidateBatch n header blobs sched db)).
Proof.
  destruct (GetOperatorStateByOperator n (ReferenceBlockNumber T header) (ID n))
    as [os|e] eqn:H.
  - rewrite (ValidateBatch_fetched _ _ _ _ _ os H). unfold trace_of; simpl.
    constructor; [done|]. rewrite !Forall_app, !Forall_map.
    repeat split; by apply Forall_true.
  - rewrite (ValidateBatch_not_fetched _ _ _ _ _ e H). unfold trace_of; simpl.
    by repeat constructor.
Qed.

Lemma validation_event_in {T : Core} (n : Node T) header blobs sched db e :
  e ∈ trace_of (ValidateBatch n header blobs sched db) -> validation_event e = true.
Proof.
  intros H. pose proof (ValidateBatch_events n header blobs sched db) as Hall.
  rewrite Forall_forall in Hall. by apply Hall.
Qed.

(** Splits a membership in a trace into its cases and closes those in which
    the constructors differ or the event is not one of [ValidateBatch]. *)
Ltac in_trace H :=
  unfold trace_of, storing_events, validated_events, signing_events,
    rollback_failed in H; simpl in H;
  repeat first
    [ apply elem_of_cons in H as [H|H]
    | apply elem_of_app in H as [H|H]
    | apply elem_of_nil in H; destruct H
    | discriminate H
    | (apply validation_event_in in H; discriminate H)
    | match type of H with
      | context [if ?b then _ else _] => destruct b
      end ].

(** The only call to the store in a trace of [ProcessBatch] is the one of the
    storing goroutine, and it is there whenever the header has a hash. *)
Lemma store_event_iff {T : Core} (n : Node T) header blobs rawBlobs sched db ks se :
  EvStoreBatch ks se ∈ trace_of (ProcessBatch n header blobs rawBlobs sched db)
  <-> (exists h, GetBatchHeaderHash T header = inl h)
      /\ snd (StoreBatch n db header blobs rawBlobs) = (ks, se).
Proof.
  destruct (GetBatchHeaderHash T header) as [h|e] eqn:Hh.
  - destruct (StoreBatch n db header blobs rawBlobs) as [db1 [ks1 se1]] eqn:Hs.
    assert (forall rest,
      EvStoreBatch ks1 se1
      ∈ EvAcceptBatches "received" (batchSize blobs)
        :: storing_events ks1 se1 (batchSize blobs) ++ rest) as Hin.
    { intros rest. right. apply elem_of_app. left. left. }
    destruct (result_of (ValidateBatch n header blobs sched db1)) as [e|] eqn:Hv.
    + rewrite (ProcessBatch_invalid _ _ _ _ _ _ _ _ _ _ _ Hh Hs Hv).
      split.
      * intros H. split; [by exists h|]. simpl.
        destruct (keys (sent_on_storeChan ks1 se1)); destruct se1;
          in_trace H; congruence.
      * intros [_ [= <- <-]].
        destruct (keys (sent_on_storeChan ks1 se1)); apply Hin.
    + rewrite (ProcessBatch_valid _ _ _ _ _ _ _ _ _ _ Hh Hs Hv).
      split.
      * intros H. split; [by exists h|]. simpl.
        destruct (err (sent_on_storeChan ks1 se1)); destruct se1;
          in_trace H; congruence.
      * intros [_ [= <- <-]].
        destruct (err (sent_on_storeChan ks1 se1)); apply Hin.
  - rewrite (ProcessBatch_bad_header _ _ _ _ _ _ _ Hh). split.
    + intros H. in_trace H.
    + intros [[h Hh'] _]. done.
Qed.

Lemma storage_succeeded_iff {T : Core} (n : Node T) header blobs rawBlobs sched db :
  storage_succeeded (trace_of (ProcessBatch n header blobs rawBlobs sched db))
  <-> (exists h, GetBatchHeaderHash T header = inl h)
      /\ (snd (snd (StoreBatch n db header blobs rawBlobs)) = None
          \/ snd (snd (StoreBatch n db header blobs rawBlobs))
             = Some ErrBatchAlreadyExist).
Proof.
  unfold storage_succeeded. split.
  - intros (ks & se & Hin & Hse). apply store_event_iff in Hin as [Hh Hs].
    split; [done|]. by rewrite Hs.
  - intros [Hh Hse].
    exists (fst (snd (StoreBatch n db header blobs rawBlobs))),
           (snd (snd (StoreBatch n db header blobs rawBlobs))).
    split; [|done]. apply store_event_iff. split; [done|].
    by destruct (snd (StoreBatch n db header blobs rawBlobs)).
Qed.

Lemma sent_err_None {T : Core} (ks : option (list (Key T))) se :
  err (sent_on_storeChan ks se) = None
  <-> se = None \/ se = Some ErrBatchAlreadyExist.
Proof.
  unfold sent_on_storeChan. destruct se as [e|]; simpl.
  - destruct (decide (e = ErrBatchAlreadyExist)) as [->|Hne]; simpl.
    + split; auto.
    + split; [done|]. intros [|[=]]; done.
  - split; auto.
Qed.

(** C1 (as amended).  [ProcessBatch] returns a signature if and only if
    storage succeeded (a fresh write or the already-exists outcome), the
    operator state of the reference block was fetched, and every blob passed
    validation; in every other case the signature is nil. *)
Theorem signature_gating {T : Core} (n : Node T) header blobs rawBlobs sched db :
  fst (result_of (ProcessBatch n header blobs rawBlobs sched db)) <> None
  <-> storage_succeeded (trace_of (ProcessBatch n header blobs rawBlobs sched db))
      /\ (exists os, fetched n header os)
      /\ every_blob_passes n header blobs.
Proof.
  rewrite storage_succeeded_iff.
  destruct (GetBatchHeaderHash T header) as [h|e] eqn:Hh.
  - destruct (StoreBatch n db header blobs rawBlobs) as [db1 [ks se]] eqn:Hs.
    simpl.
    rewrite <- (ValidateBatch_nil_iff n header blobs sched db1).
    rewrite <- (sent_err_None ks se).
    destruct (result_of (ValidateBatch n header blobs sched db1)) as [e|] eqn:Hv.
    + rewrite (ProcessBatch_invalid _ _ _ _ _ _ _ _ _ _ _ Hh Hs Hv).
      destruct (keys (sent_on_storeChan ks se)); unfold result_of; simpl;
        split; try done; intros [_ [=]].
    + rewrite (ProcessBatch_valid _ _ _ _ _ _ _ _ _ _ Hh Hs Hv).
      destruct (err (sent_on_storeChan ks se)) as [e'|]; unfold result_of; simpl.
      * split; [done|]. intros [[_ [=]] _].
      * split; [|done]. intros _. split; [|done]. split; [by exists h|done].
  - rewrite (ProcessBatch_bad_header _ _ _ _ _ _ _ Hh). unfold result_of; simpl.
    split; [done|]. intros [[[h [=]] _] _].
Qed.

(** C3.  What the code does where an error is expected: when every
    blob is valid and [StoreBatch] fails with an error other than
    [ErrBatchAlreadyExist], [ProcessBatch] returns [nil, err] with the [err]
    of [ValidateBatch], which is nil at that point; the caller gets neither a
    signature nor an error. *)
Theorem storage_failure_is_swallowed {T : Core} (n : Node T) header blobs rawBlobs
    sched db h db1 ks e :
  GetBatchHeaderHash T header = inl h ->
  StoreBatch n db header blobs rawBlobs = (db1, (ks, Some e)) ->
  e <> ErrBatchAlreadyExist ->
  result_of (ValidateBatch n header blobs sched db1) = None ->
  result_of (ProcessBatch n header blobs rawBlobs sched db) = (None, None).
Proof.
  intros Hh Hs He Hv. rewrite (ProcessBatch_valid _ _ _ _ _ _ _ _ _ _ Hh Hs Hv).
  unfold sent_on_storeChan. by destruct (decide (e = ErrBatchAlreadyExist)).
Qed.

(** C2.  After a fresh write and a failed validation, [ProcessBatch] hands
    exactly the keys just written to [DeleteKeys], on the store as the write
    left it, before it returns the validation error; when the delete
    succeeds none of these keys is retrievable afterwards; when it fails the
    failure is logged as the last thing the call does, and the error returned
    is the same. *)
Theorem rollback_of_fresh_store {T : Core} (n : Node T) header blobs rawBlobs
    sched db h db1 ks e :
  delete_removes n ->
  GetBatchHeaderHash T header = inl h ->
  fresh_write n db header blobs rawBlobs db1 ks ->
  result_of (ValidateBatch n header blobs sched db1) = Some e ->
  exists ok pre post,
    DeleteKeys n db1 ks
    = (db_of (ProcessBatch n header blobs rawBlobs sched db), ok)
    /\ trace_of (ProcessBatch n header blobs rawBlobs sched db)
       = pre ++ EvDeleteKeys ks ok :: post
    /\ result_of (ProcessBatch n header blobs rawBlobs sched db)
       = (None, Some (ErrWrap "failed to validate batch" e))
    /\ (ok = true ->
        forall k, k ∈ ks ->
          HasKey n (db_of (ProcessBatch n header blobs rawBlobs sched db)) k = false)
    /\ post = (if ok then [] else [rollback_failed]).
Proof.
  intros Hc Hh Hs Hv. unfold fresh_write in Hs.
  rewrite (ProcessBatch_invalid _ _ _ _ _ _ _ _ _ _ _ Hh Hs Hv). simpl.
  destruct (DeleteKeys n db1 ks) as [db2 ok] eqn:Hd.
  exists ok,
    (EvAcceptBatches "received" (batchSize blobs)
     :: storing_events (Some ks) None (batchSize blobs)
     ++ trace_of (ValidateBatch n header blobs sched db1)),
    (if ok then [] else [rollback_failed]).
  unfold db_of, trace_of, result_of; simpl. repeat split.
  intros -> k Hk. by eapply Hc.
Qed.

(** C6.  When the header hash is already in the store, the storing goroutine
    turns [ErrBatchAlreadyExist] into a result without error and without keys.
    [ProcessBatch] then does this and nothing else: it records the batch as
    received, makes the one call to the store, runs validation, and, if
    validation passes, records the stages and signs; nothing is deleted and
    the store is unchanged.  It returns the signature of the header hash if
    validation passes, and the wrapped validation error otherwise. *)
Theorem existing_batch_is_idempotent {T : Core} (n : Node T) header blobs rawBlobs
    sched db h :
  reports_existing n ->
  GetBatchHeaderHash T header = inl h ->
  HasBatch n db h = true ->
  storeGoroutine n header blobs rawBlobs (batchSize blobs) db
  = ({| err := None; keys := None |}, db,
     [EvStoreBatch None (Some ErrBatchAlreadyExist)])
  /\ nothing_deleted (trace_of (ProcessBatch n header blobs rawBlobs sched db))
  /\ db_of (ProcessBatch n header blobs rawBlobs sched db) = db
  /\ trace_of (ProcessBatch n header blobs rawBlobs sched db)
     = EvAcceptBatches "received" (batchSize blobs)
       :: EvStoreBatch None (Some ErrBatchAlreadyExist)
       :: trace_of (ValidateBatch n header blobs sched db)
       ++ match result_of (ValidateBatch n header blobs sched db) with
          | None => validated_events (batchSize blobs)
                    ++ signing_events h (batchSize blobs)
          | Some _ => []
          end
  /\ result_of (ProcessBatch n header blobs rawBlobs sched db)
     = match result_of (ValidateBatch n header blobs sched db) with
       | None => (Some (SignMessage n h), None)
       | Some e => (None, Some (ErrWrap "failed to validate batch" e))
       end.
Proof.
  intros Hc Hh Hb.
  pose proof (Hc db header h blobs rawBlobs Hh Hb) as Hs.
  split; [by rewrite storeGoroutine_eq, Hs|].
  destruct (result_of (ValidateBatch n header blobs sched db)) as [e|] eqn:Hv.
  - rewrite (ProcessBatch_invalid _ _ _ _ _ _ _ _ _ _ _ Hh Hs Hv). simpl.
    repeat split; try done.
    + intros ks ok H. in_trace H.
    + unfold trace_of; simpl. by rewrite app_nil_r.
  - rewrite (ProcessBatch_valid _ _ _ _ _ _ _ _ _ _ Hh Hs Hv). simpl.
    repeat split; try done.
    intros ks ok H. in_trace H.
Qed.

(** C10 (as amended).  For an empty list of blobs, when the operator state
    is fetched: [ValidateBatch] returns nil after the fetch alone, no job is
    submitted and the validator is never called, and if storage succeeds
    [ProcessBatch] returns the signature of the batch header hash. *)
Theorem empty_batch {T : Core} (n : Node T) header rawBlobs sched db os :
  fetched n header os ->
  ValidateBatch n header [] sched db
  = (None, db, [EvGetOperatorState (ReferenceBlockNumber T header)])
  /\ no_validation_job (trace_of (ProcessBatch n header [] rawBlobs sched db))
  /\ (storage_succeeded (trace_of (ProcessBatch n header [] rawBlobs sched db)) ->
      exists h, GetBatchHeaderHash T header = inl h
                /\ result_of (ProcessBatch n header [] rawBlobs sched db)
                   = (Some (SignMessage n h), None)).
Proof.
  intros Hos.
  assert (forall db', ValidateBatch n header [] sched db'
          = (None, db', [EvGetOperatorState (ReferenceBlockNumber T header)])) as HV.
  { intros db'. by rewrite (ValidateBatch_fetched _ _ _ _ _ os Hos). }
  split; [apply HV|]. rewrite storage_succeeded_iff.
  destruct (GetBatchHeaderHash T header) as [h|e] eqn:Hh.
  - destruct (StoreBatch n db header [] rawBlobs) as [db1 [ks se]] eqn:Hs.
    assert (result_of (ValidateBatch n header [] sched db1) = None) as Hv
      by (by rewrite HV).
    rewrite (ProcessBatch_valid _ _ _ _ _ _ _ _ _ _ Hh Hs Hv), HV. simpl.
    split.
    + intros blob. split; [|intros r]; intros H;
        destruct (err (sent_on_storeChan ks se)); destruct se; in_trace H.
    + intros [_ Hse]. apply (sent_err_None ks) in Hse. rewrite Hse. by exists h.
  - rewrite (ProcessBatch_bad_header _ _ _ _ _ _ _ Hh). split.
    + intros blob. split; [|intros r]; intros H; in_trace H.
    + intros [[h [=]] _].
Qed.

(** Every interleaving of the fan-out returns what [ValidateBatch] returns
    under some schedule. *)
Lemma run_refines_ValidateBatch {T : Core} (n : Node T) header blobs db os acts st r :
  fetched n header os ->
  Fanout.run acts (Fanout.init (NumBatchValidators n)
                     (map (fun blob => validateBlob n blob os) blobs)) = Some st ->
  Fanout.ret st = Some r ->
  exists sched, result_of (ValidateBatch n header blobs sched db) = r.
Proof.
  intros Hos Hrun Hret.
  pose proof (FanoutFacts.inv_run _ _ _ _ (FanoutFacts.inv_init _ _) Hrun) as Hinv.
  pose proof (FanoutFacts.returned_collect _ _ _ Hinv Hret) as ->.
  pose proof (Fanout.inv_arrival _ _ Hinv) as Hperm.
  apply Permutation_map_inv in Hperm as (l & Hl & Hp).
  symmetry in Hp.
  destruct (arrival_order_complete blobs l Hp) as [sched Hs].
  exists sched. rewrite (ValidateBatch_fetched _ _ _ _ _ os Hos).
  unfold result_of; simpl. by rewrite Hs, Hl.
Qed.

(** C5 (as amended).  [ValidateBatch] returns nil if and only if the operator
    state was fetched and every blob passes validation.  When a result is an
    error the receive loop returns it at once: the results received are the
    nil results before it and the error itself, the others stay uncollected.
    In every interleaving of the main goroutine and the jobs, a running job
    can send its result ([out] is never full), the collector can go on until
    it returns, no more than [3 * len(blobs) + 1] steps are taken, and what
    is returned is what [ValidateBatch] returns under some schedule. *)
Theorem ValidateBatch_fan_out {T : Core} (n : Node T) header blobs sched db :
  (result_of (ValidateBatch n header blobs sched db) = None
   <-> (exists os, fetched n header os) /\ every_blob_passes n header blobs)
  /\ (forall os, fetched n header os ->
      let results := map (fun blob => validateBlob n blob os) blobs in
      let out := map (fun blob => validateBlob n blob os) (arrival_order sched blobs) in
      ValidateBatch n header blobs sched db
      = (Fanout.collect out, db,
         EvGetOperatorState (ReferenceBlockNumber T header)
         :: map EvSubmit blobs
         ++ map (fun blob => EvValidateBlob blob (validateBlob n blob os))
                (arrival_order sched blobs)
         ++ map EvReceive (take (Fanout.collected out) out))
      /\ (forall e, Fanout.collect out = Some e ->
            exists k, take (Fanout.collected out) out = replicate k None ++ [Some e])
      /\ (forall acts st,
            Fanout.run acts (Fanout.init (NumBatchValidators n) results) = Some st ->
            (forall j, Fanout.running st j = true ->
               is_Some (Fanout.step (Fanout.Report j) st))
            /\ (Fanout.ret st = None -> exists a, is_Some (Fanout.step a st))
            /\ length acts <= 3 * length blobs + 1
            /\ (forall r, Fanout.ret st = Some r ->
                  (r = None <-> every_blob_passes n header blobs)
                  /\ exists sched',
                       result_of (ValidateBatch n header blobs sched' db) = r))).
Proof.
  split; [apply ValidateBatch_nil_iff|].
  intros os Hos results out. split; [by apply ValidateBatch_fetched|].
  split; [apply collect_Some|].
  intros acts st Hrun.
  pose proof (FanoutFacts.inv_run _ _ _ _ (FanoutFacts.inv_init _ _) Hrun) as Hinv.
  split; [intros j; by apply (FanoutFacts.report_enabled results)|].
  split; [by apply (FanoutFacts.progress results)|].
  split.
  - apply FanoutFacts.run_bounded in Hrun. unfold Fanout.measure in Hrun.
    simpl in Hrun. unfold results in Hrun. rewrite length_map in Hrun. lia.
  - intros r Hret. split.
    + rewrite (FanoutFacts.returned_nil_iff _ _ _ Hinv Hret).
      rewrite (passes_fetched _ _ _ _ Hos). unfold results. rewrite Forall_map.
      apply Forall_iff. intros blob. simpl. rewrite validateBlob_eq.
      split; congruence.
    + by eapply run_refines_ValidateBatch.
Qed.

(** The store in memory keeps both contracts. *)
Lemma memNode_reports_existing chainUp invalid deleteFails :
  reports_existing (memNode chainUp invalid false deleteFails).
Proof.
  intros db header h blobs rawBlobs Hh Hb. simpl in *. unfold memStoreBatch.
  destruct (header =? 0)%N; [done|]. injection Hh as ->.
  apply bool_decide_eq_true in Hb. by rewrite decide_True.
Qed.

Lemma memNode_delete_removes chainUp invalid storeFails deleteFails :
  delete_removes (memNode chainUp invalid storeFails deleteFails).
Proof.
  intros db ks db' Hd k Hk. simpl in *. unfold memDeleteKeys in Hd.
  destruct deleteFails; [done|]. injection Hd as <-.
  apply bool_decide_eq_false. intros [_ Hn]%elem_of_difference.
  apply Hn. by apply elem_of_list_to_set.
Qed.

(** C1, counterexample.  The chain client fails, the batch has no blob and
    the store accepts it: storage succeeded and every blob passed, yet no
    signature is returned. *)
Lemma signature_gating_needs_operator_state :
  ~ stated_signature_gating (memNode false (fun _ => false) false false)
      5%N [] [] [] ∅.
Proof.
  unfold stated_signature_gating. intros [_ H]. apply H; [|done].
  split.
  - apply storage_succeeded_iff. split; [by exists 5%N|]. by left.
  - intros blob Hb. by apply elem_of_nil in Hb.
Qed.

(** C5, counterexample.  With no blob every blob passes, but [ValidateBatch]
    returns the error of the failed fetch of the operator state. *)
Lemma validation_needs_operator_state :
  ~ stated_validation (memNode false (fun _ => false) false false) 5%N [] [] ∅.
Proof.
  unfold stated_validation. intros [_ H].
  assert (every_blob_passes (memNode false (fun _ => false) false false) 5%N [])
    as Hp by (intros blob Hb; by apply elem_of_nil in Hb).
  apply H in Hp. discriminate Hp.
Qed.

(** C10, counterexample.  For the empty batch validation fails when the
    operator state cannot be fetched. *)
Lemma empty_batch_needs_operator_state :
  ~ stated_empty_batch (memNode false (fun _ => false) false false) 5%N [] [] ∅.
Proof. unfold stated_empty_batch. intros [H _]. discriminate H. Qed.

(** C5, witness: three blobs, the second invalid, on two workers; the second
    job reports first.  The collector has returned its error, the two other
    jobs can still report, and the same error comes out of [ValidateBatch]
    under some schedule. *)
Lemma ValidateBatch_fan_out_witness :
  let n := memNode true (fun blob => (blob =? 2)%N) false false in
  let bad := Some (ErrOpaque "invalid chunk") in
  exists st,
    Fanout.run [Fanout.Main; Fanout.Main; Fanout.Main; Fanout.Report 1; Fanout.Main]
               (Fanout.init 2 [None; bad; None]) = Some st
    /\ Fanout.ret st = Some bad
    /\ (forall j, Fanout.running st j = true ->
          is_Some (Fanout.step (Fanout.Report j) st))
    /\ (forall r, Fanout.ret st = Some r ->
          (r = None <-> every_blob_passes n 5%N [1%N; 2%N; 3%N])
          /\ exists sched',
               result_of (ValidateBatch n 5%N [1%N; 2%N; 3%N] sched' ∅) = r).
Proof.
  intros n bad.
  destruct (ValidateBatch_fan_out n 5%N [1%N; 2%N; 3%N] [] ∅) as [_ H].
  destruct (H tt eq_refl) as (_ & _ & Hrun).
  eexists. split; [reflexivity|]. split; [reflexivity|].
  destruct (Hrun [Fanout.Main; Fanout.Main; Fanout.Main; Fanout.Report 1;
                  Fanout.Main] _ eq_refl) as (Hsend & _ & _ & Hret).
  split; [exact Hsend | exact Hret].
Defined.

(** C3, witness: the database refuses the write of a batch of two valid
    blobs. *)
Lemma storage_failure_is_swallowed_witness :
  result_of (ProcessBatch (memNode true (fun _ => false) true false)
               5%N [1%N; 2%N] [1%N; 2%N] [] ∅)
  = (None, None).
Proof.
  apply (storage_failure_is_swallowed (memNode true (fun _ => false) true false)
           5%N [1%N; 2%N] [1%N; 2%N] [] ∅ 5%N ∅ None
           (ErrOpaque "leveldb: write failed")).
  - reflexivity.
  - reflexivity.
  - discriminate.
  - reflexivity.
Defined.

(** C2, witness: the second of three blobs is invalid. *)
Lemma rollback_of_fresh_store_witness :
  let n := memNode true (fun blob => (blob =? 2)%N) false false in
  let r := ProcessBatch n 5%N [1%N; 2%N; 3%N] [1%N; 2%N; 3%N] [] ∅ in
  let ks : list (Key memCore) := memKeys 5%N [1%N; 2%N; 3%N] in
  exists (ok : bool) (pre post : list (event memCore)),
    DeleteKeys n (list_to_set (memKeys 5%N [1%N; 2%N; 3%N]) ∪ ∅ : gset (N * nat)) ks = (db_of r, ok)
    /\ trace_of r = pre ++ EvDeleteKeys ks ok :: post
    /\ result_of r
       = (None, Some (ErrWrap "failed to validate batch" (ErrOpaque "invalid chunk")))
    /\ (ok = true -> forall k, k ∈ ks -> HasKey n (db_of r) k = false)
    /\ post = (if ok then [] else [rollback_failed]).
Proof.
  intros n r ks.
  apply (rollback_of_fresh_store n 5%N [1%N; 2%N; 3%N] [1%N; 2%N; 3%N] [] ∅
           5%N (list_to_set (memKeys 5%N [1%N; 2%N; 3%N]) ∪ ∅ : gset (N * nat)) ks (ErrOpaque "invalid chunk")).
  - apply memNode_delete_removes.
  - reflexivity.
  - reflexivity.
  - reflexivity.
Defined.

(** C6, witness: the header of batch 5 is in the store already. *)
Lemma existing_batch_is_idempotent_witness :
  let n := memNode true (fun _ => false) false false in
  let db : DB memCore := {[ (5%N, 0) ]} in
  let r := ProcessBatch n 5%N [1%N] [1%N] [] db in
  storeGoroutine n 5%N [1%N] [1%N] (batchSize (T := memCore) [1%N]) db
  = ({| err := None; keys := None |}, db,
     [EvStoreBatch None (Some ErrBatchAlreadyExist)])
  /\ nothing_deleted (trace_of r)
  /\ db_of r = db
  /\ trace_of r
     = EvAcceptBatches "received" (batchSize (T := memCore) [1%N])
       :: EvStoreBatch None (Some ErrBatchAlreadyExist)
       :: trace_of (ValidateBatch n 5%N [1%N] [] db)
       ++ match result_of (ValidateBatch n 5%N [1%N] [] db) with
          | None => validated_events (batchSize (T := memCore) [1%N])
                    ++ signing_events (5%N : Hash memCore)
                         (batchSize (T := memCore) [1%N])
          | Some _ => []
          end
  /\ result_of r
     = match result_of (ValidateBatch n 5%N [1%N] [] db) with
       | None => (Some (SignMessage n 5%N), None)
       | Some e => (None, Some (ErrWrap "failed to validate batch" e))
       end.
Proof.
  intros n db r.
  apply (existing_batch_is_idempotent n 5%N [1%N] [1%N] [] db 5%N).
  - apply memNode_reports_existing.
  - reflexivity.
  - reflexivity.
Defined.

(** A batch that is in the store already and whose blob the validator
    rejects: the store is asked once, nothing is deleted, and the caller gets
    the validation error and no signature. *)
Example existing_batch_with_an_invalid_blob :
  let n := memNode true (fun blob => (blob =? 1)%N) false false in
  let db : DB memCore := {[ (5%N, 0) ]} in
  let r := ProcessBatch n 5%N [1%N] [1%N] [] db in
  result_of r
  = (None, Some (ErrWrap "failed to validate batch" (ErrOpaque "invalid chunk")))
  /\ db_of r = db
  /\ take 2 (trace_of r)
     = [EvAcceptBatches "received" 1; EvStoreBatch None (Some ErrBatchAlreadyExist)].
Proof. vm_compute. done. Qed.

(** C10, witness: an empty batch on a node whose chain client answers. *)
Lemma empty_batch_witness :
  let n := memNode true (fun _ => false) false false in
  ValidateBatch n 5%N [] [] ∅ = (None, ∅, [EvGetOperatorState 5%N])
  /\ no_validation_job (trace_of (ProcessBatch n 5%N [] [] [] ∅))
  /\ (storage_succeeded (trace_of (ProcessBatch n 5%N [] [] [] ∅)) ->
      exists h, GetBatchHeaderHash memCore 5%N = inl h
                /\ result_of (ProcessBatch n 5%N [] [] [] ∅)
                   = (Some (SignMessage n h), None)).
Proof.
  intros n. apply (empty_batch n 5%N [] [] ∅ tt). reflexivity.
Defined.

(** When the delete fails the keys of the batch stay in the store, and the
    caller sees the validation error alone. *)
Example failed_rollback_leaves_the_keys :
  let n := memNode true (fun blob => (blob =? 2)%N) false true in
  let r := ProcessBatch n 5%N [1%N; 2%N; 3%N] [1%N; 2%N; 3%N] [] ∅ in
  result_of r
  = (None, Some (ErrWrap "failed to validate batch" (ErrOpaque "invalid chunk")))
  /\ last (trace_of r) = Some rollback_failed
  /\ forallb (HasKey n (db_of r)) (memKeys 5%N [1%N; 2%N; 3%N]) = true.
Proof. vm_compute. done. Qed.

(** Scenario A of the specification: three valid blobs and a fresh store. *)
Example three_valid_blobs :
  let n := memNode true (fun _ => false) false false in
  let r := ProcessBatch n 5%N [1%N; 2%N; 3%N] [1%N; 2%N; 3%N] [2; 0] ∅ in
  result_of r = (Some (SignMessage n 5%N), None)
  /\ forallb (HasKey n (db_of r)) (memKeys 5%N [1%N; 2%N; 3%N]) = true.
Proof. vm_compute. done. Qed.

(** A run of the fan-out over three blobs of which the second is invalid, on
    two workers: the second job reports first, the collector returns its
    error while the two other results are still on their way. *)
Example early_return :
  let bad := Some (ErrOpaque "invalid chunk") in
  exists st,
    Fanout.run [Fanout.Main; Fanout.Main; Fanout.Main; Fanout.Report 1; Fanout.Main]
               (Fanout.init 2 [None; bad; None]) = Some st
    /\ Fanout.ret st = Some bad
    /\ Fanout.got st = [bad]
    /\ length (Fanout.pending st) = 2
    /\ Fanout.run [Fanout.Report 1; Fanout.Report 0] st <> None.
Proof. eexists. vm_compute. repeat split; done. Qed.


(** X1.  The error that [ProcessBatch] returns is nil, the error of the header
    hash, or the wrapped error of [ValidateBatch]: the error of a failed
    store never reaches the caller. *)
Theorem returned_error_origin {T : Core} (n : Node T) header blobs rawBlobs sched db :
  snd (result_of (ProcessBatch n header blobs rawBlobs sched db)) = None
  \/ (exists e, GetBatchHeaderHash T header = inr e
                /\ result_of (ProcessBatch n header blobs rawBlobs sched db)
                   = (None, Some e))
  \/ (exists h e, GetBatchHeaderHash T header = inl h
                  /\ result_of (ValidateBatch n header blobs sched
                                  (fst (StoreBatch n db header blobs rawBlobs)))
                     = Some e
                  /\ result_of (ProcessBatch n header blobs rawBlobs sched db)
                     = (None, Some (ErrWrap "failed to validate batch" e))).
Proof.
  destruct (GetBatchHeaderHash T header) as [h|e] eqn:Hh.
  - destruct (StoreBatch n db header blobs rawBlobs) as [db1 [ks se]] eqn:Hs.
    simpl.
    destruct (result_of (ValidateBatch n header blobs sched db1)) as [e|] eqn:Hv.
    + right. right. exists h, e. split; [done|]. split; [done|].
      rewrite (ProcessBatch_invalid _ _ _ _ _ _ _ _ _ _ _ Hh Hs Hv).
      by destruct (keys (sent_on_storeChan ks se)).
    + left. rewrite (ProcessBatch_valid _ _ _ _ _ _ _ _ _ _ Hh Hs Hv).
      by destruct (err (sent_on_storeChan ks se)).
  - right. left. exists e. split; [done|].
    by rewrite (ProcessBatch_bad_header _ _ _ _ _ _ _ Hh).
Qed.

(** X2.  The key pair signs exactly when a signature is returned, and then it
    signs the hash of the batch header; no error comes with a signature. *)
Theorem signs_iff_signature_returned {T : Core} (n : Node T) header blobs rawBlobs
    sched db h :
  EvSignMessage h ∈ trace_of (ProcessBatch n header blobs rawBlobs sched db)
  <-> GetBatchHeaderHash T header = inl h
      /\ fst (result_of (ProcessBatch n header blobs rawBlobs sched db)) <> None
      /\ result_of (ProcessBatch n header blobs rawBlobs sched db)
         = (Some (SignMessage n h), None).
Proof.
  destruct (GetBatchHeaderHash T header) as [h'|e] eqn:Hh.
  - destruct (StoreBatch n db header blobs rawBlobs) as [db1 [ks se]] eqn:Hs.
    destruct (result_of (ValidateBatch n header blobs sched db1)) as [e|] eqn:Hv.
    + rewrite (ProcessBatch_invalid _ _ _ _ _ _ _ _ _ _ _ Hh Hs Hv). split.
      * intros H.
        destruct (keys (sent_on_storeChan ks se)); destruct se; in_trace H.
      * intros (_ & Hn & _).
        by destruct (keys (sent_on_storeChan ks se)).
    + rewrite (ProcessBatch_valid _ _ _ _ _ _ _ _ _ _ Hh Hs Hv). split.
      * intros H.
        destruct (err (sent_on_storeChan ks se)); destruct se; in_trace H;
          by injection H as ->.
      * intros ([= ->] & Hn & _).
        destruct (err (sent_on_storeChan ks se)); [done|].
        unfold trace_of, signing_events; cbn [snd]. right.
        rewrite !elem_of_app. right. right. right. left.
  - rewrite (ProcessBatch_bad_header _ _ _ _ _ _ _ Hh). split.
    + intros H. in_trace H.
    + intros ([=] & _).
Qed.

(** X3.  [DeleteKeys] is called only to roll back: a call with keys [ks] is in
    the trace exactly when the header has a hash, this call's [StoreBatch]
    returned [ks] with a nil error, and validation failed; the outcome
    recorded is that of [DeleteKeys] on the store as the write left it. *)
Theorem delete_only_rolls_back {T : Core} (n : Node T) header blobs rawBlobs
    sched db ks ok :
  EvDeleteKeys ks ok ∈ trace_of (ProcessBatch n header blobs rawBlobs sched db)
  <-> (exists h, GetBatchHeaderHash T header = inl h)
      /\ snd (StoreBatch n db header blobs rawBlobs) = (Some ks, None)
      /\ result_of (ValidateBatch n header blobs sched
                      (fst (StoreBatch n db header blobs rawBlobs))) <> None
      /\ ok = snd (DeleteKeys n (fst (StoreBatch n db header blobs rawBlobs)) ks).
Proof.
  destruct (GetBatchHeaderHash T header) as [h|e] eqn:Hh.
  - destruct (StoreBatch n db header blobs rawBlobs) as [db1 [ks1 se]] eqn:Hs.
    simpl.
    destruct (result_of (ValidateBatch n header blobs sched db1)) as [e|] eqn:Hv.
    + rewrite (ProcessBatch_invalid _ _ _ _ _ _ _ _ _ _ _ Hh Hs Hv).
      unfold sent_on_storeChan. destruct se as [e'|]; simpl.
      * split; [|by intros (_ & [=] & _)].
        intros H. by destruct (decide (e' = ErrBatchAlreadyExist)); in_trace H.
      * destruct ks1 as [ks1|]; simpl.
        -- split.
           ++ intros H. in_trace H; injection H as -> ->;
                (split; [by exists h|done]).
           ++ intros (_ & [= ->] & _ & ->). unfold trace_of; cbn [snd].
              repeat (rewrite elem_of_cons || rewrite elem_of_app).
              naive_solver.
        -- split; [|by intros (_ & [=] & _)]. intros H. in_trace H.
    + rewrite (ProcessBatch_valid _ _ _ _ _ _ _ _ _ _ Hh Hs Hv). split.
      * intros H. destruct (err (sent_on_storeChan ks1 se)); destruct se;
          in_trace H.
      * by intros (_ & _ & Hn & _).
  - rewrite (ProcessBatch_bad_header _ _ _ _ _ _ _ Hh). split.
    + intros H. in_trace H.
    + by intros ([h [=]] & _).
Qed.

(** X4.  The order in which the validation jobs report decides only which error
    is returned: the signature, the store left behind and whether there is
    an error are the same under every schedule. *)
Theorem schedule_decides_only_the_error {T : Core} (n : Node T) header blobs
    rawBlobs s1 s2 db :
  fst (result_of (ProcessBatch n header blobs rawBlobs s1 db))
  = fst (result_of (ProcessBatch n header blobs rawBlobs s2 db))
  /\ db_of (ProcessBatch n header blobs rawBlobs s1 db)
     = db_of (ProcessBatch n header blobs rawBlobs s2 db)
  /\ (snd (result_of (ProcessBatch n header blobs rawBlobs s1 db)) = None
      <-> snd (result_of (ProcessBatch n header blobs rawBlobs s2 db)) = None).
Proof.
  destruct (GetBatchHeaderHash T header) as [h|e] eqn:Hh.
  - destruct (StoreBatch n db header blobs rawBlobs) as [db1 [ks se]] eqn:Hs.
    pose proof (ValidateBatch_nil_iff n header blobs s1 db1) as H1.
    pose proof (ValidateBatch_nil_iff n header blobs s2 db1) as H2.
    destruct (result_of (ValidateBatch n header blobs s1 db1)) as [e1|] eqn:Hv1;
      destruct (result_of (ValidateBatch n header blobs s2 db1)) as [e2|] eqn:Hv2.
    + rewrite (ProcessBatch_invalid _ _ _ _ _ _ _ _ _ _ _ Hh Hs Hv1),
        (ProcessBatch_invalid _ _ _ _ _ _ _ _ _ _ _ Hh Hs Hv2).
      by destruct (keys (sent_on_storeChan ks se)).
    + exfalso. destruct H2 as [H2 _]. destruct H1 as [_ H1].
      by specialize (H1 (H2 eq_refl)).
    + exfalso. destruct H1 as [H1 _]. destruct H2 as [_ H2].
      by specialize (H2 (H1 eq_refl)).
    + rewrite (ProcessBatch_valid _ _ _ _ _ _ _ _ _ _ Hh Hs Hv1),
        (ProcessBatch_valid _ _ _ _ _ _ _ _ _ _ Hh Hs Hv2).
      by destruct (err (sent_on_storeChan ks se)).
  - by rewrite !(ProcessBatch_bad_header _ _ _ _ _ _ _ Hh).
Qed.

Lemma collect_elem out e : Fanout.collect out = Some e -> Some e ∈ out.
Proof.
  induction out as [|[e'|] out IH]; simpl; intros H; [done| |].
  - injection H as ->. left.
  - right. by apply IH.
Qed.

(** X5.  An error that [ValidateBatch] returns is the error of the fetch of the
    operator state, or the error that the validator gives for a blob of the
    batch: under no schedule does it come from anywhere else. *)
Theorem validation_error_origin {T : Core} (n : Node T) header blobs sched db e :
  result_of (ValidateBatch n header blobs sched db) = Some e ->
  GetOperatorStateByOperator n (ReferenceBlockNumber T header) (ID n) = inr e
  \/ exists os blob,
       fetched n header os /\ blob ∈ blobs /\ ValidateBlob n blob os = Some e.
Proof.
  destruct (GetOperatorStateByOperator n (ReferenceBlockNumber T header) (ID n))
    as [os|e'] eqn:H.
  - rewrite (ValidateBatch_fetched _ _ _ _ _ os H). unfold result_of; simpl.
    intros He. right. apply collect_elem in He.
    apply list_elem_of_fmap in He as (blob & Hb & Hin).
    exists os, blob. split; [done|]. split.
    + by rewrite <- (arrival_order_perm sched blobs).
    + by rewrite <- validateBlob_eq.
  - rewrite (ValidateBatch_not_fetched _ _ _ _ _ e' H). unfold result_of; simpl.
    intros [= ->]. by left.
Qed.

(** X5, witness: the second of three blobs is invalid. *)
Lemma validation_error_origin_witness :
  let n := memNode true (fun blob => (blob =? 2)%N) false false in
  GetOperatorStateByOperator n 5%N (ID n) = inr (ErrOpaque "invalid chunk")
  \/ exists os blob,
       fetched n 5%N os /\ blob ∈ [1%N; 2%N; 3%N]
       /\ ValidateBlob n blob os = Some (ErrOpaque "invalid chunk").
Proof.
  intros n.
  apply (validation_error_origin n 5%N [1%N; 2%N; 3%N] [2; 0] ∅
           (ErrOpaque "invalid chunk")).
  reflexivity.
Defined.

Lemma arrival_order_nil {A : Type} (jobs : list A) : arrival_order [] jobs = jobs.
Proof. induction jobs as [|j js IH]; simpl; [done|]. rewrite IH. by destruct js. Qed.

(** X6.  With at most one validator the jobs report in the order of the batch,
    in every interleaving of the fan-out: [ValidateBatch] returns the error
    of the first blob of the batch that the validator rejects, the value it
    has under the empty schedule. *)
Theorem one_validator_keeps_batch_order {T : Core} (n : Node T) header blobs db os
    acts st r :
  NumBatchValidators n <= 1 ->
  fetched n header os ->
  Fanout.run acts (Fanout.init (NumBatchValidators n)
                     (map (fun blob => validateBlob n blob os) blobs)) = Some st ->
  Fanout.ret st = Some r ->
  r = Fanout.collect (map (fun blob => ValidateBlob n blob os) blobs)
  /\ r = result_of (ValidateBatch n header blobs [] db).
Proof.
  intros Hw Hos Hrun Hret.
  pose proof (FanoutFacts.inv_run _ _ _ _ (FanoutFacts.inv_init _ _) Hrun) as Hinv.
  pose proof (FanoutFacts.in_order_run acts
                (Fanout.init (NumBatchValidators n)
                   (map (fun blob => validateBlob n blob os) blobs)) st Hw Hrun)
    as Ha.
  unfold Fanout.arrival at 2 in Ha. simpl in Ha.
  rewrite (FanoutFacts.returned_collect _ _ _ Hinv Hret), Ha.
  rewrite (ValidateBatch_fetched _ _ _ _ _ os Hos), arrival_order_nil.
  unfold result_of; simpl. split; [|done].
  f_equal. apply map_ext. intros blob. apply validateBlob_eq.
Qed.

(** X6, witness: one validator, the second and the third blob are invalid. *)
Lemma one_validator_keeps_batch_order_witness :
  let n := withValidators 1 (memNode true (fun blob => (2 <=? blob)%N) false false) in
  let bad := Some (ErrOpaque "invalid chunk") in
  exists st,
    Fanout.run [Fanout.Main; Fanout.Main; Fanout.Main; Fanout.Report 0;
                Fanout.Report 0; Fanout.Report 0; Fanout.Main; Fanout.Main]
               (Fanout.init 1 [None; bad; bad]) = Some st
    /\ Fanout.ret st = Some bad
    /\ bad = Fanout.collect (map (fun blob => ValidateBlob n blob tt) [1%N; 2%N; 3%N])
    /\ bad = result_of (ValidateBatch n 5%N [1%N; 2%N; 3%N] [] ∅).
Proof.
  intros n bad. eexists. split; [vm_compute; reflexivity|].
  split; [reflexivity|].
  eapply (one_validator_keeps_batch_order n 5%N [1%N; 2%N; 3%N] ∅ tt
            [Fanout.Main; Fanout.Main; Fanout.Main; Fanout.Report 0;
             Fanout.Report 0; Fanout.Report 0; Fanout.Main; Fanout.Main]);
    [simpl; lia | reflexivity | vm_compute; reflexivity | reflexivity].
Defined.

Lemma wrap_int_add_l a b : wrap_int (wrap_int a + b) = wrap_int (a + b).
Proof.
  unfold wrap_int. f_equal.
  replace ((a + 2 ^ 63) mod 2 ^ 64 - 2 ^ 63 + b + 2 ^ 63)%Z
    with ((a + 2 ^ 63) mod 2 ^ 64 + b)%Z by lia.
  rewrite Zplus_mod_idemp_l. f_equal. lia.
Qed.

Lemma wrap_int_small z : (- 2 ^ 63 <= z < 2 ^ 63)%Z -> wrap_int z = z.
Proof. intros H. unfold wrap_int. rewrite Z.mod_small; lia. Qed.

Lemma batchSize_from {T : Core} (blobs : list (BlobMessage T)) : forall a,
  fold_left (fun acc blob => int_add acc (EncodedSizeAllQuorums T blob)) blobs
            (wrap_int a)
  = wrap_int (a + totalEncodedSize blobs).
Proof.
  unfold totalEncodedSize.
  induction blobs as [|b blobs IH]; intros a; simpl.
  - by rewrite Z.add_0_r.
  - unfold int_add at 2. rewrite wrap_int_add_l, IH. f_equal. lia.
Qed.

(** X8.  The batch size reported to the metrics is the sum of the encoded sizes
    of the blobs reduced to a 64-bit signed integer: it is the sum itself
    when the sum fits, and otherwise differs from it by a multiple of
    [2^64]. *)
Theorem batchSize_is_the_wrapped_sum {T : Core} (blobs : list (BlobMessage T)) :
  batchSize blobs = wrap_int (totalEncodedSize blobs)
  /\ (- 2 ^ 63 <= batchSize blobs < 2 ^ 63)%Z
  /\ ((totalEncodedSize blobs - batchSize blobs) mod 2 ^ 64 = 0)%Z
  /\ ((- 2 ^ 63 <= totalEncodedSize blobs < 2 ^ 63)%Z ->
      batchSize blobs = totalEncodedSize blobs).
Proof.
  assert (batchSize blobs = wrap_int (totalEncodedSize blobs)) as ->.
  { unfold batchSize. change 0%Z with (wrap_int 0) at 1.
    by rewrite batchSize_from. }
  split; [done|]. split; [|split].
  - unfold wrap_int.
    pose proof (Z.mod_pos_bound (totalEncodedSize blobs + 2 ^ 63) (2 ^ 64)).
    lia.
  - unfold wrap_int.
    pose proof (Z.div_mod (totalEncodedSize blobs + 2 ^ 63) (2 ^ 64) ltac:(lia))
      as Hdm.
    set (q := ((totalEncodedSize blobs + 2 ^ 63) / 2 ^ 64)%Z) in *.
    set (m := ((totalEncodedSize blobs + 2 ^ 63) mod 2 ^ 64)%Z) in *.
    replace (totalEncodedSize blobs - (m - 2 ^ 63))%Z with (q * 2 ^ 64)%Z by lia.
    apply Z_mod_mult.
  - apply wrap_int_small.
Qed.

End BatchFacts.

(** ** The socket reconciler *)
Module SocketFacts.
Import Socket.

Lemma updateSocketAddress_same {W : Type} (n : Node W) newSocketAddr st :
  mu st = false -> newSocketAddr = CurrentSocket st ->
  updateSocketAddress n newSocketAddr st
  = Some (tt, {| CurrentSocket := CurrentSocket st; mu := false; world := world st;
                 trace := trace st ++ [EvLock; EvUnlock] |}).
Proof.
  intros Hmu ->. unfold updateSocketAddress, bind, Lock. rewrite Hmu. simpl.
  rewrite String.eqb_refl. unfold Unlock. simpl. by rewrite <- app_assoc.
Qed.

Lemma updateSocketAddress_differs {W : Type} (n : Node W) newSocketAddr st :
  mu st = false -> newSocketAddr <> CurrentSocket st ->
  updateSocketAddress n newSocketAddr st
  = match UpdateOperatorSocket n (world st) newSocketAddr with
    | (w, Some e) =>
        Some (tt, {| CurrentSocket := CurrentSocket st; mu := false; world := w;
                     trace := trace st
                       ++ [EvLock; EvUpdateOperatorSocket newSocketAddr (Some e);
                           EvLog "error" "failed to update operator's socket";
                           EvUnlock] |})
    | (w, None) =>
        Some (tt, {| CurrentSocket := newSocketAddr; mu := false; world := w;
                     trace := trace st
                       ++ [EvLock; EvUpdateOperatorSocket newSocketAddr None;
                           EvLog "info" "Socket update";
                           EvRecordSocketAddressChange;
                           EvSetCurrentSocket newSocketAddr; EvUnlock] |})
    end.
Proof.
  intros Hmu Hne. unfold updateSocketAddress, bind, Lock. rewrite Hmu. simpl.
  apply String.eqb_neq in Hne. rewrite Hne.
  unfold callUpdateOperatorSocket. simpl.
  destruct (UpdateOperatorSocket n (world st) newSocketAddr) as [w [e|]]; simpl;
    unfold Unlock; simpl; by rewrite <- !app_assoc.
Qed.

(** C8.  [updateSocketAddress] with a socket that differs from
    [CurrentSocket], started with the mutex free: it returns with the mutex
    released; if the on-chain update fails the failure is logged and
    [CurrentSocket] is unchanged; [CurrentSocket] is the new value afterwards
    exactly when the on-chain update succeeded. *)
Theorem updateSocketAddress_on_failure {W : Type} (n : Node W) newSocketAddr st :
  mu st = false ->
  newSocketAddr <> CurrentSocket st ->
  exists st',
    updateSocketAddress n newSocketAddr st = Some (tt, st')
    /\ mu st' = false
    /\ (forall e, snd (UpdateOperatorSocket n (world st) newSocketAddr) = Some e ->
          CurrentSocket st' = CurrentSocket st
          /\ trace st'
             = trace st
               ++ [EvLock; EvUpdateOperatorSocket newSocketAddr (Some e);
                   EvLog "error" "failed to update operator's socket"; EvUnlock])
    /\ (CurrentSocket st' = newSocketAddr
        <-> snd (UpdateOperatorSocket n (world st) newSocketAddr) = None).
Proof.
  intros Hmu Hne. rewrite (updateSocketAddress_differs n _ _ Hmu Hne).
  destruct (UpdateOperatorSocket n (world st) newSocketAddr) as [w [e|]];
    eexists; (split; [reflexivity|]); simpl; (split; [done|]); split.
  - by intros e' [= <-].
  - split; [|done]. intros H. by symmetry in H.
  - done.
  - done.
Qed.

Lemma onSocketEvent_eq {W : Type} (socket : string) (st : state W) :
  mu st = false ->
  onSocketEvent socket st
  = Some (tt,
      if String.eqb socket (CurrentSocket st)
      then {| CurrentSocket := CurrentSocket st; mu := false; world := world st;
              trace := trace st ++ [EvLock; EvUnlock] |}
      else {| CurrentSocket := socket; mu := false; world := world st;
              trace := trace st
                ++ [EvLock;
                    EvLog "info"
                      "Detected socket registered onchain which is different than the socket kept at the DA Node";
                    EvSetCurrentSocket socket; EvUnlock] |}).
Proof.
  intros Hmu. unfold onSocketEvent, bind, Lock. rewrite Hmu. simpl.
  destruct (String.eqb socket (CurrentSocket st)); simpl;
    unfold Unlock; simpl; by rewrite <- !app_assoc.
Qed.

Lemma writes_under_lock_app held a b :
  writes_under_lock held (a ++ b)
  = writes_under_lock held a && writes_under_lock (held_after held a) b.
Proof.
  revert held. induction a as [|e a IH]; intros held; simpl; [done|].
  destruct e; simpl; rewrite ?IH; try done.
  by rewrite andb_assoc.
Qed.

Lemma held_after_app held a b :
  held_after held (a ++ b) = held_after (held_after held a) b.
Proof.
  revert held. induction a as [|e a IH]; intros held; simpl; [done|].
  destruct e; simpl; by rewrite ?IH.
Qed.

Lemma disciplined_ret {W : Type} : disciplined (ret tt : M W unit).
Proof.
  intros st Hmu. exists st, []. by rewrite app_nil_r.
Qed.

Lemma disciplined_bind {W : Type} (m1 m2 : M W unit) :
  disciplined m1 -> disciplined m2 -> disciplined (bind m1 (fun _ => m2)).
Proof.
  intros H1 H2 st Hmu.
  destruct (H1 st Hmu) as (st1 & e1 & Hr1 & Hmu1 & Ht1 & Hw1 & Hh1).
  destruct (H2 st1 Hmu1) as (st2 & e2 & Hr2 & Hmu2 & Ht2 & Hw2 & Hh2).
  exists st2, (e1 ++ e2). unfold bind. rewrite Hr1. repeat split; try done.
  - by rewrite Ht2, Ht1, app_assoc.
  - by rewrite writes_under_lock_app, Hw1, Hh1.
  - by rewrite held_after_app, Hh1.
Qed.

Lemma disciplined_when {W : Type} (b : bool) (m : M W unit) :
  disciplined m -> disciplined (when b m).
Proof. destruct b; [done|]. intros _. apply disciplined_ret. Qed.

Lemma disciplined_log {W : Type} level msg :
  disciplined (emit (EvLog level msg) : M W unit).
Proof.
  intros st Hmu. eexists _, [EvLog level msg]. by repeat split.
Qed.

Lemma disciplined_onSocketEvent {W : Type} socket :
  disciplined (onSocketEvent socket : M W unit).
Proof.
  intros st Hmu. rewrite (onSocketEvent_eq _ _ Hmu).
  destruct (String.eqb socket (CurrentSocket st)); eexists _, _;
    (split; [reflexivity|]); by repeat split.
Qed.

Lemma disciplined_updateSocketAddress {W : Type} (n : Node W) newSocketAddr :
  disciplined (updateSocketAddress n newSocketAddr).
Proof.
  intros st Hmu.
  destruct (decide (newSocketAddr = CurrentSocket st)) as [Heq|Hne].
  - rewrite (updateSocketAddress_same n _ _ Hmu Heq).
    eexists _, _. (split; [reflexivity|]); by repeat split.
  - rewrite (updateSocketAddress_differs n _ _ Hmu Hne).
    destruct (UpdateOperatorSocket n (world st) newSocketAddr) as [w [e|]];
      eexists _, _; (split; [reflexivity|]); by repeat split.
Qed.

Lemma disciplined_forEach {W A : Type} (l : list A) (f : A -> M W unit) :
  (forall a, disciplined (f a)) -> disciplined (forEach l f).
Proof.
  intros Hf. induction l as [|a l IH]; simpl.
  - apply disciplined_ret.
  - by apply disciplined_bind.
Qed.

Lemma disciplined_onTimer {W : Type} (n : Node W) : disciplined (onTimer n).
Proof.
  intros st Hmu. unfold onTimer, socketAddress, bind, callPublicIPAddress.
  destruct (PublicIPAddress n (world st)) as [w [ip|e]] eqn:Hip; simpl.
  - set (st1 := {| CurrentSocket := CurrentSocket st; mu := mu st; world := w;
                   trace := trace st ++ [EvPublicIPAddress (inl ip)] |}).
    destruct (disciplined_updateSocketAddress n
                (MakeOperatorSocket n ip (DispersalPort (NodeConfig n))
                                         (RetrievalPort (NodeConfig n))) st1 Hmu)
      as (st2 & evs & Hr & Hmu2 & Ht & Hw & Hh).
    exists st2, (EvPublicIPAddress (inl ip) :: evs). rewrite Hr.
    repeat split; try done. rewrite Ht. simpl. by rewrite <- app_assoc.
  - eexists _, [EvPublicIPAddress (inr e);
                EvLog "error" "failed to get socket address"].
    unfold emit. simpl. repeat split; try done. simpl. by rewrite <- app_assoc.
Qed.

Lemma disciplined_selectLoop {W : Type} c (body : M W unit) periods :
  disciplined body -> forall k, disciplined (selectLoop c body k periods).
Proof.
  intros Hb. induction periods as [|p IH]; intros k; simpl.
  - apply disciplined_ret.
  - apply disciplined_bind; [by apply disciplined_when|apply IH].
Qed.

Lemma new_events_disciplined {W : Type} (m : M W unit) st :
  disciplined m -> mu st = false ->
  writes_under_lock false (new_events m st) = true.
Proof.
  intros Hm Hmu. destruct (Hm st Hmu) as (st' & evs & Hr & _ & Ht & Hw & _).
  unfold new_events. by rewrite Hr, Ht, drop_app_length.
Qed.

(** After its first period the channel of a timer stays silent. *)
Lemma selectLoop_timer_done {W : Type} (body : M W unit) periods : forall k st,
  2 <= k -> selectLoop Clock.NewTimer body k periods st = Some (tt, st).
Proof.
  induction periods as [|p IH]; intros k st Hk; simpl; [done|].
  unfold bind. assert ((k =? 1) = false) as ->.
  { apply Nat.eqb_neq. lia. }
  simpl. apply IH. lia.
Qed.

(** The channel of a ticker wakes the loop in every period. *)
Lemma selectLoop_ticker {W : Type} (body : M W unit) periods k :
  1 <= k ->
  selectLoop Clock.NewTicker body k (S periods)
  = bind body (fun _ => selectLoop Clock.NewTicker body (S k) periods).
Proof.
  intros Hk. destruct k as [|k]; [lia|]. done.
Qed.

(** C7.  What the code does where a poll in every interval is expected:
    the loop of [checkCurrentNodeIp] waits on the channel of a
    [time.NewTimer], which delivers once; however many intervals go by, the
    loop runs its body once, in the first. *)
Theorem checkCurrentNodeIp_fires_once {W : Type} (n : Node W) periods st :
  checkCurrentNodeIp n (S periods) st = onTimer n st.
Proof.
  unfold checkCurrentNodeIp. simpl. unfold bind.
  destruct (onTimer n st) as [[[] st']|]; [|done].
  apply selectLoop_timer_done. lia.
Qed.

(** One pass through the body of the poll asks the provider once and makes
    at most one attempt at the on-chain update. *)
Lemma onTimer_queries_once {W : Type} (n : Node W) st :
  mu st = false ->
  exists st', onTimer n st = Some (tt, st')
    /\ queries (new_events (onTimer n) st) = 1
    /\ updates (new_events (onTimer n) st) <= 1.
Proof.
  intros Hmu. unfold new_events.
  unfold onTimer, socketAddress, bind, callPublicIPAddress.
  destruct (PublicIPAddress n (world st)) as [w [ip|e]] eqn:Hip; simpl.
  - set (st1 := {| CurrentSocket := CurrentSocket st; mu := mu st; world := w;
                   trace := trace st ++ [EvPublicIPAddress (inl ip)] |}).
    set (new := MakeOperatorSocket n ip (DispersalPort (NodeConfig n))
                                        (RetrievalPort (NodeConfig n))).
    destruct (decide (new = CurrentSocket st1)) as [Heq|Hne].
    + rewrite (updateSocketAddress_same n _ st1 Hmu Heq).
      eexists. split; [reflexivity|]. simpl.
      rewrite <- app_assoc, drop_app_length. unfold queries, updates. simpl.
      split; [done|lia].
    + rewrite (updateSocketAddress_differs n _ st1 Hmu Hne). simpl.
      destruct (UpdateOperatorSocket n w new) as [w' [e|]];
        (eexists; split; [reflexivity|]); simpl;
        rewrite <- app_assoc, drop_app_length; unfold queries, updates; simpl;
        (split; [done|lia]).
  - eexists. split; [reflexivity|]. simpl.
    rewrite <- app_assoc, drop_app_length. unfold queries, updates. simpl.
      split; [done|lia].
Qed.

Lemma new_events_Start {W : Type} (n : Node W) st :
  writes_before_watchers (new_events (Start n) st) = true
  /\ forall st',
       Start n st = Some (None, st') ->
       CurrentSocket st'
       = MakeOperatorSocket n (Hostname (NodeConfig n))
           (DispersalPort (NodeConfig n)) (RetrievalPort (NodeConfig n))
       /\ writes_under_lock false (new_events (Start n) st) = false.
Proof.
  unfold new_events, Start, bind, when, emit, ret, callRegisterOperator,
    writeCurrentSocket.
  destruct (EnableMetrics (NodeConfig n)), (EnableNodeApi (NodeConfig n)),
    (RegisterNodeAtStart (NodeConfig n)); simpl;
    try (destruct (RegisterOperator n (world st) _) as [w [e|]]); simpl;
    destruct (0 <? PubIPCheckInterval (NodeConfig n))%Z; simpl;
    rewrite <- ?app_assoc, ?drop_app_length; simpl;
    (split; [done|]); intros st' [= <-]; simpl; done.
Qed.

(** C9 (as amended).  The on-chain watch loop and the update path of the
    local-IP poll write [CurrentSocket] only while they hold the mutex, and
    release it before they return.  [Start] writes [CurrentSocket] without
    taking the mutex, and does so before it starts either watcher. *)
Theorem lock_discipline_of_the_watchers {W : Type} (n : Node W) :
  (forall watch, disciplined (checkRegisteredNodeIpOnChain (W := W) watch))
  /\ (forall newSocketAddr, disciplined (updateSocketAddress n newSocketAddr))
  /\ (forall periods, disciplined (checkCurrentNodeIp n periods))
  /\ (forall st,
        writes_before_watchers (new_events (Start n) st) = true
        /\ forall st',
             Start n st = Some (None, st') ->
             CurrentSocket st'
             = MakeOperatorSocket n (Hostname (NodeConfig n))
                 (DispersalPort (NodeConfig n)) (RetrievalPort (NodeConfig n))
             /\ writes_under_lock false (new_events (Start n) st) = false).
Proof.
  split; [|split; [|split]].
  - intros [socketChan|e]; simpl.
    + apply disciplined_forEach. intros socket. apply disciplined_onSocketEvent.
    + apply disciplined_ret.
  - apply disciplined_updateSocketAddress.
  - intros periods. apply disciplined_selectLoop. apply disciplined_onTimer.
  - apply new_events_Start.
Qed.

(** C9, counterexample.  The write of [CurrentSocket] in [Start] is made
    with the mutex free. *)
Lemma startup_write_is_not_locked :
  ~ stated_lock_discipline (flakyNode "10.0.0.7") (fresh 0 "") "a:1;2" "b:1;2".
Proof. intros [H _]. vm_compute in H. discriminate H. Qed.

(** C9, witness: two events of the on-chain watch, and three intervals of
    the poll with a transactor that fails. *)
Lemma lock_discipline_of_the_watchers_witness :
  writes_under_lock false
    (new_events (checkRegisteredNodeIpOnChain (inl ["a:1;2"; "b:1;2"]))
                (fresh 0 "a:1;2")) = true
  /\ writes_under_lock false
       (new_events (checkCurrentNodeIp (flakyNode "10.0.0.7") 3)
                   (fresh 1 "node.example:32005;32004")) = true.
Proof.
  destruct (lock_discipline_of_the_watchers (flakyNode "10.0.0.7"))
    as (Hw & _ & Hp & _).
  split; apply new_events_disciplined;
    [apply Hw | reflexivity | apply Hp | reflexivity].
Defined.

(** C8, witness: the public IP has changed and the transactor fails. *)
Lemma updateSocketAddress_on_failure_witness :
  let n := flakyNode "10.0.0.7" in
  let st := fresh 1 "node.example:32005;32004" in
  exists st',
    updateSocketAddress n "10.0.0.7:32005;32004" st = Some (tt, st')
    /\ mu st' = false
    /\ (forall e, snd (UpdateOperatorSocket n (world st) "10.0.0.7:32005;32004")
                  = Some e ->
          CurrentSocket st' = CurrentSocket st
          /\ trace st'
             = trace st
               ++ [EvLock; EvUpdateOperatorSocket "10.0.0.7:32005;32004" (Some e);
                   EvLog "error" "failed to update operator's socket"; EvUnlock])
    /\ (CurrentSocket st' = "10.0.0.7:32005;32004"
        <-> snd (UpdateOperatorSocket n (world st) "10.0.0.7:32005;32004") = None).
Proof.
  intros n st.
  apply (updateSocketAddress_on_failure n "10.0.0.7:32005;32004" st).
  - reflexivity.
  - discriminate.
Defined.

(** The transactor fails once.  Three poll intervals go by: the timer wakes
    the loop in the first, the update fails, and nothing is tried again; on
    the channel of a ticker the second pass would have brought the socket up
    to date. *)
Example failed_update_is_not_retried :
  let n := flakyNode "10.0.0.7" in
  let st := fresh 1 "node.example:32005;32004" in
  (exists st',
     checkCurrentNodeIp n 3 st = Some (tt, st')
     /\ queries (trace st') = 1 /\ updates (trace st') = 1
     /\ CurrentSocket st' = "node.example:32005;32004")
  /\ (exists st',
        selectLoop Clock.NewTicker (onTimer n) 1 3 st = Some (tt, st')
        /\ queries (trace st') = 3 /\ updates (trace st') = 2
        /\ CurrentSocket st' = "10.0.0.7:32005;32004").
Proof. split; eexists; vm_compute; repeat split; done. Qed.

(** An event of the on-chain watch makes [CurrentSocket] the observed value,
    under the mutex. *)
Example socket_converges :
  exists st',
    checkRegisteredNodeIpOnChain (inl ["a:1;2"; "b:1;2"]) (fresh 0 "a:1;2")
    = Some (tt, st')
    /\ CurrentSocket st' = "b:1;2"
    /\ writes_under_lock false (trace st') = true.
Proof. eexists. vm_compute. repeat split; done. Qed.

Lemma forEach_onSocketEvent {W : Type} (l : list string) : forall st : state W,
  mu st = false ->
  exists st' evs,
    forEach l onSocketEvent st = Some (tt, st')
    /\ mu st' = false
    /\ world st' = world st
    /\ CurrentSocket st' = default (CurrentSocket st) (last l)
    /\ trace st' = trace st ++ evs
    /\ forallb (fun e => negb (is_call e)) evs = true.
Proof.
  induction l as [|socket l IH]; intros st Hmu; simpl.
  - exists st, []. by rewrite app_nil_r.
  - unfold bind. rewrite (onSocketEvent_eq socket st Hmu).
    set (st1 := if String.eqb socket (CurrentSocket st) then _ else _).
    assert (mu st1 = false /\ world st1 = world st /\ CurrentSocket st1 = socket
            /\ exists evs1, trace st1 = trace st ++ evs1
                 /\ forallb (fun e => negb (is_call e)) evs1 = true)
      as (Hmu1 & Hw1 & Hc1 & evs1 & Ht1 & He1).
    { subst st1. destruct (String.eqb socket (CurrentSocket st)) eqn:Heq; simpl.
      - apply String.eqb_eq in Heq. repeat split; try done. by eexists.
      - repeat split; try done. by eexists. }
    destruct (IH st1 Hmu1) as (st' & evs & Hrun & Hmu' & Hw' & Hc' & Ht' & He').
    exists st', (evs1 ++ evs). split; [done|]. split; [done|].
    split; [congruence|]. split.
    + rewrite Hc', Hc1, last_cons. by destruct (last l).
    + split; [by rewrite Ht', Ht1, app_assoc|].
      by rewrite forallb_app, He1, He'.
Qed.

(** X9.  The on-chain watch, started with the mutex free: whatever sockets the
    chain reports, the watch returns with the mutex released and
    [CurrentSocket] is the socket reported last (unchanged when there is
    none); it never calls the transactor or the public-IP provider.  When
    the subscription fails the watch returns at once and nothing has
    happened. *)
Theorem watch_follows_the_chain {W : Type} (watch : list string + error)
    (st : state W) :
  mu st = false ->
  exists st',
    checkRegisteredNodeIpOnChain watch st = Some (tt, st')
    /\ mu st' = false
    /\ world st' = world st
    /\ CurrentSocket st'
       = match watch with
         | inl socketChan => default (CurrentSocket st) (last socketChan)
         | inr _ => CurrentSocket st
         end
    /\ forallb (fun e => negb (is_call e))
         (new_events (checkRegisteredNodeIpOnChain watch) st) = true
    /\ (forall e, watch = inr e -> st' = st).
Proof.
  intros Hmu. destruct watch as [socketChan|e]; simpl.
  - destruct (forEach_onSocketEvent socketChan st Hmu)
      as (st' & evs & Hrun & Hmu' & Hw' & Hc' & Ht' & He').
    exists st'. unfold new_events. simpl. rewrite Hrun, Ht', drop_app_length.
    by repeat split.
  - exists st. unfold new_events, ret. simpl. rewrite drop_all. by repeat split.
Qed.

(** X9, witness: the chain reports three sockets. *)
Lemma watch_follows_the_chain_witness :
  exists st',
    checkRegisteredNodeIpOnChain (inl ["a:1;2"; "b:1;2"; "b:1;2"]) (fresh 3 "a:1;2")
    = Some (tt, st')
    /\ mu st' = false
    /\ world st' = 3
    /\ CurrentSocket st' = "b:1;2".
Proof.
  destruct (watch_follows_the_chain (inl ["a:1;2"; "b:1;2"; "b:1;2"])
              (fresh 3 "a:1;2") eq_refl)
    as (st' & Hrun & Hmu & Hw & Hc & _).
  exists st'. by repeat split.
Defined.

(** X10.  The local-IP poll when the provider fails in the first interval:
    [socketAddress] returns the error wrapped, the pass logs it and does
    nothing else; the mutex is not taken, the transactor is not called and
    [CurrentSocket] stays as it is.  The timer does not fire again, so this
    is the state in which [checkCurrentNodeIp] ends, however many intervals
    go by. *)
Theorem poll_without_an_address {W : Type} (n : Node W) (st : state W) w e :
  PublicIPAddress n (world st) = (w, inr e) ->
  socketAddress n st
  = Some (inr (ErrWrap "failed to get public ip address from IP provider" e),
          {| CurrentSocket := CurrentSocket st; mu := mu st; world := w;
             trace := trace st ++ [EvPublicIPAddress (inr e)] |})
  /\ forall periods,
       checkCurrentNodeIp n (S periods) st
       = Some (tt, {| CurrentSocket := CurrentSocket st; mu := mu st; world := w;
                      trace := trace st
                        ++ [EvPublicIPAddress (inr e);
                            EvLog "error" "failed to get socket address"] |}).
Proof.
  intros Hip.
  assert (socketAddress n st
          = Some (inr (ErrWrap "failed to get public ip address from IP provider" e),
                  {| CurrentSocket := CurrentSocket st; mu := mu st; world := w;
                     trace := trace st ++ [EvPublicIPAddress (inr e)] |})) as Hsa.
  { unfold socketAddress, bind, callPublicIPAddress. by rewrite Hip. }
  split; [exact Hsa|]. intros periods.
  unfold checkCurrentNodeIp. simpl. unfold bind at 1. unfold onTimer, bind at 1.
  rewrite Hsa. unfold emit. simpl. rewrite <- app_assoc. simpl.
  apply selectLoop_timer_done. lia.
Qed.

(** X10, witness: the provider has no route, and three intervals go by. *)
Lemma poll_without_an_address_witness :
  checkCurrentNodeIp refusedNode 3 (fresh 0 "a:1;2")
  = Some (tt, {| CurrentSocket := "a:1;2"; mu := false; world := 0;
                 trace := [EvPublicIPAddress (inr (ErrOpaque "no route to host"));
                           EvLog "error" "failed to get socket address"] |}).
Proof.
  apply (poll_without_an_address refusedNode (fresh 0 "a:1;2") 0
           (ErrOpaque "no route to host")).
  reflexivity.
Defined.

(** X11.  A pass of the local-IP poll in which the provider answers, started with
    the mutex free: the socket is rebuilt from the address and the two
    configured ports; the transactor is called exactly when that socket
    differs from [CurrentSocket], and then once; afterwards [CurrentSocket]
    is the rebuilt socket unless the transactor refused it, in which case
    it is unchanged. *)
Theorem poll_with_an_address {W : Type} (n : Node W) (st : state W) w ip :
  mu st = false ->
  PublicIPAddress n (world st) = (w, inl ip) ->
  let socket := MakeOperatorSocket n ip (DispersalPort (NodeConfig n))
                                        (RetrievalPort (NodeConfig n)) in
  exists st',
    onTimer n st = Some (tt, st')
    /\ mu st' = false
    /\ updates (new_events (onTimer n) st)
       = (if String.eqb socket (CurrentSocket st) then 0 else 1)
    /\ CurrentSocket st'
       = (if String.eqb socket (CurrentSocket st) then socket
          else match snd (UpdateOperatorSocket n w socket) with
               | None => socket
               | Some _ => CurrentSocket st
               end).
Proof.
  intros Hmu Hip socket. unfold new_events.
  unfold onTimer, socketAddress, bind, callPublicIPAddress.
  rewrite Hip. simpl. fold socket.
  set (st1 := {| CurrentSocket := CurrentSocket st; mu := mu st; world := w;
                 trace := trace st ++ [EvPublicIPAddress (inl ip)] |}).
  destruct (String.eqb socket (CurrentSocket st)) eqn:Heq.
  - apply String.eqb_eq in Heq.
    rewrite (updateSocketAddress_same n socket st1 Hmu Heq).
    eexists. split; [reflexivity|]. simpl.
    rewrite <- app_assoc, drop_app_length. unfold updates. simpl. done.
  - apply String.eqb_neq in Heq.
    rewrite (updateSocketAddress_differs n socket st1 Hmu Heq). simpl.
    destruct (UpdateOperatorSocket n w socket) as [w' [e|]];
      (eexists; split; [reflexivity|]); simpl;
      rewrite <- app_assoc, drop_app_length; unfold updates; simpl; done.
Qed.

(** X11, witness: the public address has changed and the transactor
    accepts the update. *)
Lemma poll_with_an_address_witness :
  exists st',
    onTimer (flakyNode "10.0.0.7") (fresh 0 "node.example:32005;32004")
    = Some (tt, st')
    /\ mu st' = false
    /\ updates (new_events (onTimer (flakyNode "10.0.0.7"))
                  (fresh 0 "node.example:32005;32004")) = 1
    /\ CurrentSocket st' = "10.0.0.7:32005;32004".
Proof.
  apply (poll_with_an_address (flakyNode "10.0.0.7")
           (fresh 0 "node.example:32005;32004") 0 "10.0.0.7");
    reflexivity.
Defined.

(** X12.  [updateSocketAddress] with the socket that is current already is a
    no-op on the chain: no call to the transactor, no metric, no write.  So
    once a call has made [newSocketAddr] current, a second call with the
    same socket leaves the world and [CurrentSocket] as they are. *)
Theorem update_is_not_repeated {W : Type} (n : Node W) newSocketAddr
    (st st1 : state W) :
  mu st = false ->
  updateSocketAddress n newSocketAddr st = Some (tt, st1) ->
  CurrentSocket st1 = newSocketAddr ->
  updateSocketAddress n newSocketAddr st1
  = Some (tt, {| CurrentSocket := newSocketAddr; mu := false; world := world st1;
                 trace := trace st1 ++ [EvLock; EvUnlock] |}).
Proof.
  intros Hmu Hrun Hcur.
  assert (mu st1 = false) as Hmu1.
  { destruct (disciplined_updateSocketAddress n newSocketAddr st Hmu)
      as (st' & evs & Hrun' & Hmu' & _).
    congruence. }
  rewrite (updateSocketAddress_same n newSocketAddr st1 Hmu1 (eq_sym Hcur)).
  by rewrite Hcur.
Qed.

(** X12, witness: two calls with the new socket. *)
Lemma update_is_not_repeated_witness :
  exists st1,
    updateSocketAddress (flakyNode "10.0.0.7") "10.0.0.7:32005;32004"
      (fresh 0 "node.example:32005;32004") = Some (tt, st1)
    /\ updateSocketAddress (flakyNode "10.0.0.7") "10.0.0.7:32005;32004" st1
       = Some (tt, {| CurrentSocket := "10.0.0.7:32005;32004"; mu := false;
                      world := world st1;
                      trace := trace st1 ++ [EvLock; EvUnlock] |}).
Proof.
  eexists. split; [reflexivity|].
  apply (update_is_not_repeated (flakyNode "10.0.0.7") "10.0.0.7:32005;32004"
           (fresh 0 "node.example:32005;32004"));
    reflexivity.
Defined.

Ltac start_cases n st :=
  unfold new_events, Start, bind, when, emit, ret, callRegisterOperator,
    writeCurrentSocket, configuredSocket;
  destruct (EnableMetrics (NodeConfig n)), (EnableNodeApi (NodeConfig n));
  simpl.

(** X13.  [Start] when registration at start is configured and the transactor
    refuses it: the error is returned wrapped, [CurrentSocket] is not
    written and neither watcher is started; the expiration loop is running
    by then, and so are the metrics server and the node API if they are
    enabled. *)
Theorem Start_with_refused_registration {W : Type} (n : Node W) (st : state W) w e :
  RegisterNodeAtStart (NodeConfig n) = true ->
  RegisterOperator n (world st) (configuredSocket n) = (w, Some e) ->
  exists st',
    Start n st = Some (Some (ErrWrap "failed to register the operator" e), st')
    /\ CurrentSocket st' = CurrentSocket st
    /\ mu st' = mu st
    /\ world st' = w
    /\ forallb (fun ev => negb (is_write ev)) (new_events (Start n) st) = true
    /\ forallb (fun ev => negb (is_watcher ev)) (new_events (Start n) st) = true
    /\ starts "expireLoop" (new_events (Start n) st) = true
    /\ existsb (fun ev => match ev with EvMetricsStart => true | _ => false end)
         (new_events (Start n) st)
       = EnableMetrics (NodeConfig n)
    /\ existsb (fun ev => match ev with EvNodeApiStart => true | _ => false end)
         (new_events (Start n) st)
       = EnableNodeApi (NodeConfig n).
Proof.
  intros Hreg Hro. unfold configuredSocket in Hro.
  start_cases n st; rewrite Hreg; simpl; rewrite Hro; simpl;
    (eexists; split; [reflexivity|]); simpl;
    rewrite <- ?app_assoc, ?drop_app_length; simpl; done.
Qed.

(** X13, witness: the churner is not available. *)
Lemma Start_with_refused_registration_witness :
  exists st',
    Start refusedNode (fresh 0 "")
    = Some (Some (ErrWrap "failed to register the operator"
                    (ErrOpaque "churner unavailable")), st')
    /\ CurrentSocket st' = ""
    /\ world st' = 1
    /\ starts "expireLoop" (trace st') = true
    /\ starts "checkCurrentNodeIp" (trace st') = false.
Proof.
  destruct (Start_with_refused_registration refusedNode (fresh 0 "") 1
              (ErrOpaque "churner unavailable") eq_refl eq_refl)
    as (st' & Hrun & Hc & _ & Hw & _).
  exists st'. split; [exact Hrun|]. split; [exact Hc|]. split; [exact Hw|].
  injection Hrun as <-. by vm_compute.
Defined.

(** X14.  [Start] never waits for the mutex.  It returns nil exactly when
    registration at start is switched off or the transactor accepts it; in
    that case [CurrentSocket] is the socket built from the configured
    hostname and ports, the same string that was registered.  The two
    watchers are started together, and only when [Start] returns nil with a
    positive [PubIPCheckInterval]; the expiration loop is started on every
    path. *)
Theorem Start_outcome {W : Type} (n : Node W) (st : state W) :
  exists r st',
    Start n st = Some (r, st')
    /\ (r = None
        <-> RegisterNodeAtStart (NodeConfig n) = false
            \/ snd (RegisterOperator n (world st) (configuredSocket n)) = None)
    /\ (r = None -> CurrentSocket st' = configuredSocket n)
    /\ (forall socket err,
          EvRegisterOperator socket err ∈ new_events (Start n) st ->
          RegisterNodeAtStart (NodeConfig n) = true
          /\ socket = configuredSocket n)
    /\ starts "expireLoop" (new_events (Start n) st) = true
    /\ starts "checkRegisteredNodeIpOnChain" (new_events (Start n) st)
       = starts "checkCurrentNodeIp" (new_events (Start n) st)
    /\ starts "checkCurrentNodeIp" (new_events (Start n) st)
       = match r with
         | None => (0 <? PubIPCheckInterval (NodeConfig n))%Z
         | Some _ => false
         end.
Proof.
  start_cases n st;
    destruct (RegisterNodeAtStart (NodeConfig n)); simpl;
    try (destruct (RegisterOperator n (world st) _) as [w [e|]]); simpl;
    destruct (0 <? PubIPCheckInterval (NodeConfig n))%Z; simpl;
    (eexists; eexists; split; [reflexivity|]); simpl;
    rewrite <- ?app_assoc, ?drop_app_length; simpl;
    (split; [split; [intros; auto; done | intros [|]; done]|]);
    (split; [done|]);
    (split; [|done]);
    intros socket err H;
    repeat first [ apply elem_of_cons in H as [H|H]
                 | apply elem_of_nil in H; destruct H
                 | discriminate H ];
    injection H as -> _; done.
Qed.

End SocketFacts.

(** ** The budget of the expiration sweeper *)
Module GCFacts.
Import GC.
Local Open Scope Z_scope.

Lemma digits2_pos_size p : digits2_pos p = Pos.size p.
Proof. induction p; simpl; congruence. Qed.

(** The number of binary digits of a positive number. *)
Lemma digits2_pos_bounds p :
  2 ^ (Z.pos (digits2_pos p) - 1) <= Z.pos p < 2 ^ Z.pos (digits2_pos p).
Proof.
  rewrite digits2_pos_size. split.
  - pose proof (Pos.size_le p) as H.
    assert (Z.pos (2 ^ Pos.size p) <= Z.pos p~0) as HZ by exact H.
    rewrite Pos2Z.inj_pow in HZ.
    replace (Z.pos (Pos.size p)) with (Z.pos (Pos.size p) - 1 + 1) in HZ by lia.
    rewrite Z.pow_add_r in HZ by lia. lia.
  - pose proof (Pos.size_gt p) as H.
    assert (Z.pos p < Z.pos (2 ^ Pos.size p)) as HZ by exact H.
    by rewrite Pos2Z.inj_pow in HZ.
Qed.

Lemma digits2_pos_unique p d :
  2 ^ (d - 1) <= Z.pos p < 2 ^ d -> Z.pos (digits2_pos p) = d.
Proof.
  intros [Hlo Hhi]. pose proof (digits2_pos_bounds p) as [Hlo' Hhi'].
  assert (0 < d).
  { destruct (Z.lt_trichotomy d 0) as [Hd|[->|Hd]]; [|simpl in Hhi; lia|done].
    rewrite Z.pow_neg_r in Hhi by lia. lia. }
  destruct (Z.lt_trichotomy (Z.pos (digits2_pos p)) d) as [Hlt|[Heq|Hgt]]; [|done|].
  - assert (2 ^ Z.pos (digits2_pos p) <= 2 ^ (d - 1))
      by (apply Z.pow_le_mono_r; lia). lia.
  - assert (2 ^ d <= 2 ^ (Z.pos (digits2_pos p) - 1))
      by (apply Z.pow_le_mono_r; lia). lia.
Qed.

Lemma iter_xO p k : Z.pos (Pos.iter xO p k) = Z.pos p * 2 ^ Z.pos k.
Proof.
  induction k as [|k IH] using Pos.peano_ind.
  - simpl. lia.
  - rewrite Pos.iter_succ, Pos2Z.inj_xO, IH, Pos2Z.inj_succ, Z.pow_succ_r by lia.
    lia.
Qed.

Lemma iter_pos_nat {A : Type} (f : A -> A) p x :
  SpecFloat.iter_pos f p x = Nat.iter (Pos.to_nat p) f x.
Proof.
  revert x. induction p as [p IH|p IH|]; intros x.
  - change (SpecFloat.iter_pos f p~1 x)
      with (SpecFloat.iter_pos f p (SpecFloat.iter_pos f p (f x))).
    rewrite !IH, Pos2Nat.inj_xI.
    replace (S (2 * Pos.to_nat p))%nat
      with (Pos.to_nat p + S (Pos.to_nat p))%nat by lia.
    by rewrite Nat.iter_add, Nat.iter_succ_r.
  - change (SpecFloat.iter_pos f p~0 x)
      with (SpecFloat.iter_pos f p (SpecFloat.iter_pos f p x)).
    rewrite !IH, Pos2Nat.inj_xO.
    replace (2 * Pos.to_nat p)%nat with (Pos.to_nat p + Pos.to_nat p)%nat by lia.
    by rewrite Nat.iter_add.
  - done.
Qed.

Lemma shifted_step M k rec :
  0 <= k -> shifted M k rec -> shifted M (k + 1) (shr_1 rec).
Proof.
  intros Hk (Hm & [Hlo Hhi] & Hr). destruct rec as [m r s]. simpl in *.
  assert (0 < 2 ^ k) as HX by (apply Z.pow_pos_nonneg; lia).
  assert (2 ^ (k + 1) = 2 * 2 ^ k) as Hp by (rewrite Z.pow_add_r; lia).
  unfold shifted. rewrite Hp. clear Hp Hr.
  set (X := 2 ^ k) in *. clearbody X.
  destruct m as [|[p|p|]|p]; simpl.
  - repeat split; try done; lia.
  - rewrite Pos2Z.inj_xI in *. repeat split; lia.
  - rewrite Pos2Z.inj_xO in *. repeat split; try done; lia.
  - repeat split; lia.
  - lia.
Qed.

Lemma shifted_iter M (n : nat) : forall k rec,
  0 <= k -> shifted M k rec -> shifted M (k + Z.of_nat n) (Nat.iter n shr_1 rec).
Proof.
  induction n as [|n IH]; intros k rec Hk H.
  - simpl. by rewrite Z.add_0_r.
  - rewrite Nat.iter_succ_r.
    replace (k + Z.of_nat (S n)) with (k + 1 + Z.of_nat n) by lia.
    apply IH; [lia|]. by apply shifted_step.
Qed.

Lemma shifted_start M : 0 <= M -> shifted M 0 (Build_shr_record M false false).
Proof. intros HM. unfold shifted; simpl. repeat split; try done; lia. Qed.

Lemma fexp_normal e : -1074 <= e - 53 -> fexp prec emax e = e - 53.
Proof. unfold fexp, emin, prec, emax. lia. Qed.

(** A mantissa of 53 digits is not shifted. *)
Lemma shr_fexp_53 m ex l :
  Z.pos (digits2_pos m) = 53 -> -1074 <= ex ->
  shr_fexp prec emax (Z.pos m) ex l = (shr_record_of_loc (Z.pos m) l, ex).
Proof.
  intros Hd Hex. unfold shr_fexp. unfold Zdigits2. rewrite Hd.
  rewrite fexp_normal by lia.
  replace (53 + ex - 53 - ex) with 0 by lia. done.
Qed.

(** A longer mantissa is shifted down to 53 digits. *)
Lemma shr_fexp_long m ex :
  53 < Z.pos (digits2_pos m) -> -1074 <= Z.pos (digits2_pos m) + ex - 53 ->
  shr_fexp prec emax (Z.pos m) ex loc_Exact
  = (Nat.iter (Z.to_nat (Z.pos (digits2_pos m) - 53)) shr_1
       (Build_shr_record (Z.pos m) false false),
     ex + (Z.pos (digits2_pos m) - 53)).
Proof.
  intros Hd Hex. unfold shr_fexp. unfold Zdigits2.
  rewrite fexp_normal by lia.
  replace (Z.pos (digits2_pos m) + ex - 53 - ex)
    with (Z.pos (digits2_pos m) - 53) by lia.
  destruct (Z.pos (digits2_pos m) - 53) as [|s|s] eqn:Hs; try lia.
  unfold shr. simpl shr_record_of_loc. by rewrite iter_pos_nat.
Qed.

Lemma binary_round_aux_53 m ex :
  Z.pos (digits2_pos m) = 53 -> -1074 <= ex <= 971 ->
  binary_round_aux prec emax false (Z.pos m) ex loc_Exact = S754_finite false m ex.
Proof.
  intros Hd Hex. unfold binary_round_aux.
  rewrite shr_fexp_53 by (done || lia). simpl.
  rewrite shr_fexp_53 by (done || lia). simpl.
  assert ((ex <=? emax - prec) = true) as ->; [|done].
  apply Z.leb_le. unfold emax, prec. lia.
Qed.

Lemma round_nearest_even_bounds rec :
  let m2 := round_nearest_even (shr_m rec) (loc_of_shr_record rec) in
  shr_m rec <= m2 <= shr_m rec + 1 /\ (m2 = shr_m rec + 1 -> shr_r rec = true).
Proof.
  destruct rec as [m [|] [|]]; simpl; try (split; [lia|]; (done || lia)).
  destruct (Z.even m); split; (lia || done).
Qed.

(** The product of two mantissas, rounded to 53 digits: the float that comes
    out is [m2 * 2 ^ (ex + s)] for a mantissa [m2] within one half of
    [M / 2 ^ s]. *)
Lemma binary_round_aux_long m ex :
  let d := Z.pos (digits2_pos m) in
  let s := d - 53 in
  53 < d -> -1074 <= ex + s -> ex + s + 1 <= 971 ->
  exists mf ef m2,
    binary_round_aux prec emax false (Z.pos m) ex loc_Exact = S754_finite false mf ef
    /\ 2 * (2 ^ s * m2) <= 2 * Z.pos m + 2 ^ s
    /\ Z.pos m < 2 ^ s * (m2 + 1)
    /\ 2 ^ 52 <= Z.pos mf < 2 ^ 53
    /\ ((ef = ex + s /\ Z.pos mf = m2)
        \/ (ef = ex + s + 1 /\ Z.pos mf = 2 ^ 52 /\ m2 = 2 ^ 53)).
Proof.
  intros d s Hd Hlo Hhi. unfold binary_round_aux.
  rewrite shr_fexp_long by (fold d; lia). fold d. fold s.
  set (rec := Nat.iter (Z.to_nat s) shr_1 (Build_shr_record (Z.pos m) false false)).
  assert (shifted (Z.pos m) s rec) as (Hm1 & [Hl1 Hu1] & Hr1).
  { replace s with (0 + Z.of_nat (Z.to_nat s)) at 1 by lia.
    apply shifted_iter; [lia|]. apply shifted_start. lia. }
  pose proof (round_nearest_even_bounds rec) as [[Hge Hle] Hup].
  set (m2 := round_nearest_even (shr_m rec) (loc_of_shr_record rec)) in *.
  pose proof (digits2_pos_bounds m) as [Hdl Hdu]. fold d in Hdl, Hdu.
  assert (0 < 2 ^ s) as HS by (apply Z.pow_pos_nonneg; lia).
  assert (2 ^ d = 2 ^ s * 2 ^ 53) as Hd53.
  { rewrite <- Z.pow_add_r by lia. f_equal. lia. }
  assert (2 ^ (d - 1) = 2 ^ s * 2 ^ 52) as Hd52.
  { rewrite <- Z.pow_add_r by lia. f_equal. lia. }
  rewrite Hd53 in Hdu. rewrite Hd52 in Hdl.
  set (S := 2 ^ s) in *. clearbody S.
  assert (2 ^ 52 <= shr_m rec < 2 ^ 53) as [Hm52 Hm53] by (split; nia).
  assert (2 * (S * m2) <= 2 * Z.pos m + S) as Hround.
  { destruct (Z.eq_dec m2 (shr_m rec + 1)) as [Heq|Hne].
    - specialize (Hr1 (Hup Heq)). rewrite Heq. lia.
    - assert (m2 = shr_m rec) as -> by lia. lia. }
  assert (Z.pos m < S * (m2 + 1)) as Hbelow by nia.
  destruct (Z.eq_dec m2 (2 ^ 53)) as [Heq|Hne].
  - exists (Z.to_pos (2 ^ 52)), (ex + s + 1), m2.
    rewrite Heq.
    unfold shr_fexp. change (Zdigits2 (2 ^ 53)) with 54.
    rewrite fexp_normal by lia.
    replace (54 + (ex + s) - 53 - (ex + s)) with 1 by lia.
    unfold shr. simpl iter_pos. simpl shr_m.
    assert ((ex + s + 1 <=? emax - prec) = true) as ->
      by (apply Z.leb_le; unfold emax, prec; lia).
    split; [done|]. split; [lia|]. split; [lia|]. split; [done|]. right. done.
  - assert (0 < m2) as Hpos by lia.
    destruct m2 as [|p2|p2] eqn:Hm2; try lia.
    assert (Z.pos (digits2_pos p2) = 53) as Hd2.
    { apply digits2_pos_unique. change (2 ^ (53 - 1)) with (2 ^ 52). lia. }
    exists p2, (ex + s), (Z.pos p2).
    rewrite shr_fexp_53 by (done || lia). simpl.
    assert ((ex + s <=? emax - prec) = true) as ->
      by (apply Z.leb_le; unfold emax, prec; lia).
    split; [done|]. split; [lia|]. split; [lia|]. split; [lia|]. left. done.
Qed.

(** [float64(P)] is exact below [2^52]: the mantissa is [P] shifted up to 53
    digits. *)
Lemma float64_of_uint64_exact p :
  let d := Z.pos (digits2_pos p) in
  d <= 52 ->
  exists mA,
    float64_of_uint64 (Z.pos p) = S754_finite false mA (d - 53)
    /\ Z.pos mA = Z.pos p * 2 ^ (53 - d)
    /\ 2 ^ 52 <= Z.pos mA < 2 ^ 53.
Proof.
  intros d Hd. unfold float64_of_uint64, binary_normalize, binary_round.
  fold d. rewrite fexp_normal by lia.
  unfold shl_align. replace (d + 0 - 53 - 0) with (d - 53) by lia.
  destruct (d - 53) as [|q|q] eqn:Hq; try lia.
  assert (Z.pos q = 53 - d) as Hq' by lia.
  exists (Pos.iter xO p q).
  pose proof (digits2_pos_bounds p) as [Hlo Hhi]. fold d in Hlo, Hhi.
  assert (Z.pos (Pos.iter xO p q) = Z.pos p * 2 ^ (53 - d)) as HA
    by (by rewrite iter_xO, Hq').
  assert (2 ^ 52 <= Z.pos (Pos.iter xO p q) < 2 ^ 53) as HB.
  { rewrite HA.
    assert (2 ^ 52 = 2 ^ (d - 1) * 2 ^ (53 - d)) as ->
      by (rewrite <- Z.pow_add_r by lia; f_equal; lia).
    assert (2 ^ 53 = 2 ^ d * 2 ^ (53 - d)) as ->
      by (rewrite <- Z.pow_add_r by lia; f_equal; lia).
    assert (0 < 2 ^ (53 - d)) by (apply Z.pow_pos_nonneg; lia).
    split; nia. }
  split; [|done].
  replace (d + 0 - 53) with (Z.neg q) by lia.
  apply binary_round_aux_53; [|lia].
  apply digits2_pos_unique. change (2 ^ (53 - 1)) with (2 ^ 52). done.
Qed.

(** The product of a 53-digit mantissa and the mantissa of [0.1] has 105 or
    106 digits. *)
Lemma product_digits mA :
  2 ^ 52 <= Z.pos mA < 2 ^ 53 ->
  Z.pos (digits2_pos (mA * 7205759403792794)) = 105
  \/ Z.pos (digits2_pos (mA * 7205759403792794)) = 106.
Proof.
  intros [Hlo Hhi].
  pose proof (digits2_pos_bounds (mA * 7205759403792794)) as [Hdl Hdu].
  rewrite Pos2Z.inj_mul in Hdl, Hdu.
  set (d := Z.pos (digits2_pos (mA * 7205759403792794))) in *.
  assert (2 ^ 104 <= Z.pos mA * 7205759403792794 < 2 ^ 106) as [H1 H2].
  { change (2 ^ 104) with (2 ^ 52 * 2 ^ 52).
    change (2 ^ 106) with (2 ^ 53 * 2 ^ 53). 
    change (2 ^ 52) with 4503599627370496 in *.
    change (2 ^ 53) with 9007199254740992 in *. split; nia. }
  destruct (Z_le_gt_dec d 104) as [Hle|Hgt].
  - assert (2 ^ d <= 2 ^ 104) by (apply Z.pow_le_mono_r; lia). lia.
  - destruct (Z_le_gt_dec 107 d) as [Hge|Hlt]; [|lia].
    assert (2 ^ 106 <= 2 ^ (d - 1)) by (apply Z.pow_le_mono_r; lia). lia.
Qed.

(** The integer part [n] of [m / U] for a mantissa [m] of 53 digits. *)
Lemma integer_part m n U :
  2 ^ 52 <= m < 2 ^ 53 -> 0 < U -> 0 <= n ->
  n * U <= m < (n + 1) * U ->
  m / U = n
  /\ 0 <= n < 2 ^ 64
  /\ (U <= 2 ^ 51 -> 2 <= n)
  /\ (2 ^ 53 <= U -> n = 0)
  /\ (U = 2 ^ 52 -> n = 1).
Proof.
  change (2 ^ 51) with 2251799813685248.
  change (2 ^ 52) with 4503599627370496.
  change (2 ^ 53) with 9007199254740992.
  change (2 ^ 64) with 18446744073709551616.
  intros [Hlo Hhi] HU Hn [Hnl Hnu].
  split; [|split; [|split; [|split]]].
  - symmetry. apply (Z.div_unique _ _ n (m - n * U)); lia.
  - assert (n * 1 <= n * U) by (apply Z.mul_le_mono_nonneg_l; lia). lia.
  - intros HU51. destruct (Z_lt_le_dec n 2) as [Hlt|Hge]; [|done].
    assert ((n + 1) * U <= 2 * U) by (apply Z.mul_le_mono_nonneg_r; lia). lia.
  - intros HU53. destruct (Z_lt_le_dec n 1) as [Hlt|Hge]; [lia|].
    assert (1 * U <= n * U) by (apply Z.mul_le_mono_nonneg_r; lia). lia.
  - intros ->. lia.
Qed.

(** [uint64(math.Max(x, 1.0))] for a positive normal [x] below [2^53] whose
    integer part is [n]. *)
Lemma uint64_of_max mf ef n :
  2 ^ 52 <= Z.pos mf < 2 ^ 53 ->
  ef < 0 -> 0 <= n ->
  n * 2 ^ (- ef) <= Z.pos mf < (n + 1) * 2 ^ (- ef) ->
  uint64_of_float64 (math_Max (S754_finite false mf ef) float64_one) = Z.max n 1.
Proof.
  intros Hm Hef Hn Hb.
  assert (0 < 2 ^ (- ef)) as HU by (apply Z.pow_pos_nonneg; lia).
  destruct (integer_part _ _ _ Hm HU Hn Hb) as (Hdiv & Hn64 & H51 & H53 & H52).
  unfold math_Max, float64_one, SFltb, SFcompare.
  destruct (Z.compare_spec (-52) ef) as [Heq|Hlt|Hgt].
  - subst ef. specialize (H52 eq_refl). rewrite H52 in *. clear H52.
    change (Pos.compare_cont Eq 4503599627370496 mf)
      with (Pos.compare 4503599627370496 mf).
    destruct (Pos.compare_spec 4503599627370496 mf) as [Hc|Hc|Hc].
    + subst mf. by vm_compute.
    + unfold uint64_of_float64. replace (0 <=? -52) with false by done.
      rewrite Hdiv, Z.mod_small by exact Hn64. done.
    + by vm_compute.
  - unfold uint64_of_float64.
    assert ((0 <=? ef) = false) as -> by (apply Z.leb_gt; lia).
    rewrite Hdiv, Z.mod_small by exact Hn64.
    assert (2 ^ (- ef) <= 2 ^ 51) as H by (apply Z.pow_le_mono_r; lia).
    specialize (H51 H). lia.
  - assert (2 ^ 53 <= 2 ^ (- ef)) as H by (apply Z.pow_le_mono_r; lia).
    rewrite (H53 H). by vm_compute.
Qed.

(** The integer part of the rounded product [P * 0.1] is [P / 10]: [M] is the
    exact product of the mantissas, [m2] the rounded mantissa after a shift
    by [s] digits, and [2^s * U] the weight of the unit. *)
Lemma rounded_tenth P K S U M m2 :
  0 < P -> 2 <= K -> P * K < 2 ^ 53 ->
  0 < S <= 2 ^ 53 -> S * U = K * 2 ^ 56 ->
  M = P * K * 7205759403792794 ->
  2 * (S * m2) <= 2 * M + S ->
  M < S * (m2 + 1) ->
  P / 10 * U <= m2 < (P / 10 + 1) * U.
Proof.
  intros HP HK HA [HS0 HS] HSU HM Hround Hbelow.
  pose proof (Z.div_mod P 10 ltac:(lia)) as Hdm.
  pose proof (Z.mod_pos_bound P 10 ltac:(lia)) as Hmod.
  set (n := P / 10) in *. set (r := P mod 10) in *. clearbody n r.
  change (2 ^ 53) with 9007199254740992 in *.
  change (2 ^ 56) with 72057594037927936 in *.
  assert (0 < U) as HU by nia.
  assert (10 * M = P * K * 72057594037927936 + 4 * (P * K)) as H10 by lia.
  assert (P * K = 10 * (n * K) + r * K) as HPK by lia.
  assert (0 <= r * K <= 9 * K) as Hrk by nia.
  assert (S * (n * U) = n * K * 72057594037927936) as HnSU by nia.
  split.
  - assert (S * (n * U) < S * (m2 + 1)) by nia. nia.
  - assert (2 * (S * m2) < 2 * (S * ((n + 1) * U))); [|nia].
    assert (S * ((n + 1) * U) = n * K * 72057594037927936 + K * 72057594037927936)
      as -> by nia.
    nia.
Qed.

Lemma pow2_split a b : 0 <= a -> 0 <= b -> 2 ^ (a + b) = 2 ^ a * 2 ^ b.
Proof. intros. by apply Z.pow_add_r. Qed.

(** The budget in whole seconds: below [2^52] the float arithmetic of
    [expireLoop] gives one tenth of the interval, rounded down, and never
    less than one. *)
Theorem timeLimitSec_floor P :
  0 < P < 2 ^ 52 -> timeLimitSec P = Z.max (P / 10) 1.
Proof.
  intros [HP0 HP]. destruct P as [|p|p]; try lia.
  set (d := Z.pos (digits2_pos p)).
  assert (d <= 52) as Hd.
  { pose proof (digits2_pos_bounds p) as [Hlo _]. fold d in Hlo.
    destruct (Z_le_gt_dec d 52) as [|Hgt]; [done|].
    assert (2 ^ 52 <= 2 ^ (d - 1)) by (apply Z.pow_le_mono_r; lia). lia. }
  assert (1 <= d) as Hd1 by (unfold d; lia).
  destruct (float64_of_uint64_exact p Hd) as (mA & HfA & HA & HAb).
  fold d in HfA, HA.
  unfold timeLimitSec. rewrite HfA. unfold float64_mul, gcPercentageTime.
  change (SFmul prec emax (S754_finite false mA (d - 53))
            (S754_finite false 7205759403792794 (-56)))
    with (binary_round_aux prec emax false (Z.pos (mA * 7205759403792794))
            (d - 53 + -56) loc_Exact).
  pose proof (binary_round_aux_long (mA * 7205759403792794) (d - 53 + -56)) as H.
  cbv zeta in H.
  set (K := 2 ^ (53 - d)) in *.
  assert (2 <= K) as HK.
  { change 2 with (2 ^ 1) at 1. apply Z.pow_le_mono_r; lia. }
  assert (0 <= Z.pos p / 10) as Hn by (apply Z.div_pos; lia).
  assert (Z.pos (mA * 7205759403792794) = Z.pos p * K * 7205759403792794) as HM
    by (rewrite Pos2Z.inj_mul, HA; done).
  destruct (product_digits mA HAb) as [Hdig|Hdig]; rewrite Hdig in H;
    destruct H as (mf & ef & m2 & Hx & Hr & Hb & Hmf & Hcase); try lia;
    rewrite Hx; apply uint64_of_max; try done.
  - destruct Hcase as [[-> _]|[-> _]]; lia.
  - assert (2 ^ (105 - 53) * 2 ^ (57 - d) = K * 2 ^ 56) as HSU.
    { unfold K. rewrite <- !pow2_split by lia. f_equal. lia. }
    pose proof (rounded_tenth (Z.pos p) K (2 ^ (105 - 53)) (2 ^ (57 - d))
                  (Z.pos (mA * 7205759403792794)) m2
                  ltac:(lia) HK ltac:(lia) ltac:(done) HSU HM Hr Hb) as [Hl Hu].
    destruct Hcase as [[-> ->]|(-> & -> & ->)].
    + replace (- (d - 53 + -56 + (105 - 53))) with (57 - d) by lia. done.
    + replace (- (d - 53 + -56 + (105 - 53) + 1)) with (56 - d) by lia.
      assert (2 ^ (57 - d) = 2 * 2 ^ (56 - d)) as HU2.
      { replace (57 - d) with (1 + (56 - d)) by lia.
        rewrite pow2_split by lia. done. }
      rewrite HU2 in Hl, Hu. change (2 ^ 53) with (2 * 2 ^ 52) in Hl, Hu. lia.
  - destruct Hcase as [[-> _]|[-> _]]; lia.
  - assert (2 ^ (106 - 53) * 2 ^ (56 - d) = K * 2 ^ 56) as HSU.
    { unfold K. rewrite <- !pow2_split by lia. f_equal. lia. }
    pose proof (rounded_tenth (Z.pos p) K (2 ^ (106 - 53)) (2 ^ (56 - d))
                  (Z.pos (mA * 7205759403792794)) m2
                  ltac:(lia) HK ltac:(lia) ltac:(done) HSU HM Hr Hb) as [Hl Hu].
    destruct Hcase as [[-> ->]|(-> & -> & ->)].
    + replace (- (d - 53 + -56 + (106 - 53))) with (56 - d) by lia. done.
    + replace (- (d - 53 + -56 + (106 - 53) + 1)) with (55 - d) by lia.
      assert (2 ^ (56 - d) = 2 * 2 ^ (55 - d)) as HU2.
      { replace (56 - d) with (1 + (55 - d)) by lia.
        rewrite pow2_split by lia. done. }
      rewrite HU2 in Hl, Hu. change (2 ^ 53) with (2 * 2 ^ 52) in Hl, Hu. lia.
Qed.

(** [max(0.1 * P, 1)] rounded down to a whole number. *)
Lemma Qfloor_budget P :
  Qfloor (Qmax ((1 # 10) * inject_Z P) 1) = Z.max (P / 10) 1.
Proof.
  assert (Qfloor ((1 # 10) * inject_Z P) = P / 10) as Hfl.
  { unfold Qfloor, Qmult, inject_Z. simpl Qnum. simpl Qden.
    by destruct P. }
  destruct (Qlt_le_dec ((1 # 10) * inject_Z P) 1) as [Hlt|Hle].
  - rewrite (Qfloor_comp _ 1) by (apply Q.max_r; by apply Qlt_le_weak).
    change (Qfloor 1) with 1.
    assert (P < 10) as HP by (unfold Qlt in Hlt; simpl in Hlt; lia).
    assert (P / 10 <= 0); [|lia].
    apply Z.lt_succ_r. apply Z.div_lt_upper_bound; lia.
  - rewrite (Qfloor_comp _ ((1 # 10) * inject_Z P)) by (by apply Q.max_l).
    rewrite Hfl.
    assert (10 <= P) as HP by (unfold Qle in Hle; simpl in Hle; lia).
    assert (1 <= P / 10); [|lia].
    apply Z.div_le_lower_bound; lia.
Qed.

Lemma budgets_app t1 t2 : budgets (t1 ++ t2) = budgets t1 ++ budgets t2.
Proof. unfold budgets. apply omap_app. Qed.

Lemma budgets_sweep {DB : Type} (n : Node DB) k db :
  budgets (snd (sweep n k db)) = [timeLimitSec (ExpirationPollIntervalSec n)].
Proof.
  unfold sweep.
  destruct (DeleteExpiredEntries n db (Now n k)
              (timeLimitSec (ExpirationPollIntervalSec n))) as [db' [c [e|]]];
    simpl; [|done].
  by destruct (errors_Is e ErrDeadlineExceeded).
Qed.

(** Every tick of the ticker hands [timeLimitSec] to the store, once. *)
Lemma budgets_expireLoopFrom {DB : Type} (n : Node DB) periods : forall k db,
  (1 <= k)%nat ->
  budgets (snd (expireLoopFrom n k periods db))
  = replicate periods (timeLimitSec (ExpirationPollIntervalSec n)).
Proof.
  induction periods as [|p IH]; intros k db Hk; simpl; [done|].
  destruct k as [|k]; [lia|]. simpl.
  pose proof (budgets_sweep n (S k) db) as Hs.
  destruct (sweep n (S k) db) as [db1 t1].
  specialize (IH (S (S k)) db1 ltac:(lia)).
  destruct (expireLoopFrom n (S (S k)) p db1) as [db2 t2].
  simpl in *. by rewrite budgets_app, Hs, IH.
Qed.

(** Up to 9223372036 seconds the period of the ticker is the poll interval
    in nanoseconds. *)
Lemma tickerPeriod_fits P :
  0 <= P <= 9223372036 -> tickerPeriod P = P * 1000000000.
Proof.
  intros HP. unfold tickerPeriod, time_Second, wrap_int.
  rewrite (Z.mod_small (P + 2 ^ 63)) by lia.
  rewrite Z.mod_small by lia. lia.
Qed.

(** C4 (as amended).  For every positive poll interval [P] below [2^52]
    seconds with which the ticker starts, that is, for which
    [time.Duration(P) * time.Second] is positive, as it is for every [P] up
    to 9223372036, the budget that the sweeper hands to
    [DeleteExpiredEntries] on each tick is [max(0.1 * P, 1)] rounded down to
    a whole number of seconds, which is [max(P / 10, 1)] in integer
    arithmetic.  Where the period wraps to a value that is not positive,
    [time.NewTicker] panics and no sweep is made. *)
Theorem sweeper_budget {DB : Type} (n : Node DB) periods db :
  0 < ExpirationPollIntervalSec n < 2 ^ 52 ->
  (ExpirationPollIntervalSec n <= 9223372036 ->
   0 < tickerPeriod (ExpirationPollIntervalSec n))
  /\ (0 < tickerPeriod (ExpirationPollIntervalSec n) ->
      exists db' tr,
        expireLoop n periods db = Some (db', tr)
        /\ budgets tr
           = replicate periods
               (Qfloor (Qmax ((1 # 10) * inject_Z (ExpirationPollIntervalSec n)) 1)))
  /\ (tickerPeriod (ExpirationPollIntervalSec n) <= 0 ->
      expireLoop n periods db = None)
  /\ Qfloor (Qmax ((1 # 10) * inject_Z (ExpirationPollIntervalSec n)) 1)
     = Z.max (ExpirationPollIntervalSec n / 10) 1.
Proof.
  intros HP. split; [|split; [|split]].
  - intros Hfit. rewrite tickerPeriod_fits by lia. lia.
  - intros Hpos. unfold expireLoop.
    assert ((0 <? tickerPeriod (ExpirationPollIntervalSec n)) = true) as ->
      by (by apply Z.ltb_lt).
    exists (fst (expireLoopFrom n 1 periods db)),
           (snd (expireLoopFrom n 1 periods db)).
    split; [by destruct (expireLoopFrom n 1 periods db)|].
    rewrite budgets_expireLoopFrom by lia.
    by rewrite Qfloor_budget, timeLimitSec_floor.
  - intros Hneg. unfold expireLoop.
    assert ((0 <? tickerPeriod (ExpirationPollIntervalSec n)) = false) as ->
      by (by apply Z.ltb_ge).
    done.
  - apply Qfloor_budget.
Qed.

(** C4, counterexample.  For a poll interval of 15 seconds the budget is 1
    second, not the 1.5 seconds of [max(0.1 * P, 1)]. *)
Lemma budget_is_whole_seconds : ~ stated_budget 15.
Proof.
  unfold stated_budget. change (timeLimitSec 15) with 1.
  intros H. apply Qeq_bool_iff in H. vm_compute in H. discriminate H.
Qed.

(** C4, witness: three ticks at a poll interval of 15 seconds. *)
Lemma sweeper_budget_witness :
  0 < tickerPeriod 15
  /\ exists db' tr,
       expireLoop (idleNode 15) 3 tt = Some (db', tr)
       /\ budgets tr = replicate 3 (Qfloor (Qmax ((1 # 10) * inject_Z 15) 1))
       /\ Qfloor (Qmax ((1 # 10) * inject_Z 15) 1) = Z.max (15 / 10) 1.
Proof.
  destruct (sweeper_budget (idleNode 15) 3 tt) as (Hfit & Hrun & _ & Hq).
  { simpl. lia. }
  assert (0 < tickerPeriod 15) as Hpos by (apply Hfit; simpl; lia).
  split; [exact Hpos|].
  destruct (Hrun Hpos) as (db' & tr & Hloop & Hb).
  exists db', tr. split; [exact Hloop|]. split; [exact Hb | exact Hq].
Defined.

(** One second past 9223372036 the period wraps to a negative duration, and
    a poll interval of zero gives a period of zero: the ticker panics and
    nothing is swept. *)
Example ticker_panics :
  tickerPeriod 9223372036 = 9223372036000000000
  /\ tickerPeriod 9223372037 < 0
  /\ expireLoop (idleNode 9223372037) 3 tt = None
  /\ expireLoop (idleNode 0) 3 tt = None.
Proof. by vm_compute. Qed.

(** Scenario D of the specification, and the default interval of three
    minutes. *)
Example budget_values :
  map timeLimitSec [1; 5; 9; 10; 15; 19; 20; 180; 3600]
  = [1; 1; 1; 1; 1; 1; 2; 18; 360].
Proof. by vm_compute. Qed.

(** Close to [2^53] the product is rounded up to the next integer. *)
Example budget_beyond_the_bound :
  timeLimitSec (2 ^ 53 - 3) = (2 ^ 53 - 3) / 10 + 1.
Proof. by vm_compute. Qed.

(** X15.  The budget of a sweep is at least one second and never longer than the
    poll interval; from ten seconds on it is a tenth of the interval rounded
    down, below twenty seconds it is one second, and it grows with the
    interval. *)
Theorem budget_fits_the_interval P Q :
  0 < P <= Q -> Q < 2 ^ 52 ->
  1 <= timeLimitSec P <= P
  /\ (10 <= P -> 10 * timeLimitSec P <= P < 10 * (timeLimitSec P + 1))
  /\ (P < 20 -> timeLimitSec P = 1)
  /\ (timeLimitSec P = P -> P = 1)
  /\ timeLimitSec P <= timeLimitSec Q.
Proof.
  intros HP HQ. rewrite !timeLimitSec_floor by lia.
  pose proof (Z.div_mod P 10 ltac:(lia)) as HdP.
  pose proof (Z.mod_pos_bound P 10 ltac:(lia)) as HmP.
  pose proof (Z.div_le_mono P Q 10 ltac:(lia) ltac:(lia)) as Hmono.
  repeat split; lia.
Qed.

(** X15, witness: poll intervals of 15 seconds and of three minutes. *)
Lemma budget_fits_the_interval_witness :
  1 <= timeLimitSec 15 <= 15
  /\ (10 <= 15 -> 10 * timeLimitSec 15 <= 15 < 10 * (timeLimitSec 15 + 1))
  /\ (15 < 20 -> timeLimitSec 15 = 1)
  /\ (timeLimitSec 15 = 15 -> 15 = 1)
  /\ timeLimitSec 15 <= timeLimitSec 180.
Proof. apply (budget_fits_the_interval 15 180); lia. Defined.

Lemma sweeps_app t1 t2 : sweeps (t1 ++ t2) = sweeps t1 ++ sweeps t2.
Proof. unfold sweeps. apply omap_app. Qed.

Lemma failures_app t1 t2 : failures (t1 ++ t2) = (failures t1 + failures t2)%nat.
Proof. unfold failures. by rewrite List.filter_app, length_app. Qed.

Lemma error_logs_app t1 t2 :
  error_logs (t1 ++ t2) = (error_logs t1 + error_logs t2)%nat.
Proof. unfold error_logs. by rewrite List.filter_app, length_app. Qed.

(** A sweep is one call to the store, and it logs an error exactly when the
    call returned one. *)
Lemma sweep_events {DB : Type} (n : Node DB) k db :
  fst (sweep n k db)
  = fst (DeleteExpiredEntries n db (Now n k)
           (timeLimitSec (ExpirationPollIntervalSec n)))
  /\ sweeps (snd (sweep n k db)) = [Now n k]
  /\ error_logs (snd (sweep n k db)) = failures (snd (sweep n k db)).
Proof.
  unfold sweep.
  destruct (DeleteExpiredEntries n db (Now n k)
              (timeLimitSec (ExpirationPollIntervalSec n))) as [db' [c [e|]]];
    simpl; [|done].
  by destruct (errors_Is e ErrDeadlineExceeded).
Qed.

Lemma expireLoopFrom_swept {DB : Type} (n : Node DB) periods : forall k db,
  (1 <= k)%nat ->
  exists tr,
    expireLoopFrom n k periods db = (swept n (seq k periods) db, tr)
    /\ sweeps tr = map (Now n) (seq k periods)
    /\ error_logs tr = failures tr.
Proof.
  induction periods as [|p IH]; intros k db Hk.
  - by exists [].
  - destruct k as [|k]; [lia|].
    destruct (sweep_events n (S k) db) as (Hdb & Hs1 & He1).
    cbn [expireLoopFrom]. change (Clock.fires Clock.NewTicker (S k)) with true.
    cbv iota beta.
    destruct (sweep n (S k) db) as [db1 t1]. simpl in Hdb, Hs1, He1.
    destruct (IH (S (S k)) db1 ltac:(lia)) as (tr & Hrun & Hs & He).
    rewrite Hrun. exists (t1 ++ tr). split; [|split].
    + unfold swept. simpl. by rewrite <- Hdb.
    + by rewrite sweeps_app, Hs1, Hs.
    + by rewrite error_logs_app, failures_app, He1, He.
Qed.

(** X16.  The expiration loop sweeps exactly when its ticker starts.  When
    [time.Duration(P) * time.Second] is not positive, [time.NewTicker]
    panics and no sweep is made.  Otherwise there is one sweep per tick, at
    the time of the tick and on the store as the sweep before left it,
    whatever the sweeps before returned: an error of [DeleteExpiredEntries]
    leaves one error line in the log and nothing else. *)
Theorem expireLoop_sweeps_every_tick {DB : Type} (n : Node DB) periods db :
  (tickerPeriod (ExpirationPollIntervalSec n) <= 0 ->
   expireLoop n periods db = None)
  /\ (0 < tickerPeriod (ExpirationPollIntervalSec n) ->
      exists tr,
        expireLoop n periods db = Some (swept n (seq 1 periods) db, tr)
        /\ sweeps tr = map (Now n) (seq 1 periods)
        /\ error_logs tr = failures tr).
Proof.
  unfold expireLoop. split.
  - intros Hneg.
    assert ((0 <? tickerPeriod (ExpirationPollIntervalSec n)) = false) as ->
      by (by apply Z.ltb_ge).
    done.
  - intros Hpos.
    assert ((0 <? tickerPeriod (ExpirationPollIntervalSec n)) = true) as ->
      by (by apply Z.ltb_lt).
    destruct (expireLoopFrom_swept n periods 1 db ltac:(lia))
      as (tr & Hrun & Hs & He).
    exists tr. by rewrite Hrun.
Qed.

(** Three ticks on a store that runs out of time in every sweep: three
    sweeps are made and three errors are logged. *)
Example sweeping_goes_on_after_errors :
  exists tr,
    expireLoop (failingNode 15) 3 0%nat = Some (3%nat, tr)
    /\ sweeps tr = [1700000015; 1700000030; 1700000045]
    /\ failures tr = 3%nat
    /\ error_logs tr = 3%nat.
Proof. eexists. vm_compute. done. Qed.

End GCFacts.

(** ** Construction of the node *)
Module SetupFacts.
Import Setup.

(** Runs through the calls of a constructor, one case per outcome. *)
Ltac run_cases :=
  unfold NewNode, buildSdkClients, bind, wrapped, extern_, extern, externZ,
    callMustRegister, pure, readConfig, writeID, ret, settled_by;
  simpl;
  repeat match goal with
         | |- context [match ?x with _ => _ end] =>
             lazymatch x with
             | context [match _ with _ => _ end] => fail
             | _ => destruct x eqn:?; simpl
             end
         end.

Ltac is_in := repeat first [ by left | right ].

Ltac which_call H :=
  repeat first [ apply elem_of_cons in H as [H|H]
               | apply elem_of_nil in H; destruct H
               | discriminate H ].

(** X17.  The two retention parameters with which [NewNode] opens the store, at
    the path [DbPath + "/chunk"]: each is the configured override reduced
    to a [uint32] when test mode is on and the override is positive, and
    then the chain is not asked for it; otherwise it is the value read
    from the chain.  The store is opened on every path that returns a
    node. *)
Theorem retention_parameters {P : Pkg} (pubIPProvider : pubip_Provider P)
    (h h' : heap P) r :
  calls h = [] ->
  NewNode pubIPProvider h = (h', r) ->
  (forall path stale duration err,
     CallNewLevelDBStore path stale duration err ∈ calls h' ->
     path = DbPath (config h) +:+ "/chunk"
     /\ settled_by (config h) (OverrideBlockStaleMeasure (config h))
          is_stale_read CallGetBlockStaleMeasure (calls h') stale
     /\ settled_by (config h) (OverrideStoreDurationBlocks (config h))
          is_duration_read CallGetStoreDurationBlocks (calls h') duration)
  /\ (forall node, r = Returned node ->
        exists stale duration,
          CallNewLevelDBStore (DbPath (config h) +:+ "/chunk") stale duration None
          ∈ calls h').
Proof.
  destruct h as [w cfg cs]. simpl. intros ->. revert h' r. run_cases.
  all: intros h' r [= <- <-]; simpl.
  all: (split; [intros path' stale' duration' err' H | intros node' [=]]).
  all: try (which_call H; fail).
  all: try (which_call H; injection H as -> -> -> _;
            unfold uint32; repeat split; is_in).
  all: do 2 eexists; is_in.
Qed.
(** X17, witness: test mode with an override of the stale measure that
    does not fit a [uint32], and no override of the store duration. *)
Lemma retention_parameters_witness :
  let h := start (testConfig true (2 ^ 32 + 600) 0) in
  let run := NewNode (tt : pubip_Provider testPkg) h in
  CallNewLevelDBStore "/data/chunk" 600 7200 None ∈ calls (fst run)
  /\ settled_by (config h) (2 ^ 32 + 600) is_stale_read CallGetBlockStaleMeasure
       (calls (fst run)) 600
  /\ settled_by (config h) 0 is_duration_read CallGetStoreDurationBlocks
       (calls (fst run)) 7200.
Proof.
  intros h run.
  assert (CallNewLevelDBStore "/data/chunk" 600 7200 None ∈ calls (fst run))
    as Hin by (vm_compute; is_in).
  split; [exact Hin|].
  destruct (retention_parameters (tt : pubip_Provider testPkg) h (fst run)
              (snd run)) as [H _]; [reflexivity | vm_compute; reflexivity |].
  destruct (H "/data/chunk" 600%Z 7200%Z None Hin) as (_ & Hs & Hd).
  split; [exact Hs | exact Hd].
Defined.

(** X18.  The identity of the node.  A node that [NewNode] returns carries the
    key pair made from [PrivateBls]; its [Config] is the caller's, with
    [ID] set to the operator ID of that key pair, its [PubIPProvider] is the
    one passed in and its [CurrentSocket] is empty.  [config.ID] is written
    before the database directory is made, so it stays written when a later
    step fails; when the key pair cannot be made, the config is untouched,
    no directory is made and no node is returned. *)
Theorem operator_identity {P : Pkg} (pubIPProvider : pubip_Provider P)
    (h h' : heap P) r :
  calls h = [] ->
  NewNode pubIPProvider h = (h', r) ->
  (forall node, r = Returned node ->
     exists keyPair,
       core_MakeKeyPairFromString P (PrivateBls (config h)) = inl keyPair
       /\ KeyPair node = keyPair
       /\ NodeConfig node = withID (GetOperatorID P keyPair) (config h)
       /\ config h' = NodeConfig node
       /\ PubIPProvider node = pubIPProvider
       /\ CurrentSocket node = "")
  /\ (existsb is_mkdir (calls h') = true ->
      exists keyPair,
        core_MakeKeyPairFromString P (PrivateBls (config h)) = inl keyPair
        /\ config h' = withID (GetOperatorID P keyPair) (config h))
  /\ (forall e, core_MakeKeyPairFromString P (PrivateBls (config h)) = inr e ->
        config h' = config h
        /\ existsb is_mkdir (calls h') = false
        /\ forall node, r <> Returned node).
Proof.
  destruct h as [w cfg cs]. simpl. intros ->. revert h' r. run_cases.
  all: intros h' r [= <- <-]; simpl.
  all: (split; [intros node' [=] | split; [intros [=] | intros e' [=]]]).
  all: try done.
  all: try (subst; eexists; done).
  all: eexists; done.
Qed.

(** X18, witness: every call succeeds. *)
Lemma operator_identity_witness :
  let run := NewNode (tt : pubip_Provider testPkg) (start (testConfig false 0 0)) in
  exists node keyPair,
    snd run = Returned node
    /\ core_MakeKeyPairFromString testPkg "bls-key" = inl keyPair
    /\ KeyPair node = keyPair
    /\ NodeConfig node = withID (GetOperatorID testPkg keyPair) (testConfig false 0 0)
    /\ config (fst run) = NodeConfig node
    /\ PubIPProvider node = tt
    /\ CurrentSocket node = "".
Proof.
  intros run.
  destruct (operator_identity (tt : pubip_Provider testPkg)
              (start (testConfig false 0 0)) (fst run) (snd run))
    as [H _]; [reflexivity | vm_compute; reflexivity |].
  assert (exists node, snd run = Returned node) as [node Hnode]
    by (vm_compute; eexists; reflexivity).
  destruct (H node Hnode) as (keyPair & Hkp).
  exists node, keyPair. split; [exact Hnode | exact Hkp].
Defined.

(** X19.  [NewNode] stops at the first step that fails.  Every call before the
    last one made has returned a nil error; a node is returned only when
    all calls have; and an error that [NewNode] returns is the error of the
    last call, as it is or wrapped once, or else the error of the key pair
    made from [PrivateBls]. *)
Theorem NewNode_stops_at_the_first_failure {P : Pkg}
    (pubIPProvider : pubip_Provider P) (h h' : heap P) r :
  calls h = [] ->
  NewNode pubIPProvider h = (h', r) ->
  forallb (fun c => bool_decide (failure_of c = None)) (removelast (calls h'))
  = true
  /\ (forall node, r = Returned node ->
        forallb (fun c => bool_decide (failure_of c = None)) (calls h') = true)
  /\ (forall e, r = Failed e ->
        core_MakeKeyPairFromString P (PrivateBls (config h)) = inr e
        \/ exists c, last (calls h') = Some c /\ caused_by e c).
Proof.
  destruct h as [w cfg cs]. simpl. intros ->. revert h' r. run_cases.
  all: intros h' r [= <- <-]; simpl.
  all: (split; [done | split; [intros node' [=]; done | intros e' [=]; subst]]).
  all: try (left; done).
  all: right; eexists; (split; [reflexivity|]); eexists; (split; [reflexivity|]).
  all: try (left; done).
  all: right; eexists; done.
Qed.

(** X19, witness: the database path is empty and the store cannot be
    opened. *)
Lemma NewNode_stops_at_the_first_failure_witness :
  let run := NewNode (tt : pubip_Provider testPkg)
               (@Build_heap testPkg 0
                  (@Build_Config testPkg "9100" "bls-key" "unset" ""
                     {| RPCURL := "http://rpc"; PrivateKeyString := "ecdsa-key" |}
                     "0xaa" "0xbb" "9091" tt false 0%Z 0%Z) []) in
  snd run = Failed (ErrWrap "failed to create new store" (ErrOpaque "no path"))
  /\ forallb (fun c => bool_decide (failure_of c = None)) (removelast (calls (fst run)))
     = true
  /\ exists c, last (calls (fst run)) = Some c
       /\ caused_by (ErrWrap "failed to create new store" (ErrOpaque "no path")) c.
Proof.
  intros run.
  assert (snd run
          = Failed (ErrWrap "failed to create new store" (ErrOpaque "no path")))
    as Hfail by (vm_compute; reflexivity).
  destruct (NewNode_stops_at_the_first_failure (tt : pubip_Provider testPkg)
              (@Build_heap testPkg 0
                  (@Build_Config testPkg "9100" "bls-key" "unset" ""
                     {| RPCURL := "http://rpc"; PrivateKeyString := "ecdsa-key" |}
                     "0xaa" "0xbb" "9091" tt false 0%Z 0%Z) [])
              (fst run) (snd run))
    as (Hbefore & _ & Hlast); [reflexivity | vm_compute; reflexivity |].
  split; [exact Hfail|]. split; [exact Hbefore|].
  destruct (Hlast _ Hfail) as [Hkp|Hc]; [discriminate Hkp | exact Hc].
Defined.

(** X20.  [buildSdkClients] leaves the config as it is and stops at the
    first call that fails: it returns the error of [NewClient] wrapped and
    the errors of the three other calls as they are.  The calls are made one
    after the other, each on the world as the one before left it: the
    transactor is made for the client that [NewClient] returned, and the SDK
    is built for the RPC URL of the config on both of its endpoints and for
    the address that [RegistryCoordinator] returned for that transactor.
    The collector is registered only once all four calls have succeeded,
    and the clients returned are those that [BuildClients] returned, once
    the collector is registered with them. *)
Theorem buildSdkClients_outcome {P : Pkg} (h h' : heap P) r :
  calls h = [] ->
  buildSdkClients h = (h', r) ->
  config h' = config h
  /\ (forall sdkConfig err, CallBuildClients sdkConfig err ∈ calls h' ->
        exists w1 client w2 tx w3 addr,
          geth_NewClient P (world h) (EthClientConfig_ (config h))
          = (w1, inl client)
          /\ eth_NewTransactor P w1 client
               (BLSOperatorStateRetrieverAddr (config h))
               (EigenDAServiceManagerAddr (config h))
             = (w2, inl tx)
          /\ RegistryCoordinator P w2 tx = (w3, inl addr)
          /\ sdkConfig
             = {| EcdsaPrivateKeyString :=
                    PrivateKeyString (EthClientConfig_ (config h));
                  EthHttpUrl := RPCURL (EthClientConfig_ (config h));
                  EthWsUrl := RPCURL (EthClientConfig_ (config h));
                  BlsRegistryCoordinatorAddr := Hex P addr;
                  BlsOperatorStateRetrieverAddr :=
                    BLSOperatorStateRetrieverAddr (config h);
                  AvsName := AppName P;
                  PromMetricsIpPortAddress := ":" +:+ MetricsPort (config h) |}
          /\ (forall clients, r = Returned clients ->
                exists w4,
                  constructor_BuildClients P w3 sdkConfig = (w4, inl clients)
                  /\ MustRegister P w4 clients
                       (economic_NewCollector P clients client)
                     = Some (world h')))
  /\ match r with
     | Returned _ =>
         exists sdkConfig,
           calls h' = [CallNewClient None; CallNewTransactor None;
                       CallRegistryCoordinator None;
                       CallBuildClients sdkConfig None; CallMustRegister false]
     | Failed e =>
         existsb is_register (calls h') = false
         /\ forallb (fun c => bool_decide (failure_of c = None))
              (removelast (calls h')) = true
         /\ match last (calls h') with
            | Some (CallNewClient (Some e0)) =>
                e = ErrWrap "cannot create chain.Client" e0
            | Some c => failure_of c = Some e
            | None => False
            end
     | Panicked => last (calls h') = Some (CallMustRegister true)
     end.
Proof.
  destruct h as [w cfg cs]. simpl. intros ->. revert h' r. run_cases.
  all: intros h' r [= <- <-]; simpl.
  all: (split; [done|]).
  all: (split; [intros sdkConfig' err' H; which_call H;
                injection H as -> _;
                do 6 eexists;
                (do 4 (split; [first [reflexivity | eassumption]|]));
                intros clients' [= <-]; eexists; split; eassumption |]).
  all: try done.
  all: by eexists.
Qed.

(** X20, witness: every call succeeds. *)
Lemma buildSdkClients_outcome_witness :
  let run := buildSdkClients (start (testConfig false 0 0)) in
  config (fst run) = testConfig false 0 0
  /\ (forall sdkConfig err, CallBuildClients sdkConfig err ∈ calls (fst run) ->
        EthWsUrl sdkConfig = "http://rpc"
        /\ BlsRegistryCoordinatorAddr sdkConfig = "0xc0"
        /\ PromMetricsIpPortAddress sdkConfig = ":9100")
  /\ exists sdkConfig,
       calls (fst run)
       = [CallNewClient None; CallNewTransactor None; CallRegistryCoordinator None;
          CallBuildClients sdkConfig None; CallMustRegister false].
Proof.
  intros run.
  assert (exists clients, snd run = Returned clients) as [clients Hret]
    by (vm_compute; eexists; reflexivity).
  destruct (buildSdkClients_outcome (start (testConfig false 0 0)) (fst run)
              (snd run)) as (Hc & Hsdk & Hr);
    [reflexivity | vm_compute; reflexivity |].
  split; [exact Hc|]. split.
  - intros sdkConfig err Hin.
    destruct (Hsdk sdkConfig err Hin)
      as (w1 & client & w2 & tx & w3 & addr & _ & _ & Hrc & -> & _).
    injection Hrc as _ <-. by vm_compute.
  - rewrite Hret in Hr. exact Hr.
Defined.

End SetupFacts.
